(** * Terminal line-editing engine of mcp-feedback-terminal

    A shallow embedding of the client's line editor:
    - [Cursor]       : class [Cursor], the immutable text cursor;
    - [DoublePress]  : hook [useDoublePress], the gesture debouncer;
    - [Dispatch]     : hook [useTextInput], the key dispatcher;
    - [Paste]        : component [TextInput], the paste coalescer.

    JavaScript strings are sequences of UTF-16 code units, modelled as
    lists of [N]; JavaScript numbers that hold offsets, widths and clock
    readings are modelled as [Z]. *)

From Stdlib Require Import ZArith NArith List Bool Lia Permutation.
Import ListNotations.
Open Scope Z_scope.

(** ** JavaScript string and array primitives used by the sources *)

Module JS.

Definition code_unit := N.
Definition jsstring := list code_unit.

Definition LF : code_unit := 10%N.          (* '\n' *)
Definition CR : code_unit := 13%N.          (* '\r' *)
Definition BS : code_unit := 8%N.           (* '\b', also written '\x08' *)
Definition DEL : code_unit := 127%N.        (* '\x7f' *)
Definition ESC : code_unit := 27%N.         (* '\x1b' *)
Definition BACKSLASH : code_unit := 92%N.   (* '\\' *)
Definition QUOTE : code_unit := 39%N.       (* ' *)
Definition SLASH : code_unit := 47%N.       (* / *)

(** [s.length], for a string and for an array *)
Definition len {A : Type} (s : list A) : Z := Z.of_nat (length s).

(** Relative index of [String.prototype.slice]: a negative index counts
    from the end, and every index is clamped into [0, len]. *)
Definition rel_index (n k : Z) : Z :=
  if k <? 0 then Z.max (n + k) 0 else Z.min k n.

(** [s.slice(start, end)] *)
Definition slice (s : jsstring) (start stop : Z) : jsstring :=
  let from := rel_index (len s) start in
  let to := rel_index (len s) stop in
  firstn (Z.to_nat (to - from)) (skipn (Z.to_nat from) s).

(** [s.slice(start)] *)
Definition slice_from (s : jsstring) (start : Z) : jsstring :=
  let from := rel_index (len s) start in
  firstn (Z.to_nat (len s - from)) (skipn (Z.to_nat from) s).

(** [a[i]] on a string or an array: [undefined] out of range. *)
Definition get {A : Type} (a : list A) (i : Z) : option A :=
  if i <? 0 then None else nth_error a (Z.to_nat i).

(** [a[i] ?? d] *)
Definition get_or {A : Type} (a : list A) (i : Z) (d : A) : A :=
  match get a i with Some x => x | None => d end.

(** The code units matched by the regular expression class [\s]. *)
Definition is_whitespace (c : code_unit) : bool :=
  let z := Z.of_N c in
  ((9 <=? z) && (z <=? 13))
  || (z =? 32) || (z =? 160) || (z =? 5760)
  || ((8192 <=? z) && (z <=? 8202))
  || (z =? 8232) || (z =? 8233) || (z =? 8239) || (z =? 8287)
  || (z =? 12288) || (z =? 65279).

(** [/\s/.test(s[i] ?? '')]: the empty string holds no whitespace. *)
Definition test_space (s : jsstring) (i : Z) : bool :=
  match get s i with
  | Some c => is_whitespace c
  | None => false
  end.

(** [s.split(sep)] for a separator of one code unit; the result is never
    the empty array. *)
Fixpoint split (sep : code_unit) (s : jsstring) : list jsstring :=
  match s with
  | [] => [[]]
  | c :: rest =>
      if N.eqb c sep then [] :: split sep rest
      else match split sep rest with
           | [] => [[c]]
           | l :: ls => (c :: l) :: ls
           end
  end.

(** [chunks.join('')] *)
Definition join (chunks : list jsstring) : jsstring := concat chunks.

(** [s.repeat(n)] for a count [n >= 0]. *)
Fixpoint repeat_nat (s : jsstring) (n : nat) : jsstring :=
  match n with
  | O => []
  | S k => s ++ repeat_nat s k
  end.

Definition repeat (s : jsstring) (n : Z) : jsstring := repeat_nat s (Z.to_nat n).

(** [a === b] on strings *)
Definition eqb (a b : jsstring) : bool :=
  if list_eq_dec N.eq_dec a b then true else false.

(** [s.startsWith(p)] *)
Fixpoint startsWith (s p : jsstring) : bool :=
  match p, s with
  | [], _ => true
  | _ :: _, [] => false
  | x :: p', y :: s' => N.eqb x y && startsWith s' p'
  end.

(** [s.replace(/\r/g, '\n')] *)
Definition replace_cr (s : jsstring) : jsstring :=
  map (fun c => if N.eqb c CR then LF else c) s.

(** A JavaScript [while] loop over one numeric variable, run for at most
    [fuel] iterations. *)
Fixpoint while (fuel : nat) (cond : Z -> bool) (body : Z -> Z) (x : Z) : Z :=
  match fuel with
  | O => x
  | S f => if cond x then while f cond body (body x) else x
  end.

End JS.

(** ** The class [Cursor] *)

Module Cursor.
Import JS.

Record Cursor := mk {
  text : jsstring;
  columns : Z;
  offset : Z
}.

Definition fromText (t : jsstring) (cols : Z) (off : Z) : Cursor :=
  mk t cols (Z.max 0 (Z.min off (len t))).

Definition equals (a b : Cursor) : bool :=
  eqb (text a) (text b) && (columns a =? columns b) && (offset a =? offset b).

Definition left (c : Cursor) : Cursor :=
  mk (text c) (columns c) (Z.max 0 (offset c - 1)).

Definition right (c : Cursor) : Cursor :=
  mk (text c) (columns c) (Z.min (len (text c)) (offset c + 1)).

(** private [getLineColumn]: the pair (lineIndex, columnIndex) *)
Definition getLineColumn (c : Cursor) : Z * Z :=
  let lines := split LF (slice (text c) 0 (offset c)) in
  let lineIndex := len lines - 1 in
  let lastLine := get_or lines lineIndex [] in
  (lineIndex, len lastLine).

(** The [for] loop of [getOffsetFromLineColumn]; [rest] holds [lines[i..]],
    so [i < lines.length] is [rest] being non-empty. *)
Fixpoint lineLoop (rest : list jsstring) (i lineIndex acc : Z) : Z :=
  match rest with
  | [] => acc
  | line :: rest' =>
      if i <? lineIndex then lineLoop rest' (i + 1) lineIndex (acc + (len line + 1))
      else acc
  end.

(** private [getOffsetFromLineColumn] *)
Definition getOffsetFromLineColumn (c : Cursor) (lineIndex columnIndex : Z) : Z :=
  let lines := split LF (text c) in
  let off := lineLoop lines 0 lineIndex 0 in
  let targetLine := get_or lines lineIndex [] in
  let off := off + Z.min columnIndex (len targetLine) in
  Z.min off (len (text c)).

Definition up (c : Cursor) : Cursor :=
  let lines := split LF (text c) in
  let '(lineIndex, columnIndex) := getLineColumn c in
  if lineIndex =? 0 then c
  else
    let prevLine := get_or lines (lineIndex - 1) [] in
    let newColumnIndex := Z.min columnIndex (len prevLine) in
    let newOffset := getOffsetFromLineColumn c (lineIndex - 1) newColumnIndex in
    mk (text c) (columns c) newOffset.

Definition down (c : Cursor) : Cursor :=
  let lines := split LF (text c) in
  let '(lineIndex, columnIndex) := getLineColumn c in
  if lineIndex >=? len lines - 1 then c
  else
    let nextLine := get_or lines (lineIndex + 1) [] in
    let newColumnIndex := Z.min columnIndex (len nextLine) in
    let newOffset := getOffsetFromLineColumn c (lineIndex + 1) newColumnIndex in
    mk (text c) (columns c) newOffset.

Definition startOfLine (c : Cursor) : Cursor :=
  let '(lineIndex, _) := getLineColumn c in
  let newOffset := getOffsetFromLineColumn c lineIndex 0 in
  mk (text c) (columns c) newOffset.

Definition endOfLine (c : Cursor) : Cursor :=
  let lines := split LF (text c) in
  let '(lineIndex, _) := getLineColumn c in
  let currentLine := get_or lines lineIndex [] in
  let newOffset := getOffsetFromLineColumn c lineIndex (len currentLine) in
  mk (text c) (columns c) newOffset.

(** Loop guards and fuel of the two scans.  Each backward iteration needs
    [newOffset > 0] and decrements, each forward iteration needs
    [newOffset < text.length] and increments, so the fuel given is enough
    (see [while_back_exit] and [while_fwd_exit]). *)
Definition backCond (t : jsstring) (space : bool) (n : Z) : bool :=
  (0 <? n) && Bool.eqb (test_space t (n - 1)) space.

Definition fwdCond (t : jsstring) (space : bool) (n : Z) : bool :=
  (n <? len t) && Bool.eqb (test_space t n) space.

Definition scanBack (t : jsstring) (space : bool) (n : Z) : Z :=
  while (Z.to_nat n) (backCond t space) Z.pred n.

Definition scanFwd (t : jsstring) (space : bool) (n : Z) : Z :=
  while (Z.to_nat (len t - n)) (fwdCond t space) Z.succ n.

Definition prevWord (c : Cursor) : Cursor :=
  let newOffset := offset c in
  let newOffset := scanBack (text c) true newOffset in
  let newOffset := scanBack (text c) false newOffset in
  mk (text c) (columns c) newOffset.

Definition nextWord (c : Cursor) : Cursor :=
  let newOffset := offset c in
  let newOffset := scanFwd (text c) false newOffset in
  let newOffset := scanFwd (text c) true newOffset in
  mk (text c) (columns c) newOffset.

Definition insert (c : Cursor) (str : jsstring) : Cursor :=
  let newText := slice (text c) 0 (offset c) ++ str ++ slice_from (text c) (offset c) in
  let newOffset := offset c + len str in
  mk newText (columns c) newOffset.

Definition backspace (c : Cursor) : Cursor :=
  if offset c =? 0 then c
  else
    let newText := slice (text c) 0 (offset c - 1) ++ slice_from (text c) (offset c) in
    let newOffset := offset c - 1 in
    mk newText (columns c) newOffset.

Definition del (c : Cursor) : Cursor :=
  if offset c >=? len (text c) then c
  else
    let newText := slice (text c) 0 (offset c) ++ slice_from (text c) (offset c + 1) in
    mk newText (columns c) (offset c).

Definition deleteToLineStart (c : Cursor) : Cursor :=
  let '(lineIndex, _) := getLineColumn c in
  let lineStartOffset := getOffsetFromLineColumn c lineIndex 0 in
  let newText := slice (text c) 0 lineStartOffset ++ slice_from (text c) (offset c) in
  mk newText (columns c) lineStartOffset.

Definition deleteToLineEnd (c : Cursor) : Cursor :=
  let lines := split LF (text c) in
  let '(lineIndex, _) := getLineColumn c in
  let currentLine := get_or lines lineIndex [] in
  let lineEndOffset := getOffsetFromLineColumn c lineIndex (len currentLine) in
  let newText := slice (text c) 0 (offset c) ++ slice_from (text c) lineEndOffset in
  mk newText (columns c) (offset c).

Definition deleteWordBefore (c : Cursor) : Cursor :=
  let prevWordCursor := prevWord c in
  let newText := slice (text c) 0 (offset prevWordCursor) ++ slice_from (text c) (offset c) in
  mk newText (columns c) (offset prevWordCursor).

Definition deleteWordAfter (c : Cursor) : Cursor :=
  let nextWordCursor := nextWord c in
  let newText := slice (text c) 0 (offset c) ++ slice_from (text c) (offset nextWordCursor) in
  mk newText (columns c) (offset c).

(** [render(cursorChar, mask?, invert?)].  [chalk_inverse] stands for
    [chalk.inverse], the default inversion of the chalk package. *)
Definition truthy (s : jsstring) : bool :=
  match s with [] => false | _ :: _ => true end.

Definition render (chalk_inverse : jsstring -> jsstring) (c : Cursor)
    (cursorChar : jsstring) (mask : option jsstring)
    (invert : option (jsstring -> jsstring)) : jsstring :=
  let displayText := text c in
  let displayText :=
    match mask with
    | Some m => if truthy m then repeat m (len (text c)) else displayText
    | None => displayText
    end in
  if truthy cursorChar && (offset c <=? len displayText) then
    let before := slice displayText 0 (offset c) in
    let after := slice_from displayText (offset c) in
    let cursor := match invert with
                  | Some f => f cursorChar
                  | None => chalk_inverse cursorChar
                  end in
    before ++ cursor ++ after
  else displayText.

(** The public operations of the class, as data: those that move the
    caret and those that edit the text. *)
Inductive nav :=
| Left | Right | Up | Down | StartOfLine | EndOfLine | PrevWord | NextWord.

Inductive edit :=
| Insert (str : jsstring) | Backspace | Del
| DeleteToLineStart | DeleteToLineEnd | DeleteWordBefore | DeleteWordAfter.

Inductive op :=
| Nav (n : nav)
| Edit (e : edit).

Definition applyNav (n : nav) (c : Cursor) : Cursor :=
  match n with
  | Left => left c
  | Right => right c
  | Up => up c
  | Down => down c
  | StartOfLine => startOfLine c
  | EndOfLine => endOfLine c
  | PrevWord => prevWord c
  | NextWord => nextWord c
  end.

Definition applyEdit (e : edit) (c : Cursor) : Cursor :=
  match e with
  | Insert str => insert c str
  | Backspace => backspace c
  | Del => del c
  | DeleteToLineStart => deleteToLineStart c
  | DeleteToLineEnd => deleteToLineEnd c
  | DeleteWordBefore => deleteWordBefore c
  | DeleteWordAfter => deleteWordAfter c
  end.

Definition apply (o : op) (c : Cursor) : Cursor :=
  match o with
  | Nav n => applyNav n c
  | Edit e => applyEdit e c
  end.

(** [run ops c] applies the operations of [ops] from left to right. *)
Definition run (ops : list op) (c : Cursor) : Cursor :=
  fold_left (fun acc o => apply o acc) ops c.

(** [backspace()] applied [n] times in a row. *)
Definition backspaces (n : nat) (c : Cursor) : Cursor := Nat.iter n backspace c.

(** The same cursor with another render width. *)
Definition withColumns (w : Z) (c : Cursor) : Cursor := mk (text c) w (offset c).

(** The bounds of the data model. *)
Definition inBounds (c : Cursor) : Prop := 0 <= offset c <= len (text c).

(** The caret is on the first line when no newline comes before it, and
    on the last line when none comes at or after it. *)
Definition onFirstLine (c : Cursor) : Prop :=
  ~ In LF (firstn (Z.to_nat (offset c)) (text c)).

Definition onLastLine (c : Cursor) : Prop :=
  ~ In LF (skipn (Z.to_nat (offset c)) (text c)).

(** Code units of ASCII text, for examples. *)
Definition ascii_hello_world : jsstring :=
  [104; 101; 108; 108; 111; 32; 119; 111; 114; 108; 100]%N.

(** "line1\nline2" and "abc\ndef" *)
Definition ascii_line1_line2 : jsstring :=
  [108; 105; 110; 101; 49; 10; 108; 105; 110; 101; 50]%N.

Definition ascii_abc_def : jsstring := [97; 98; 99; 10; 100; 101; 102]%N.

Definition hello_at_5 : Cursor := mk ascii_hello_world 80 5.
Definition hello_at_11 : Cursor := mk ascii_hello_world 80 11.

End Cursor.

(** ** Timers of the JavaScript runtime

    [setTimeout] arms a timer and returns a fresh handle; [clearTimeout]
    disarms it.  The runtime may run the callback of an armed timer once
    its delay has elapsed, which disarms it. *)

Module Timers.

Record timer := mkTimer { handle : nat; due : Z }.

Record runtime := mkRuntime {
  armed : list timer;
  fresh : nat
}.

Definition boot : runtime := mkRuntime [] O.

Definition setTimeout (now delay : Z) (r : runtime) : nat * runtime :=
  (fresh r, mkRuntime (armed r ++ [mkTimer (fresh r) (now + delay)]) (S (fresh r))).

Definition clearTimeout (h : nat) (r : runtime) : runtime :=
  mkRuntime (filter (fun t => negb (Nat.eqb (handle t) h)) (armed r)) (fresh r).

(** The timer [h] is armed and its delay has elapsed at time [now]. *)
Definition expired (now : Z) (h : nat) (r : runtime) : bool :=
  existsb (fun t => Nat.eqb (handle t) h && (due t <=? now)) (armed r).

Definition isArmed (h : nat) (r : runtime) : bool :=
  existsb (fun t => Nat.eqb (handle t) h) (armed r).

End Timers.

(** ** The hook [useDoublePress] (cli/hooks/useDoublePress.ts) *)

Module DoublePress.
Import Timers.

(** Calls made to the three callbacks given to the hook. *)
Inductive call :=
| OnShowMessage (show : bool)
| OnDoublePress
| OnSinglePress.

Record state := mkState {
  lastPressTime : Z;            (* lastPressTime.current *)
  timeoutRef : option nat;      (* timeoutRef.current *)
  rt : runtime
}.

(** [useRef<number>(0)] and [useRef(null)] *)
Definition init : state := mkState 0 None boot.

(** The function returned by the hook, called at [Date.now() = now]: the
    function reads the clock itself, so [now] is a number of milliseconds
    since the epoch. *)
Definition press (timeout now : Z) (st : state) : state * list call :=
  let timeBetweenPresses := now - lastPressTime st in
  let st :=
    match timeoutRef st with
    | Some h => mkState (lastPressTime st) None (clearTimeout h (rt st))
    | None => st
    end in
  if timeBetweenPresses <? timeout then
    (mkState 0 (timeoutRef st) (rt st), [OnShowMessage false; OnDoublePress])
  else
    let '(h, r) := setTimeout now timeout (rt st) in
    (mkState now (Some h) r, [OnShowMessage true]).

(** The callback given to [setTimeout], run by the runtime for the armed
    timer [h] at time [now]; [None] when the runtime cannot run it. *)
Definition fire (now : Z) (h : nat) (st : state) : option (state * list call) :=
  if expired now h (rt st) then
    Some (mkState (lastPressTime st) None (clearTimeout h (rt st)),
          [OnShowMessage false; OnSinglePress])
  else None.

Inductive event :=
| Press (now : Z)
| Fire (now : Z) (h : nat).

(** One event; an event the runtime cannot produce leaves the state as
    it is. *)
Definition step (timeout : Z) (e : event) (st : state) : state * list call :=
  match e with
  | Press now => press timeout now st
  | Fire now h => match fire now h st with
                  | Some r => r
                  | None => (st, [])
                  end
  end.

Fixpoint run (timeout : Z) (es : list event) (st : state) : state * list call :=
  match es with
  | [] => (st, [])
  | e :: es' =>
      let '(st1, l1) := step timeout e st in
      let '(st2, l2) := run timeout es' st1 in
      (st2, l1 ++ l2)
  end.

(** Timer callbacks the runtime attempts, as events. *)
Definition fires (l : list (Z * nat)) : list event :=
  map (fun '(now, h) => Fire now h) l.

(** States the hook can be in: those reached from [init] by events. *)
Inductive reachable (timeout : Z) : state -> Prop :=
| reach_init : reachable timeout init
| reach_step : forall st e, reachable timeout st ->
    reachable timeout (fst (step timeout e st)).

(** At most the timer held in [timeoutRef] is armed. *)
Definition tidy (st : state) : Prop :=
  match timeoutRef st with
  | Some h => exists d, armed (rt st) = [mkTimer h d]
  | None => armed (rt st) = []
  end.

End DoublePress.

(** ** The [Key] record of the host renderer (ink) *)

Module Key.

Record Key := mk {
  upArrow : bool;
  downArrow : bool;
  leftArrow : bool;
  rightArrow : bool;
  pageDown : bool;
  pageUp : bool;
  return_ : bool;
  escape : bool;
  ctrl : bool;
  shift : bool;
  tab : bool;
  backspace : bool;
  delete : bool;
  meta : bool
}.

Definition none : Key :=
  mk false false false false false false false false false false false false false false.

(** [{ ...key, backspace: true }] *)
Definition withBackspace (k : Key) : Key :=
  mk (upArrow k) (downArrow k) (leftArrow k) (rightArrow k) (pageDown k) (pageUp k)
     (return_ k) (escape k) (ctrl k) (shift k) (tab k) true (delete k) (meta k).

End Key.

(** ** The hook [useTextInput] (cli/hooks/useTextInput.ts) *)

Module Dispatch.
Import JS.
Import Key.

(** Message texts handed to [onMessage]. *)
Inductive message :=
| CLIPBOARD_ERROR_MESSAGE.

(** Calls the hook makes to its host, to the runtime and to its three
    [useDoublePress] instances, in the order they are made. *)
Inductive effect :=
| SetOffset (o : Z)                               (* onOffsetChange(o) *)
| OnChange (t : jsstring)
| OnSubmit (t : jsstring)
| OnHistoryUp
| OnHistoryDown
| OnMessage (show : bool) (msg : option message)
| OnImagePaste (base64Image : jsstring)
| HandleCtrlC                                     (* press of the Ctrl-C debouncer *)
| HandleEscapeDouble                              (* press of the Escape debouncer *)
| HandleEmptyCtrlD                                (* press of the Ctrl-D debouncer *)
| ClearImagePasteErrorTimeout (h : nat)           (* clearTimeout(h); set state to null *)
| ArmImagePasteErrorTimeout.                      (* setTimeout(..., 4000) kept in state *)

(** Effectful computations: the effects made, then the value. *)
Definition M (A : Type) : Type := list effect * A.

Definition ret {A : Type} (a : A) : M A := ([], a).

Definition bind {A B : Type} (m : M A) (k : A -> M B) : M B :=
  let '(l1, a) := m in let '(l2, b) := k a in (l1 ++ l2, b).

Definition emit (e : effect) : M unit := ([e], tt).

Notation "x <- m ;; k" := (bind m (fun x => k))
  (at level 61, m at next level, right associativity).
Notation "m ;;; k" := (bind m (fun _ => k))
  (at level 61, right associativity).

(** What a render of the hook closes over. *)
Record props := mkProps {
  value : jsstring;                                (* originalValue *)
  columns : Z;
  externalOffset : Z;
  multiline : bool;
  disableCursorMovementForUpDownKeys : bool;
  imagePasteErrorTimeout : option nat;             (* the useState cell *)
  clipboardImage : option jsstring;                (* what getImageFromClipboard() returns *)
  platformDarwin : bool                            (* process.platform === 'darwin' *)
}.

Definition MaybeCursor := option Cursor.Cursor.
Definition InputHandler := jsstring -> M MaybeCursor.

(** [new Map(input_map).get(input)]: of two entries with one key the
    later one is kept. *)
Fixpoint mapGet {V : Type} (input_map : list (jsstring * V)) (k : jsstring) : option V :=
  match input_map with
  | [] => None
  | (k', v) :: rest =>
      match mapGet rest k with
      | Some v' => Some v'
      | None => if eqb k' k then Some v else None
      end
  end.

Definition mapInput (input_map : list (jsstring * InputHandler)) : InputHandler :=
  fun input =>
    let handler := match mapGet input_map input with
                   | Some h => h
                   | None => fun _ => ret None
                   end in
    handler input.

Section Render.

Variable p : props.

Definition cursor : Cursor.Cursor :=
  Cursor.fromText (value p) (columns p) (externalOffset p).

Definition maybeClearImagePasteErrorTimeout : M unit :=
  match imagePasteErrorTimeout p with
  | None => ret tt
  | Some h => emit (ClearImagePasteErrorTimeout h) ;;; emit (OnMessage false None)
  end.

Definition clear : M Cursor.Cursor :=
  emit (SetOffset 0) ;;; ret (Cursor.fromText [] (columns p) 0).

Definition handleCtrlD : InputHandler := fun _ =>
  maybeClearImagePasteErrorTimeout ;;;
  if eqb (Cursor.text cursor) [] then
    emit HandleEmptyCtrlD ;;; ret (Some cursor)
  else ret (Some (Cursor.del cursor)).

Definition tryImagePaste : InputHandler := fun _ =>
  match clipboardImage p with
  | None =>
      if negb (platformDarwin p) then ret (Some cursor)
      else
        emit (OnMessage true (Some CLIPBOARD_ERROR_MESSAGE)) ;;;
        maybeClearImagePasteErrorTimeout ;;;
        emit ArmImagePasteErrorTimeout ;;;
        ret (Some cursor)
  | Some base64Image =>
      emit (OnImagePaste base64Image) ;;; ret (Some cursor)
  end.

Definition upOrHistoryUp : InputHandler := fun _ =>
  if disableCursorMovementForUpDownKeys p then
    emit OnHistoryUp ;;; ret (Some cursor)
  else
    let cursorUp := Cursor.up cursor in
    (if Cursor.equals cursorUp cursor then emit OnHistoryUp else ret tt) ;;;
    ret (Some cursorUp).

Definition downOrHistoryDown : InputHandler := fun _ =>
  if disableCursorMovementForUpDownKeys p then
    emit OnHistoryDown ;;; ret (Some cursor)
  else
    let cursorDown := Cursor.down cursor in
    (if Cursor.equals cursorDown cursor then emit OnHistoryDown else ret tt) ;;;
    ret (Some cursorDown).

(** Letters of the two chord tables. *)
Definition chr (n : N) : jsstring := [n].

Definition handleCtrl : InputHandler :=
  mapInput
    [ (chr 97, fun _ => ret (Some (Cursor.startOfLine cursor)));          (* a *)
      (chr 98, fun _ => ret (Some (Cursor.left cursor)));                 (* b *)
      (chr 99, fun _ => emit HandleCtrlC ;;; ret (Some cursor));          (* c *)
      (chr 100, handleCtrlD);                                             (* d *)
      (chr 101, fun _ => ret (Some (Cursor.endOfLine cursor)));           (* e *)
      (chr 102, fun _ => ret (Some (Cursor.right cursor)));               (* f *)
      (chr 104, fun _ => maybeClearImagePasteErrorTimeout ;;;
                         ret (Some (Cursor.backspace cursor)));           (* h *)
      (chr 107, fun _ => ret (Some (Cursor.deleteToLineEnd cursor)));     (* k *)
      (chr 108, fun _ => c <- clear ;; ret (Some c));                     (* l *)
      (chr 110, fun _ => downOrHistoryDown []);                           (* n *)
      (chr 112, fun _ => upOrHistoryUp []);                               (* p *)
      (chr 117, fun _ => ret (Some (Cursor.deleteToLineStart cursor)));   (* u *)
      (chr 118, tryImagePaste);                                           (* v *)
      (chr 119, fun _ => ret (Some (Cursor.deleteWordBefore cursor))) ].  (* w *)

Definition handleMeta : InputHandler :=
  mapInput
    [ (chr 98, fun _ => ret (Some (Cursor.prevWord cursor)));             (* b *)
      (chr 102, fun _ => ret (Some (Cursor.nextWord cursor)));            (* f *)
      (chr 100, fun _ => ret (Some (Cursor.deleteWordAfter cursor))) ].   (* d *)

Definition handleEnter (key : Key) : M MaybeCursor :=
  if multiline p && (0 <? Cursor.offset cursor)
     && match get (Cursor.text cursor) (Cursor.offset cursor - 1) with
        | Some c => N.eqb c BACKSLASH
        | None => false
        end
  then ret (Some (Cursor.insert (Cursor.backspace cursor) [LF]))
  else if meta key then ret (Some (Cursor.insert cursor [LF]))
  else emit (OnSubmit (value p)) ;;; ret None.

(** The literals tested by name in the sources. *)
Definition isBackspaceLiteral (input : jsstring) : bool :=
  eqb input [BS] || eqb input [DEL] || eqb input [BS].

Definition HOME1 : jsstring := [ESC; 91; 72]%N.         (* ESC [ H *)
Definition HOME2 : jsstring := [ESC; 91; 49; 126]%N.    (* ESC [ 1 ~ *)
Definition END1 : jsstring := [ESC; 91; 70]%N.          (* ESC [ F *)
Definition END2 : jsstring := [ESC; 91; 52; 126]%N.     (* ESC [ 4 ~ *)

(** The handler [mapKey] returns when no flag of the key matches. *)
Definition fallback : InputHandler := fun input =>
  if eqb input HOME1 || eqb input HOME2 then ret (Some (Cursor.startOfLine cursor))
  else if eqb input END1 || eqb input END2 then ret (Some (Cursor.endOfLine cursor))
  else if isBackspaceLiteral input then
    maybeClearImagePasteErrorTimeout ;;; ret (Some (Cursor.backspace cursor))
  else ret (Some (Cursor.insert cursor (replace_cr input))).

(** [mapKey(key)]: the effects made while choosing, and the handler. *)
Definition mapKey (key : Key) : M InputHandler :=
  if backspace key || delete key then
    maybeClearImagePasteErrorTimeout ;;; ret (fun _ => ret (Some (Cursor.backspace cursor)))
  else if return_ key then ret (fun _ => handleEnter key)
  else if escape key then ret (fun _ => emit HandleEscapeDouble ;;; ret (Some cursor))
  else if leftArrow key && (ctrl key || meta key) then
    ret (fun _ => ret (Some (Cursor.prevWord cursor)))
  else if rightArrow key && (ctrl key || meta key) then
    ret (fun _ => ret (Some (Cursor.nextWord cursor)))
  else if ctrl key then ret handleCtrl
  else if pageDown key then ret (fun _ => ret (Some (Cursor.endOfLine cursor)))
  else if pageUp key then ret (fun _ => ret (Some (Cursor.startOfLine cursor)))
  else if meta key then ret handleMeta
  else if tab key then ret (fun _ => ret None)
  else if upArrow key then ret upOrHistoryUp
  else if downArrow key then ret downOrHistoryDown
  else if leftArrow key then ret (fun _ => ret (Some (Cursor.left cursor)))
  else if rightArrow key then ret (fun _ => ret (Some (Cursor.right cursor)))
  else ret fallback.

(** The two-level change check that ends both paths of [onInput]. *)
Definition commit (nextCursor : Cursor.Cursor) : M unit :=
  if negb (Cursor.equals cursor nextCursor) then
    emit (SetOffset (Cursor.offset nextCursor)) ;;;
    if negb (eqb (Cursor.text cursor) (Cursor.text nextCursor))
    then emit (OnChange (Cursor.text nextCursor))
    else ret tt
  else ret tt.

Definition onInput (input : jsstring) (key : Key) : M unit :=
  if backspace key || delete key || isBackspaceLiteral input then
    let nextCursor := Cursor.backspace cursor in
    commit nextCursor
  else
    h <- mapKey key ;;
    nextCursor <- h input ;;
    match nextCursor with
    | Some nc => commit nc
    | None => ret tt
    end.

End Render.

(** No flag tested before the arrow cases of [mapKey] is set. *)
Definition noModifier (key : Key) : bool :=
  negb (backspace key || delete key || return_ key || escape key || ctrl key
        || pageDown key || pageUp key || meta key || tab key).

Definition plainUp (key : Key) : bool := noModifier key && upArrow key.

Definition plainDown (key : Key) : bool :=
  noModifier key && negb (upArrow key) && downArrow key.

(** The keys the host sends for the bare arrows, and an example render. *)
Definition upKey : Key :=
  Key.mk true false false false false false false false false false false false false false.

Definition downKey : Key :=
  Key.mk false true false false false false false false false false false false false false.

Definition hello_props : props :=
  mkProps Cursor.ascii_hello_world 80 5 false false None None true.

Definition abc_def_props : props :=
  mkProps Cursor.ascii_abc_def 80 6 false false None None true.

(** The key the host sends for ctrl+a. *)
Definition ctrlKey : Key :=
  Key.mk false false false false false false false false true false false false false false.

End Dispatch.

(** ** The component [TextInput]: paste detection *)

Module Paste.
Import JS.
Import Timers.

Record pasteState := mkPaste {
  chunks : list jsstring;
  timeoutId : option nat;
  totalLength : Z
}.

(** The [useState] cell, the runtime that holds its timer, and the
    [pasteState] of the render whose [wrappedOnInput] is subscribed to the
    input: the value its closure reads.  The updaters given to
    [setPasteState] receive the cell, in the order of the calls. *)
Record state := mkState {
  paste : pasteState;              (* the cell *)
  rt : runtime;
  rendered : pasteState            (* [pasteState] in the subscribed closure *)
}.

Definition init : state := mkState (mkPaste [] None 0) boot (mkPaste [] None 0).

Inductive effect :=
| OnInput (input : jsstring) (key : Key.Key)     (* onInput of useTextInput *)
| OnPaste (pastedText : jsstring).

(** [resetPasteTimeout(currentTimeoutId)]: the handle of the new timer. *)
Definition resetPasteTimeout (now : Z) (currentTimeoutId : option nat)
    (r : runtime) : nat * runtime :=
  let r := match currentTimeoutId with
           | Some h => clearTimeout h r
           | None => r
           end in
  setTimeout now 50 r.

(** [chunks.reduce((sum, chunk) => sum + chunk.length, 0)] *)
Definition sumLengths (cs : list jsstring) : Z :=
  fold_left (fun sum chunk => sum + len chunk) cs 0.

Definition signalsBackspace (input : jsstring) (key : Key.Key) : bool :=
  Key.backspace key || Key.delete key
  || eqb input [BS] || eqb input [DEL] || eqb input [BS].

Definition looksPasted (input : jsstring) (ps : pasteState) : bool :=
  (20 <? len input)
  || match timeoutId ps with Some _ => true | None => false end
  || startsWith input [QUOTE; SLASH].

(** [wrappedOnInput(input, key)] of the subscribed render, called at time
    [now].  The test reads [pasteState.timeoutId] of that render; the
    updater reads the cell. *)
Definition wrappedOnInput (now : Z) (input : jsstring) (key : Key.Key)
    (st : state) : state * list effect :=
  if signalsBackspace input key then
    (st, [OnInput input (Key.withBackspace key)])
  else if looksPasted input (rendered st) then
    let '(h, r) := resetPasteTimeout now (timeoutId (paste st)) (rt st) in
    (mkState (mkPaste (chunks (paste st) ++ [input])
                      (Some h)
                      (sumLengths (chunks (paste st)) + len input))
             r
             (rendered st),
     [])
  else
    (st, [OnInput input key]).

(** The callback of the quiet-period timer [h], run by the runtime at
    time [now]; [None] when the runtime cannot run it. *)
Definition fire (now : Z) (h : nat) (st : state) : option (state * list effect) :=
  if expired now h (rt st) then
    let pastedText := join (chunks (paste st)) in
    Some (mkState (mkPaste [] None 0) (clearTimeout h (rt st)) (rendered st),
          [OnPaste pastedText])
  else None.

(** The component renders again and subscribes the new [wrappedOnInput],
    whose closure holds the cell as it is now. *)
Definition render (st : state) : state := mkState (paste st) (rt st) (paste st).

Inductive event :=
| Input (now : Z) (input : jsstring) (key : Key.Key)
| Fire (now : Z) (h : nat)
| Render.

Definition step (e : event) (st : state) : state * list effect :=
  match e with
  | Input now input key => wrappedOnInput now input key st
  | Fire now h => match fire now h st with
                  | Some r => r
                  | None => (st, [])
                  end
  | Render => (render st, [])
  end.

Fixpoint run (es : list event) (st : state) : state * list effect :=
  match es with
  | [] => (st, [])
  | e :: es' =>
      let '(st1, l1) := step e st in
      let '(st2, l2) := run es' st1 in
      (st2, l1 ++ l2)
  end.

Inductive reachable : state -> Prop :=
| reach_init : reachable init
| reach_step : forall st e, reachable st -> reachable (fst (step e st)).

(** The buffer is open exactly while its one timer is armed. *)
Definition tidy (st : state) : Prop :=
  match timeoutId (paste st) with
  | Some h => (exists d, armed (rt st) = [mkTimer h d]) /\ chunks (paste st) <> []
  | None => armed (rt st) = [] /\ chunks (paste st) = []
  end.





(** A chunk of 25 code units, for examples. *)
Definition chunk25 : jsstring := repeat_nat [120%N] 25.




End Paste.

(** ** Lines of a text

    [lines.join('\n')], the inverse of [text.split('\n')], and the offset
    at which a line starts: what the loop of [getOffsetFromLineColumn]
    adds up. *)

Module Lines.
Import JS.

(** [lines.join(sep)] for a separator of one code unit. *)
Fixpoint joinWith (sep : code_unit) (lines : list jsstring) : jsstring :=
  match lines with
  | [] => []
  | [l] => l
  | l :: rest => l ++ sep :: joinWith sep rest
  end.

(** The lines before a line, each with its separator. *)
Definition before (sep : code_unit) (lines : list jsstring) : jsstring :=
  concat (map (fun l => l ++ [sep]) lines).

(** The lines after a line, each with its separator. *)
Definition after (sep : code_unit) (lines : list jsstring) : jsstring :=
  concat (map (fun l => sep :: l) lines).

(** The caret of [c] sits in the line [x ++ y], after [x] and before [y],
    with the lines [A] above it and the lines [B] below it. *)
Definition located (c : Cursor.Cursor) (A : list jsstring) (x y : jsstring)
    (B : list jsstring) : Prop :=
  Cursor.text c = before LF A ++ (x ++ y) ++ after LF B
  /\ Cursor.offset c = len (before LF A) + len x
  /\ Forall (fun l => ~ In LF l) (A ++ (x ++ y) :: B).

(** Cursors in the text of two lines "line1", "line2". *)
Definition line1_at_3 : Cursor.Cursor := Cursor.mk Cursor.ascii_line1_line2 80 3.
Definition line2_at_3 : Cursor.Cursor := Cursor.mk Cursor.ascii_line1_line2 80 9.

End Lines.

(** ** The three gestures of [useTextInput]

    [handleCtrlC], [handleEscapeDouble] and [handleEmptyCtrlD]: one
    [useDoublePress] each, with the default timeout and with callbacks
    that close over the render they were made in. *)

Module Gestures.
Import JS Timers Dispatch.

Inductive site := CtrlC | Escape | EmptyCtrlD.

(** The default [timeout] of [useDoublePress]. *)
Definition TIMEOUT : Z := 800.

(** Calls the callbacks make to the host. *)
Inductive hostCall :=
| Plain (e : Dispatch.effect)          (* a call the dispatcher makes too *)
| OnExit
| OnExitMessage (show : bool) (s : site)   (* key 'Ctrl-C' or 'Ctrl-D' *)
| OnEscapeMessage (show : bool)        (* 'Press Escape again to clear' *)
| OnHistoryReset.

Definition plain (m : M unit) : list hostCall := map Plain (fst m).

(** [!!originalValue] *)
Definition hasValue (p : props) : bool := Cursor.truthy (value p).

(** The first argument given to [useDoublePress]. *)
Definition onShowMessage (s : site) (p : props) (show : bool) : list hostCall :=
  match s with
  | CtrlC =>
      plain (maybeClearImagePasteErrorTimeout p) ++ [OnExitMessage show CtrlC]
  | Escape =>
      plain (maybeClearImagePasteErrorTimeout p)
      ++ [OnEscapeMessage (hasValue p && show)]
  | EmptyCtrlD => [OnExitMessage show EmptyCtrlD]
  end.

(** The second argument. *)
Definition onDoublePress (s : site) (p : props) : list hostCall :=
  match s with
  | CtrlC => [OnExit]
  | Escape =>
      if hasValue p then [Plain (OnChange []); Plain (SetOffset 0)] else []
  | EmptyCtrlD => [OnExit]
  end.

(** The third argument, given at the Ctrl-C site only. *)
Definition onSinglePress (s : site) (p : props) : list hostCall :=
  match s with
  | CtrlC =>
      if hasValue p
      then [Plain (OnChange []); Plain (SetOffset 0); OnHistoryReset]
      else []
  | Escape => []
  | EmptyCtrlD => []
  end.

Definition callback (s : site) (p : props) (c : DoublePress.call) : list hostCall :=
  match c with
  | DoublePress.OnShowMessage show => onShowMessage s p show
  | DoublePress.OnDoublePress => onDoublePress s p
  | DoublePress.OnSinglePress => onSinglePress s p
  end.

(** The hook's refs, and the render whose callbacks the armed timer
    holds. *)
Record state := mkState {
  machine : DoublePress.state;
  held : option props
}.

Definition init : state := mkState DoublePress.init None.

(** The gesture is pressed at time [now] in the render of [p]. *)
Definition press (s : site) (now : Z) (p : props) (st : state)
    : state * list hostCall :=
  let '(m, calls) := DoublePress.press TIMEOUT now (machine st) in
  (mkState m (match DoublePress.timeoutRef m with
              | Some _ => Some p
              | None => None
              end),
   flat_map (callback s p) calls).

(** The runtime runs the timer [h] at time [now]. *)
Definition fire (s : site) (now : Z) (h : nat) (st : state)
    : option (state * list hostCall) :=
  match held st with
  | Some p =>
      match DoublePress.fire now h (machine st) with
      | Some (m, calls) => Some (mkState m None, flat_map (callback s p) calls)
      | None => None
      end
  | None => None
  end.

Inductive event :=
| Press (now : Z) (p : props)
| Fire (now : Z) (h : nat).

Definition step (s : site) (e : event) (st : state) : state * list hostCall :=
  match e with
  | Press now p => press s now p st
  | Fire now h => match fire s now h st with
                  | Some r => r
                  | None => (st, [])
                  end
  end.

Inductive reachable (s : site) : state -> Prop :=
| reach_init : reachable s init
| reach_step : forall st e, reachable s st -> reachable s (fst (step s e st)).

(** The call changes the text the host holds. *)
Definition changesText (c : hostCall) : bool :=
  match c with
  | Plain (OnChange _) => true
  | _ => false
  end.

Definition isExit (c : hostCall) : bool :=
  match c with
  | OnExit => true
  | _ => false
  end.

End Gestures.

(** ** The host of the text input

    The application keeps the pair the hook is rendered from, [feedback]
    and [cursorOffset] of its state: [onChange] stores the text
    (handleInputChange), [onChangeCursorOffset] the offset, and [onSubmit]
    is handleSubmit (cli/app.tsx). *)

Module Host.
Import JS Dispatch.







Definition writesHost (e : effect) : bool :=
  match e with
  | SetOffset _ | OnChange _ => true
  | _ => false
  end.









(** No call of [l] writes to the host. *)
Definition silent (l : list effect) : Prop :=
  Forall (fun e => writesHost e = false) l.

(** What a handler may do: make calls that do not write to the host and
    return a cursor within its bounds or nothing; or, as [clear] does, set
    the offset to 0 and return the empty cursor. *)
Definition handlerOk (p : props) (res : M MaybeCursor) : Prop :=
  match res with
  | (l, None) => silent l
  | (l, Some nc) =>
      Cursor.inBounds nc
      /\ (silent l
          \/ (l = [SetOffset 0] /\ nc = Cursor.fromText [] (columns p) 0))
  end.

Definition isOnChange (e : effect) : bool :=
  match e with
  | OnChange _ => true
  | _ => false
  end.

(** The letters of the control-chord table. *)
Definition ctrlLetters : list jsstring :=
  map chr [97; 98; 99; 100; 101; 102; 104; 107; 108; 110; 112; 117; 118; 119]%N.

(** A control chord that reaches the table: ctrl is held and no flag
    tested before it in [onInput] and [mapKey] is set. *)
Definition reachesCtrlTable (key : Key.Key) : bool :=
  Key.ctrl key
  && negb (Key.backspace key || Key.delete key || Key.return_ key
           || Key.escape key || Key.leftArrow key || Key.rightArrow key).

(** A key with no flag set that [onInput] or [mapKey] tests (shift is not
    tested). *)
Definition noFlag (key : Key.Key) : bool :=
  noModifier key
  && negb (Key.upArrow key || Key.downArrow key || Key.leftArrow key
           || Key.rightArrow key).

(** The key is Enter, and neither the backspace nor the delete flag is
    set. *)
Definition isEnter (key : Key.Key) : bool :=
  Key.return_ key && negb (Key.backspace key || Key.delete key).

(** The test of [handleEnter] for a line continuation. *)
Definition continuesLine (p : props) : bool :=
  multiline p && (0 <? Cursor.offset (cursor p))
  && match get (Cursor.text (cursor p)) (Cursor.offset (cursor p) - 1) with
     | Some c => N.eqb c BACKSLASH
     | None => false
     end.

(** "ab\" with the caret at its end, in a multi-line input. *)
Definition continued_props : props :=
  mkProps [97; 98; 92]%N 80 3 true false None None true.

Definition hello_props_ml : props :=
  mkProps Cursor.ascii_hello_world 80 5 true false None None true.

Definition returnKey : Key.Key :=
  Key.mk false false false false false false true false false false false false false false.




End Host.

(** ** What the paste coalescer delivers *)

Module PasteLog.
Import JS Paste.

(** The text an event of the coalescer hands on. *)
Definition delivered (e : effect) : jsstring :=
  match e with
  | OnInput input _ => input
  | OnPaste pastedText => pastedText
  end.

(** The chunks that arrive in a run of events. *)
Definition inputsOf (es : list event) : list jsstring :=
  flat_map (fun e => match e with
                     | Input _ input _ => [input]
                     | Fire _ _ => []
                     | Render => []
                     end) es.

(** No arrival of the run signals backspace. *)
Definition quietEvent (e : event) : Prop :=
  match e with
  | Input _ input key => signalsBackspace input key = false
  | Fire _ _ => True
  | Render => True
  end.

(** The subscribed handler knows of the open buffer: its render saw a
    timer when the cell holds one. *)
Definition aware (st : state) : Prop :=
  timeoutId (paste st) <> None -> timeoutId (rendered st) <> None.

(** Every chunk of the run [es] from [st] arrives at a handler that knows
    of the open buffer. *)
Fixpoint awareRun (es : list event) (st : state) : Prop :=
  match es with
  | [] => True
  | e :: es' =>
      match e with
      | Input _ _ _ => aware st
      | _ => True
      end
      /\ awareRun es' (fst (step e st))
  end.

(** A chunk of 25, a render, two chunks of five code units 10 ms apart,
    the timer, and one more chunk. *)
Definition burst : list event :=
  [Input 0 chunk25 Key.none;
   Render;
   Input 10 [97; 98; 99; 100; 101]%N Key.none;
   Input 20 [102; 103; 104; 105; 106]%N Key.none;
   Fire 70 2%nat;
   Input 80 [107%N] Key.none].

(** The same chunks with no render between the first two: the second
    arrives at the handler of the first render. *)
Definition staleBurst : list event :=
  [Input 0 chunk25 Key.none;
   Input 10 [97; 98; 99; 100; 101]%N Key.none;
   Fire 70 0%nat].

End PasteLog.

(** ** The timing of the gesture debouncer *)

Module DoublePressLog.
Import Timers DoublePress.

(** The timer held in [timeoutRef] is the one armed timer, and it is due
    [timeout] after the last press. *)
Definition timed (timeout : Z) (st : state) : Prop :=
  match timeoutRef st with
  | Some h => armed (rt st) = [mkTimer h (lastPressTime st + timeout)]
  | None => armed (rt st) = []
  end.

End DoublePressLog.

(** ** cli/app.tsx: the text kept for a paste

    The string [processedText] that [handlePaste] computes from the text
    the coalescer hands it. *)

Module App.
Import JS.

Definition SPACE : code_unit := 32%N.          (* ' ' *)

(** The two code units of the separator ['\\n']: a backslash and an n. *)
Definition ESCAPED_NEWLINE : jsstring := [BACKSLASH; 110%N].

(** [s.trimStart()] and [s.trimEnd()]; [s.trim()] is both. *)
Fixpoint trimStart (s : jsstring) : jsstring :=
  match s with
  | [] => []
  | c :: rest => if is_whitespace c then trimStart rest else s
  end.

Definition trimEnd (s : jsstring) : jsstring := rev (trimStart (rev s)).

Definition trim (s : jsstring) : jsstring := trimEnd (trimStart s).

(** Put [c] in front of the first line. *)
Definition consLine (c : code_unit) (lines : list jsstring) : list jsstring :=
  match lines with
  | [] => [[c]]
  | l :: ls => (c :: l) :: ls
  end.

(** [s.split(/\r?\n/)]: a line ends at each newline, and the carriage
    return right before a newline goes with it. *)
Fixpoint splitLines (s : jsstring) : list jsstring :=
  match s with
  | [] => [[]]
  | c :: rest =>
      match rest with
      | d :: rest' =>
          if N.eqb c CR && N.eqb d LF then [] :: splitLines rest'
          else if N.eqb c LF then [] :: splitLines rest
          else consLine c (splitLines rest)
      | [] =>
          if N.eqb c LF then [] :: splitLines rest
          else consLine c (splitLines rest)
      end
  end.

(** [line.replace(/\s+/g, ' ')]: each run of whitespace becomes one
    space; [inRun] tells that the code unit before was whitespace. *)
Fixpoint collapseFrom (inRun : bool) (s : jsstring) : jsstring :=
  match s with
  | [] => []
  | c :: rest =>
      if is_whitespace c then
        if inRun then collapseFrom true rest else SPACE :: collapseFrom true rest
      else c :: collapseFrom false rest
  end.

Definition collapseSpaces (s : jsstring) : jsstring := collapseFrom false s.

(** [lines.join(sep)] *)
Fixpoint joinStr (sep : jsstring) (lines : list jsstring) : jsstring :=
  match lines with
  | [] => []
  | [l] => l
  | l :: rest => l ++ sep ++ joinStr sep rest
  end.

(** [line.length > 0] *)
Definition nonEmpty (line : jsstring) : bool :=
  match line with [] => false | _ :: _ => true end.

Definition processedText (text : jsstring) : jsstring :=
  joinStr ESCAPED_NEWLINE
    (map collapseSpaces
       (filter nonEmpty
          (map trim (splitLines (trim text))))).

(** Whitespace in a string is at most the plain space. *)
Definition onlySpaces (s : jsstring) : Prop :=
  Forall (fun c => is_whitespace c = true -> c = SPACE) s.

(** A string that does not start (end) with whitespace. *)
Definition startsTight (s : jsstring) : bool :=
  match s with
  | [] => true
  | c :: _ => negb (is_whitespace c)
  end.

Definition endsTight (s : jsstring) : bool := startsTight (rev s).

(** A string that trimming and collapsing leave as it is. *)
Definition tight (s : jsstring) : Prop :=
  startsTight s = true /\ endsTight s = true /\ collapseSpaces s = s.

(** " a  b \r\n\tc " *)
Definition pasted_example : jsstring :=
  [32; 97; 32; 32; 98; 32; 13; 10; 9; 99; 32]%N.

End App.

(** ** The command line of the client: [parseArgs]

    [Number.parseInt(s, 10)] is modelled on the digits it reads; a port
    this large that a double would round it is out of range either way. *)

Module Cli.
Import JS.

Definition MINUS : code_unit := 45%N.        (* '-' *)
Definition PLUS : code_unit := 43%N.         (* '+' *)

(** "--port" *)
Definition PORT_FLAG : jsstring := [45; 45; 112; 111; 114; 116]%N.

Definition isDigit (c : code_unit) : bool := (48 <=? c)%N && (c <=? 57)%N.

(** The value of the longest prefix of decimal digits, read after the
    digits of value [acc]; [None] when [seen] is false and no digit
    comes. *)
Fixpoint digitsFrom (seen : bool) (acc : Z) (s : jsstring) : option Z :=
  match s with
  | c :: rest =>
      if isDigit c then digitsFrom true (10 * acc + (Z.of_N c - 48)) rest
      else if seen then Some acc else None
  | [] => if seen then Some acc else None
  end.

(** [Number.parseInt(s, 10)]; [None] stands for NaN. *)
Definition parseInt10 (s : jsstring) : option Z :=
  match App.trimStart s with
  | c :: rest =>
      if N.eqb c MINUS then option_map Z.opp (digitsFrom false 0 rest)
      else if N.eqb c PLUS then digitsFrom false 0 rest
      else digitsFrom false 0 (c :: rest)
  | [] => None
  end.

(** [!Number.isNaN(x) && x > 0 && x <= 65535] *)
Definition validPort (x : option Z) : option Z :=
  match x with
  | Some n => if (0 <? n) && (n <=? 65535) then Some n else None
  | None => None
  end.

(** The [for] loop over [process.argv.slice(2)]; [args] holds
    [args[i..]], [port] the variable of that name. *)
Fixpoint argsLoop (args : list jsstring) (port : option Z) : option Z :=
  match args with
  | [] => port
  | arg :: rest =>
      let port :=
        match rest with
        | next :: _ =>
            if eqb arg PORT_FLAG then
              match validPort (parseInt10 next) with
              | Some portArg => Some portArg
              | None => port
              end
            else port
        | [] => port
        end in
      argsLoop rest port
  end.

(** [parseArgs()], given the arguments and the content of the file
    .mcp-feedback-port ([None] when it is missing or cannot be read). *)
Definition parseArgs (args : list jsstring) (portFile : option jsstring)
    : option Z :=
  match argsLoop args None with
  | Some port => Some port
  | None =>
      match portFile with
      | Some content => validPort (parseInt10 (App.trim content))
      | None => None
      end
  end.

(** "8080", "abc" and "70000" *)
Definition ascii_8080 : jsstring := [56; 48; 56; 48]%N.
Definition ascii_abc : jsstring := [97; 98; 99]%N.
Definition ascii_70000 : jsstring := [55; 48; 48; 48; 48]%N.

End Cli.

(** * Properties *)

(** ** Facts about the string primitives *)

Module JSFacts.
Import JS.

Lemma len_nonneg {A : Type} (s : list A) : 0 <= len s.
Proof. unfold len. lia. Qed.

Lemma len_app {A : Type} (a b : list A) : len (a ++ b) = len a + len b.
Proof. unfold len. rewrite length_app. lia. Qed.

Lemma len_nil {A : Type} : len (@nil A) = 0.
Proof. reflexivity. Qed.

Lemma rel_index_id (n k : Z) : 0 <= k <= n -> rel_index n k = k.
Proof.
  intros H. unfold rel_index.
  destruct (Z.ltb_spec k 0); lia.
Qed.

Lemma slice_prefix (s : jsstring) (k : Z) :
  0 <= k <= len s -> slice s 0 k = firstn (Z.to_nat k) s.
Proof.
  intros H. unfold slice.
  rewrite (rel_index_id (len s) 0) by (pose proof (len_nonneg s); lia).
  rewrite (rel_index_id (len s) k) by assumption.
  simpl. now rewrite Z.sub_0_r.
Qed.

Lemma slice_from_suffix (s : jsstring) (k : Z) :
  0 <= k <= len s -> slice_from s k = skipn (Z.to_nat k) s.
Proof.
  intros H. unfold slice_from.
  rewrite rel_index_id by assumption.
  apply firstn_all2. rewrite length_skipn. unfold len in *. lia.
Qed.

Lemma slice_between (s : jsstring) (a b : Z) :
  0 <= a <= b -> b <= len s ->
  slice s a b = firstn (Z.to_nat (b - a)) (skipn (Z.to_nat a) s).
Proof.
  intros Ha Hb. unfold slice.
  now rewrite !rel_index_id by lia.
Qed.

Lemma len_firstn (s : jsstring) (k : Z) :
  0 <= k <= len s -> len (firstn (Z.to_nat k) s) = k.
Proof.
  intros H. unfold len in *. rewrite length_firstn. lia.
Qed.

Lemma len_skipn (s : jsstring) (k : Z) :
  0 <= k <= len s -> len (skipn (Z.to_nat k) s) = len s - k.
Proof.
  intros H. unfold len in *. rewrite length_skipn. lia.
Qed.

(** A string is its prefix up to [a], the stretch from [a] to [b], and
    its suffix from [b]. *)
Lemma three_parts (s : jsstring) (a b : Z) :
  0 <= a <= b -> b <= len s ->
  s = firstn (Z.to_nat a) s ++ slice s a b ++ skipn (Z.to_nat b) s.
Proof.
  intros Ha Hb. rewrite slice_between by assumption.
  rewrite <- (firstn_skipn (Z.to_nat a) s) at 1. f_equal.
  rewrite <- (firstn_skipn (Z.to_nat (b - a)) (skipn (Z.to_nat a) s)) at 1.
  f_equal. rewrite skipn_skipn. f_equal. lia.
Qed.

Lemma eqb_eq (a b : jsstring) : eqb a b = true <-> a = b.
Proof.
  unfold eqb. destruct (list_eq_dec N.eq_dec a b); split; congruence.
Qed.

Lemma eqb_refl (a : jsstring) : eqb a a = true.
Proof. now apply eqb_eq. Qed.

(** [split] never returns the empty array, and it has one more element
    than its argument has separators. *)
Lemma split_length (sep : code_unit) (s : jsstring) :
  length (split sep s) = S (count_occ N.eq_dec s sep).
Proof.
  induction s as [|c rest IH]; simpl; [reflexivity|].
  destruct (N.eqb_spec c sep) as [->|Hne].
  - destruct (N.eq_dec sep sep); [|congruence]. simpl. now rewrite IH.
  - destruct (N.eq_dec c sep); [congruence|].
    destruct (split sep rest); simpl in *; [discriminate|assumption].
Qed.

Lemma split_one (sep : code_unit) (s : jsstring) :
  ~ In sep s -> split sep s = [s].
Proof.
  induction s as [|c rest IH]; simpl; intros H; [reflexivity|].
  destruct (N.eqb_spec c sep) as [->|Hne]; [tauto|].
  rewrite IH by tauto. reflexivity.
Qed.

(** Exit of the loops: the guard has one of the shapes below, so the loop
    variable moves towards a bound and the fuel counts the distance. *)
Section Loops.

Variable guard : Z -> bool.

Lemma while_back_range (fuel : nat) (n : Z) :
  (forall x, guard x = true -> 0 < x) ->
  Z.min 0 n <= while fuel guard Z.pred n <= n.
Proof.
  intros Hg. revert n. induction fuel as [|f IH]; intros n; simpl; [lia|].
  destruct (guard n) eqn:E; [|lia].
  apply Hg in E. specialize (IH (Z.pred n)). lia.
Qed.

Lemma while_back_exit (fuel : nat) (n : Z) :
  (forall x, guard x = true -> 0 < x) ->
  (Z.to_nat n <= fuel)%nat ->
  guard (while fuel guard Z.pred n) = false.
Proof.
  intros Hg. revert n. induction fuel as [|f IH]; intros n Hf; simpl.
  - destruct (guard n) eqn:E; [|reflexivity]. apply Hg in E. lia.
  - destruct (guard n) eqn:E; [|assumption].
    apply Hg in E. apply IH. lia.
Qed.

Lemma while_fwd_range (bound : Z) (fuel : nat) (n : Z) :
  (forall x, guard x = true -> x < bound) ->
  n <= while fuel guard Z.succ n <= Z.max n bound.
Proof.
  intros Hg. revert n. induction fuel as [|f IH]; intros n; simpl; [lia|].
  destruct (guard n) eqn:E; [|lia].
  apply Hg in E. specialize (IH (Z.succ n)). lia.
Qed.

Lemma while_fwd_exit (bound : Z) (fuel : nat) (n : Z) :
  (forall x, guard x = true -> x < bound) ->
  (Z.to_nat (bound - n) <= fuel)%nat ->
  guard (while fuel guard Z.succ n) = false.
Proof.
  intros Hg. revert n. induction fuel as [|f IH]; intros n Hf; simpl.
  - destruct (guard n) eqn:E; [|reflexivity]. apply Hg in E. lia.
  - destruct (guard n) eqn:E; [|assumption].
    apply Hg in E. apply IH. lia.
Qed.

End Loops.

End JSFacts.

(** ** The text cursor *)

Module CursorFacts.
Import JS JSFacts Cursor.

Lemma backCond_pos (t : jsstring) (b : bool) (x : Z) :
  backCond t b x = true -> 0 < x.
Proof.
  unfold backCond. intros H. apply andb_prop in H as [H _]. lia.
Qed.

Lemma fwdCond_lt (t : jsstring) (b : bool) (x : Z) :
  fwdCond t b x = true -> x < len t.
Proof.
  unfold fwdCond. intros H. apply andb_prop in H as [H _]. lia.
Qed.

Lemma scanBack_range (t : jsstring) (b : bool) (n : Z) :
  Z.min 0 n <= scanBack t b n <= n.
Proof. apply while_back_range, backCond_pos. Qed.

Lemma scanFwd_range (t : jsstring) (b : bool) (n : Z) :
  n <= scanFwd t b n <= Z.max n (len t).
Proof. apply while_fwd_range, fwdCond_lt. Qed.

(** Both scans stop because their guard fails, not because the fuel of
    the model runs out. *)
Lemma scanBack_exit (t : jsstring) (b : bool) (n : Z) :
  backCond t b (scanBack t b n) = false.
Proof. apply while_back_exit; [apply backCond_pos | lia]. Qed.

Lemma scanFwd_exit (t : jsstring) (b : bool) (n : Z) :
  fwdCond t b (scanFwd t b n) = false.
Proof. apply (while_fwd_exit _ (len t)); [apply fwdCond_lt | lia]. Qed.

Lemma prevWord_le (c : Cursor) :
  Z.min 0 (offset c) <= offset (prevWord c) <= offset c.
Proof.
  unfold prevWord; simpl.
  pose proof (scanBack_range (text c) true (offset c)).
  pose proof (scanBack_range (text c) false (scanBack (text c) true (offset c))).
  lia.
Qed.

Lemma nextWord_ge (c : Cursor) :
  offset c <= offset (nextWord c) <= Z.max (offset c) (len (text c)).
Proof.
  unfold nextWord; simpl.
  pose proof (scanFwd_range (text c) false (offset c)).
  pose proof (scanFwd_range (text c) true (scanFwd (text c) false (offset c))).
  lia.
Qed.

Lemma lineLoop_nonneg (rest : list jsstring) (i li acc : Z) :
  0 <= acc -> 0 <= lineLoop rest i li acc.
Proof.
  revert i acc. induction rest as [|line rest IH]; intros i acc H; simpl; [assumption|].
  destruct (i <? li); [|assumption].
  apply IH. pose proof (len_nonneg line). lia.
Qed.

Lemma getOffsetFromLineColumn_range (c : Cursor) (li col : Z) :
  0 <= col -> 0 <= getOffsetFromLineColumn c li col <= len (text c).
Proof.
  intros H. unfold getOffsetFromLineColumn.
  pose proof (lineLoop_nonneg (split LF (text c)) 0 li 0 (Z.le_refl 0)).
  pose proof (len_nonneg (get_or (split LF (text c)) li [])).
  pose proof (len_nonneg (text c)).
  lia.
Qed.

Lemma getLineColumn_column (c : Cursor) : 0 <= snd (getLineColumn c).
Proof. unfold getLineColumn; simpl. apply len_nonneg. Qed.

Lemma fromText_inBounds (t : jsstring) (cols off : Z) :
  inBounds (fromText t cols off).
Proof.
  unfold inBounds, fromText; simpl. pose proof (len_nonneg t). lia.
Qed.

Lemma applyNav_inBounds (n : nav) (c : Cursor) :
  inBounds c -> inBounds (applyNav n c).
Proof.
  unfold inBounds. intros H.
  pose proof (getLineColumn_column c) as Hcol.
  destruct n; cbn [applyNav].
  - unfold left; simpl; lia.
  - unfold right; simpl; lia.
  - unfold up. destruct (getLineColumn c) as [li col]; simpl in Hcol.
    destruct (li =? 0); [assumption|]. simpl.
    apply getOffsetFromLineColumn_range.
    pose proof (len_nonneg (get_or (split LF (text c)) (li - 1) [])). lia.
  - unfold down. destruct (getLineColumn c) as [li col]; simpl in Hcol.
    destruct (li >=? len (split LF (text c)) - 1); [assumption|]. simpl.
    apply getOffsetFromLineColumn_range.
    pose proof (len_nonneg (get_or (split LF (text c)) (li + 1) [])). lia.
  - unfold startOfLine. destruct (getLineColumn c) as [li col]; simpl.
    apply getOffsetFromLineColumn_range. lia.
  - unfold endOfLine. destruct (getLineColumn c) as [li col]; simpl.
    apply getOffsetFromLineColumn_range. apply len_nonneg.
  - pose proof (prevWord_le c). unfold prevWord in *; simpl in *. lia.
  - pose proof (nextWord_ge c). unfold nextWord in *; simpl in *. lia.
Qed.

(** Lengths of the two halves every edit is built from. *)
Lemma len_slice_prefix (s : jsstring) (k : Z) :
  0 <= k <= len s -> len (slice s 0 k) = k.
Proof. intros H. rewrite slice_prefix by assumption. now apply len_firstn. Qed.

Lemma len_slice_from (s : jsstring) (k : Z) :
  0 <= k <= len s -> len (slice_from s k) = len s - k.
Proof. intros H. rewrite slice_from_suffix by assumption. now apply len_skipn. Qed.

Lemma applyEdit_inBounds (e : edit) (c : Cursor) :
  inBounds c -> inBounds (applyEdit e c).
Proof.
  unfold inBounds. intros H.
  destruct e; cbn [applyEdit].
  - unfold insert; simpl. rewrite !len_app.
    rewrite len_slice_prefix, len_slice_from by assumption.
    pose proof (len_nonneg str). lia.
  - unfold backspace. destruct (Z.eqb_spec (offset c) 0); [assumption|]. simpl.
    rewrite len_app, len_slice_prefix, len_slice_from by lia. lia.
  - unfold del. destruct (Z.geb_spec (offset c) (len (text c))); [assumption|]. simpl.
    rewrite len_app, len_slice_prefix, len_slice_from by lia. lia.
  - unfold deleteToLineStart. destruct (getLineColumn c) as [li col]; cbn [text offset].
    pose proof (getOffsetFromLineColumn_range c li 0 (Z.le_refl 0)).
    rewrite len_app, len_slice_prefix, len_slice_from by lia. lia.
  - unfold deleteToLineEnd. destruct (getLineColumn c) as [li col]; cbn [text offset].
    pose proof (getOffsetFromLineColumn_range c li _
                  (len_nonneg (get_or (split LF (text c)) li []))).
    rewrite len_app, len_slice_prefix, len_slice_from by lia. lia.
  - unfold deleteWordBefore; cbn [text offset]. pose proof (prevWord_le c).
    rewrite len_app, len_slice_prefix, len_slice_from by lia. lia.
  - unfold deleteWordAfter; cbn [text offset]. pose proof (nextWord_ge c).
    rewrite len_app, len_slice_prefix, len_slice_from by lia. lia.
Qed.

Lemma apply_inBounds (o : op) (c : Cursor) :
  inBounds c -> inBounds (apply o c).
Proof.
  destruct o; simpl; [apply applyNav_inBounds | apply applyEdit_inBounds].
Qed.

Lemma run_inBounds (ops : list op) (c : Cursor) :
  inBounds c -> inBounds (run ops c).
Proof.
  revert c. induction ops as [|o ops IH]; intros c H; simpl; [assumption|].
  apply IH, apply_inBounds, H.
Qed.

(** C1. Every cursor built by [fromText], whatever offset it is given,
    and then transformed by any sequence of the fifteen public operations
    has its offset between 0 and the length of its text. *)
Theorem offset_in_bounds_reachable (t : jsstring) (cols off : Z) (ops : list op) :
  0 <= offset (run ops (fromText t cols off))
    <= len (text (run ops (fromText t cols off))).
Proof.
  apply (run_inBounds ops (fromText t cols off)), fromText_inBounds.
Qed.

(** The model on the worked examples of the design notes. *)
Example down_keeps_column :
  offset (down (mk ascii_line1_line2 80 3)) = 9.
Proof. reflexivity. Qed.

Example up_keeps_column :
  offset (up (mk ascii_line1_line2 80 9)) = 3.
Proof. reflexivity. Qed.

Example prevWord_hello_world : offset (prevWord hello_at_11) = 6.
Proof. reflexivity. Qed.

Example deleteWordBefore_hello_world :
  deleteWordBefore hello_at_11 = mk [104; 101; 108; 108; 111; 32]%N 80 6.
Proof. reflexivity. Qed.

Example left_right_at_zero :
  offset (right (left (mk ascii_hello_world 80 0))) = 1.
Proof. reflexivity. Qed.

(** *** The render width *)

Lemma getLineColumn_withColumns (w : Z) (c : Cursor) :
  getLineColumn (withColumns w c) = getLineColumn c.
Proof. reflexivity. Qed.

Lemma getOffsetFromLineColumn_withColumns (w : Z) (c : Cursor) (li col : Z) :
  getOffsetFromLineColumn (withColumns w c) li col = getOffsetFromLineColumn c li col.
Proof. reflexivity. Qed.

(** After the case split on the operation, unfold it, name the line and
    column it computes and split on its test. *)
Ltac by_cases_of_op :=
  unfold up, down, startOfLine, endOfLine, backspace, del,
         deleteToLineStart, deleteToLineEnd;
  try rewrite getLineColumn_withColumns;
  try match goal with
      | |- context [getLineColumn ?c] => destruct (getLineColumn c) as [? ?]
      end;
  cbn [text offset columns withColumns];
  try match goal with
      | |- context [if ?b then _ else _] => destruct b
      end;
  repeat split; reflexivity.

Lemma applyNav_withColumns (w : Z) (n : nav) (c : Cursor) :
  applyNav n (withColumns w c) = withColumns w (applyNav n c).
Proof. destruct n; cbn [applyNav]; by_cases_of_op. Qed.

Lemma applyEdit_withColumns (w : Z) (e : edit) (c : Cursor) :
  applyEdit e (withColumns w c) = withColumns w (applyEdit e c).
Proof. destruct e; cbn [applyEdit]; by_cases_of_op. Qed.

Lemma apply_withColumns (w : Z) (o : op) (c : Cursor) :
  apply o (withColumns w c) = withColumns w (apply o c).
Proof.
  destruct o; [apply applyNav_withColumns | apply applyEdit_withColumns].
Qed.

Lemma applyNav_frame (n : nav) (c : Cursor) :
  text (applyNav n c) = text c /\ columns (applyNav n c) = columns c.
Proof. destruct n; cbn [applyNav]; by_cases_of_op. Qed.

Lemma applyEdit_columns (e : edit) (c : Cursor) :
  columns (applyEdit e c) = columns c.
Proof. destruct e; cbn [applyEdit]; by_cases_of_op. Qed.

Lemma apply_columns (o : op) (c : Cursor) : columns (apply o c) = columns c.
Proof.
  destruct o; cbn [apply]; [apply applyNav_frame | apply applyEdit_columns].
Qed.

(** C5. Two cursors with the same text and the same offset, whatever
    their render widths [w1] and [w2], are taken by each of the fifteen
    operations to cursors with the same text and the same offset, each
    still carrying its own width, and they render to the same string. *)
Theorem width_hint_not_consulted (t : jsstring) (off w1 w2 : Z) (o : op) :
  text (apply o (mk t w1 off)) = text (apply o (mk t w2 off))
  /\ offset (apply o (mk t w1 off)) = offset (apply o (mk t w2 off))
  /\ columns (apply o (mk t w1 off)) = w1
  /\ columns (apply o (mk t w2 off)) = w2
  /\ forall chalk_inverse cursorChar mask invert,
       render chalk_inverse (mk t w1 off) cursorChar mask invert
       = render chalk_inverse (mk t w2 off) cursorChar mask invert.
Proof.
  change (mk t w2 off) with (withColumns w2 (mk t w1 off)).
  rewrite apply_withColumns.
  repeat split; try reflexivity.
  apply (apply_columns o (mk t w1 off)).
Qed.

(** C9. An operation that moves the caret returns the text and the render
    width it was given, and an operation that edits the text returns the
    render width it was given. *)
Theorem operations_frame (c : Cursor) :
  (forall n : nav,
     text (applyNav n c) = text c /\ columns (applyNav n c) = columns c)
  /\ (forall e : edit, columns (applyEdit e c) = columns c).
Proof.
  split; [intros n; apply applyNav_frame | intros e; apply applyEdit_columns].
Qed.

(** *** Insertion and deletion *)

Lemma slice_prefix_app (a b : jsstring) : slice (a ++ b) 0 (len a) = a.
Proof.
  rewrite slice_prefix.
  - unfold len. rewrite Nat2Z.id.
    rewrite firstn_app, firstn_all, Nat.sub_diag. simpl. apply app_nil_r.
  - rewrite len_app. pose proof (len_nonneg a). pose proof (len_nonneg b). lia.
Qed.

Lemma slice_from_app (a b : jsstring) : slice_from (a ++ b) (len a) = b.
Proof.
  rewrite slice_from_suffix.
  - unfold len. rewrite Nat2Z.id.
    rewrite skipn_app, skipn_all, Nat.sub_diag. reflexivity.
  - rewrite len_app. pose proof (len_nonneg a). pose proof (len_nonneg b). lia.
Qed.

Lemma halves (s : jsstring) (k : Z) :
  0 <= k <= len s -> slice s 0 k ++ slice_from s k = s.
Proof.
  intros H. rewrite slice_prefix, slice_from_suffix by assumption.
  apply firstn_skipn.
Qed.

Lemma insert_nil (c : Cursor) : inBounds c -> insert c [] = c.
Proof.
  intros H. unfold insert. cbn [app]. rewrite halves by exact H.
  rewrite len_nil, Z.add_0_r. now destruct c.
Qed.

(** One [backspace] takes back the last code unit inserted. *)
Lemma backspace_insert_last (c : Cursor) (s : jsstring) (x : code_unit) :
  inBounds c -> backspace (insert c (s ++ [x])) = insert c s.
Proof.
  intros H. unfold inBounds in H.
  pose proof (len_nonneg s) as Hs.
  unfold backspace, insert. cbn [text offset columns].
  rewrite len_app. change (len [x]) with 1.
  destruct (Z.eqb_spec (offset c + (len s + 1)) 0) as [E|_]; [lia|].
  f_equal; [|lia].
  set (pre := slice (text c) 0 (offset c)).
  set (post := slice_from (text c) (offset c)).
  assert (Hpre : len pre = offset c) by (apply len_slice_prefix; exact H).
  rewrite (app_assoc pre s post). f_equal.
  - replace (pre ++ (s ++ [x]) ++ post) with ((pre ++ s) ++ ([x] ++ post))
      by (now rewrite <- !app_assoc).
    replace (offset c + (len s + 1) - 1) with (len (pre ++ s))
      by (rewrite len_app; lia).
    apply slice_prefix_app.
  - replace (pre ++ (s ++ [x]) ++ post) with ((pre ++ s ++ [x]) ++ post)
      by (now rewrite <- !app_assoc).
    replace (offset c + (len s + 1)) with (len (pre ++ s ++ [x]))
      by (rewrite !len_app; change (len [x]) with 1; lia).
    apply slice_from_app.
Qed.

Lemma backspaces_insert (c : Cursor) (s : jsstring) :
  inBounds c -> backspaces (length s) (insert c s) = c.
Proof.
  intros H. induction s as [|x s IH] using rev_ind.
  - simpl. now apply insert_nil.
  - rewrite length_app, Nat.add_comm. cbn [length Nat.add].
    unfold backspaces in *. rewrite Nat.iter_succ_r.
    now rewrite backspace_insert_last.
Qed.

(** C8. For a cursor within its bounds and a non-empty string [s],
    [insert(s)] followed by [length(s)] calls of [backspace()] gives back
    the text and the offset of the cursor; [insert(s)] itself splices [s]
    at the offset and moves the offset forward by [length(s)]. *)
Theorem insert_then_backspaces (c : Cursor) (s : jsstring) :
  inBounds c -> s <> [] ->
  text (insert c s)
    = firstn (Z.to_nat (offset c)) (text c) ++ s
      ++ skipn (Z.to_nat (offset c)) (text c)
  /\ offset (insert c s) = offset c + len s
  /\ text (backspaces (length s) (insert c s)) = text c
  /\ offset (backspaces (length s) (insert c s)) = offset c.
Proof.
  intros H _. rewrite backspaces_insert by exact H.
  unfold insert; cbn [text offset].
  rewrite slice_prefix, slice_from_suffix by exact H.
  repeat split.
Qed.

Lemma insert_then_backspaces_witness :
  text (backspaces 2 (insert hello_at_5 [44; 32]%N)) = text hello_at_5
  /\ offset (backspaces 2 (insert hello_at_5 [44; 32]%N)) = offset hello_at_5.
Proof.
  apply (insert_then_backspaces hello_at_5 [44; 32]%N);
    [unfold inBounds; cbn; lia | discriminate].
Defined.

(** *** Words *)

(** C10. [prevWord()] never moves the offset forward and [nextWord()]
    never moves it back.  For a cursor within its bounds, the text is
    [pre ++ word ++ post] with [pre] ending at the offset of [prevWord()]
    and [word] ending at the offset, [deleteWordBefore()] leaves
    [pre ++ post] with the offset at the end of [pre]; likewise the text is
    [pre ++ word ++ post] with [pre] ending at the offset and [word] ending
    at the offset of [nextWord()], and [deleteWordAfter()] leaves
    [pre ++ post] with the offset where it was. *)
Theorem word_deletion (c : Cursor) :
  offset (prevWord c) <= offset c
  /\ offset c <= offset (nextWord c)
  /\ (inBounds c ->
      (exists pre word post,
         text c = pre ++ word ++ post
         /\ len pre = offset (prevWord c)
         /\ len (pre ++ word) = offset c
         /\ text (deleteWordBefore c) = pre ++ post
         /\ offset (deleteWordBefore c) = offset (prevWord c))
      /\ (exists pre word post,
         text c = pre ++ word ++ post
         /\ len pre = offset c
         /\ len (pre ++ word) = offset (nextWord c)
         /\ text (deleteWordAfter c) = pre ++ post
         /\ offset (deleteWordAfter c) = offset c)).
Proof.
  pose proof (prevWord_le c) as Hp. pose proof (nextWord_ge c) as Hn.
  split; [lia|]. split; [lia|].
  intros H. unfold inBounds in H. split.
  - exists (firstn (Z.to_nat (offset (prevWord c))) (text c)),
           (slice (text c) (offset (prevWord c)) (offset c)),
           (skipn (Z.to_nat (offset c)) (text c)).
    assert (Hsl : len (slice (text c) (offset (prevWord c)) (offset c))
                  = offset c - offset (prevWord c)).
    { rewrite slice_between by lia. unfold len in *.
      rewrite length_firstn, length_skipn. lia. }
    repeat split.
    + apply three_parts; lia.
    + apply len_firstn. lia.
    + rewrite len_app, len_firstn, Hsl by lia. lia.
    + unfold deleteWordBefore; cbn [text].
      now rewrite slice_prefix, slice_from_suffix by lia.
  - exists (firstn (Z.to_nat (offset c)) (text c)),
           (slice (text c) (offset c) (offset (nextWord c))),
           (skipn (Z.to_nat (offset (nextWord c))) (text c)).
    assert (Hsl : len (slice (text c) (offset c) (offset (nextWord c)))
                  = offset (nextWord c) - offset c).
    { rewrite slice_between by lia. unfold len in *.
      rewrite length_firstn, length_skipn. lia. }
    repeat split.
    + apply three_parts; lia.
    + apply len_firstn. lia.
    + rewrite len_app, len_firstn, Hsl by lia. lia.
    + unfold deleteWordAfter; cbn [text].
      now rewrite slice_prefix, slice_from_suffix by lia.
Qed.

Lemma word_deletion_witness :
  offset (prevWord hello_at_11) = 6
  /\ text (deleteWordBefore hello_at_11) = [104; 101; 108; 108; 111; 32]%N
  /\ exists pre word post,
       text hello_at_11 = pre ++ word ++ post
       /\ len pre = offset (prevWord hello_at_11)
       /\ len (pre ++ word) = offset hello_at_11
       /\ text (deleteWordBefore hello_at_11) = pre ++ post
       /\ offset (deleteWordBefore hello_at_11) = offset (prevWord hello_at_11).
Proof.
  split; [reflexivity|]. split; [reflexivity|].
  apply (word_deletion hello_at_11). unfold inBounds; cbn; lia.
Defined.

(** *** Lines *)

Lemma getLineColumn_firstLine (c : Cursor) :
  inBounds c -> onFirstLine c -> fst (getLineColumn c) = 0.
Proof.
  intros H Hf. unfold getLineColumn; cbn [fst].
  rewrite slice_prefix by exact H.
  now rewrite split_one by exact Hf.
Qed.

Lemma getLineColumn_lastLine (c : Cursor) :
  inBounds c -> onLastLine c ->
  fst (getLineColumn c) = len (split LF (text c)) - 1.
Proof.
  intros H Hl. unfold getLineColumn; cbn [fst].
  rewrite slice_prefix by exact H.
  assert (E : count_occ N.eq_dec (text c) LF
              = count_occ N.eq_dec (firstn (Z.to_nat (offset c)) (text c)) LF).
  { pose proof (count_occ_app N.eq_dec
                  (firstn (Z.to_nat (offset c)) (text c))
                  (skipn (Z.to_nat (offset c)) (text c)) LF) as Happ.
    rewrite firstn_skipn in Happ.
    apply (count_occ_not_In N.eq_dec) in Hl. unfold code_unit in *. lia. }
  unfold len. rewrite !split_length, E. lia.
Qed.

Lemma up_firstLine (c : Cursor) : inBounds c -> onFirstLine c -> up c = c.
Proof.
  intros H Hf. pose proof (getLineColumn_firstLine c H Hf) as E.
  unfold up. destruct (getLineColumn c) as [li col]. cbn [fst] in E.
  subst li. reflexivity.
Qed.

Lemma down_lastLine (c : Cursor) : inBounds c -> onLastLine c -> down c = c.
Proof.
  intros H Hl. pose proof (getLineColumn_lastLine c H Hl) as E.
  unfold down. destruct (getLineColumn c) as [li col]. cbn [fst] in E.
  subst li. now rewrite Z.geb_leb, Z.leb_refl.
Qed.

Lemma equals_refl (c : Cursor) : equals c c = true.
Proof.
  unfold equals. now rewrite eqb_refl, !Z.eqb_refl.
Qed.

Lemma equals_eq (a b : Cursor) : equals a b = true <-> a = b.
Proof.
  split; [|intros ->; apply equals_refl].
  unfold equals. intros H.
  apply andb_prop in H as [H Ho]. apply andb_prop in H as [Ht Hc].
  apply eqb_eq in Ht. apply Z.eqb_eq in Hc, Ho.
  destruct a, b; simpl in *; congruence.
Qed.

End CursorFacts.

(** ** The gesture debouncer *)

Module DoublePressFacts.
Import Timers DoublePress.

Lemma clearTimeout_only (h : nat) (d : Z) (n : nat) :
  clearTimeout h (mkRuntime [mkTimer h d] n) = mkRuntime [] n.
Proof.
  unfold clearTimeout; simpl. now rewrite Nat.eqb_refl.
Qed.

Lemma expired_only (t : Z) (h : nat) (d : Z) (n : nat) :
  d <= t -> expired t h (mkRuntime [mkTimer h d] n) = true.
Proof.
  intros H. unfold expired; simpl. rewrite Nat.eqb_refl.
  destruct (Z.leb_spec d t); [reflexivity | lia].
Qed.

Lemma expired_early (t : Z) (h h' : nat) (d : Z) (n : nat) :
  t < d -> expired t h (mkRuntime [mkTimer h' d] n) = false.
Proof.
  intros H. unfold expired; simpl.
  destruct (Z.leb_spec d t); [lia|]. now rewrite andb_false_r.
Qed.

Lemma expired_none (t : Z) (h : nat) (n : nat) :
  expired t h (mkRuntime [] n) = false.
Proof. reflexivity. Qed.

(** The double-press branch. *)
Lemma press_double (timeout now : Z) (st : state) :
  tidy st -> now - lastPressTime st < timeout ->
  press timeout now st
  = (mkState 0 None (mkRuntime [] (fresh (rt st))),
     [OnShowMessage false; OnDoublePress]).
Proof.
  intros Ht Hlt. destruct st as [last ref [arm n]].
  unfold tidy in Ht. unfold press. cbn [lastPressTime timeoutRef rt armed fresh] in *.
  destruct (Z.ltb_spec (now - last) timeout) as [_|]; [|lia].
  destruct ref as [h|].
  - destruct Ht as [d ->]. cbn [lastPressTime timeoutRef rt].
    now rewrite clearTimeout_only.
  - subst arm. reflexivity.
Qed.

(** The first-press branch. *)
Lemma press_first (timeout now : Z) (st : state) :
  tidy st -> timeout <= now - lastPressTime st ->
  press timeout now st
  = (mkState now (Some (fresh (rt st)))
       (mkRuntime [mkTimer (fresh (rt st)) (now + timeout)] (S (fresh (rt st)))),
     [OnShowMessage true]).
Proof.
  intros Ht Hge. destruct st as [last ref [arm n]].
  unfold tidy in Ht. unfold press. cbn [lastPressTime timeoutRef rt armed fresh] in *.
  destruct (Z.ltb_spec (now - last) timeout) as [|_]; [lia|].
  destruct ref as [h|].
  - destruct Ht as [d ->]. cbn [lastPressTime timeoutRef rt].
    now rewrite clearTimeout_only.
  - subst arm. reflexivity.
Qed.

Lemma fire_due (t : Z) (h : nat) (d : Z) (last : Z) (ref : option nat) (n : nat) :
  d <= t ->
  fire t h (mkState last ref (mkRuntime [mkTimer h d] n))
  = Some (mkState last None (mkRuntime [] n), [OnShowMessage false; OnSinglePress]).
Proof.
  intros H. unfold fire. cbn [rt lastPressTime].
  now rewrite expired_only, clearTimeout_only.
Qed.

Lemma fire_idle (t : Z) (h : nat) (st : state) :
  armed (rt st) = [] -> fire t h st = None.
Proof.
  intros H. unfold fire, expired. now rewrite H.
Qed.

Lemma press_tidy (timeout now : Z) (st : state) :
  tidy st -> tidy (fst (press timeout now st)).
Proof.
  intros Ht. destruct (Z.lt_ge_cases (now - lastPressTime st) timeout).
  - rewrite press_double by assumption. reflexivity.
  - rewrite press_first by assumption. simpl. now eexists.
Qed.

Lemma fire_tidy (t : Z) (h : nat) (st : state) :
  tidy st -> tidy (fst (step 0 (Fire t h) st)).
Proof.
  intros Ht. cbn [step]. unfold fire.
  destruct (expired t h (rt st)) eqn:E; [|exact Ht].
  destruct st as [last ref [arm n]]. unfold tidy in *.
  cbn [fst timeoutRef rt armed lastPressTime] in *.
  destruct ref as [h'|].
  - destruct Ht as [d ->]. unfold expired in E. simpl in E.
    rewrite orb_false_r in E. apply andb_prop in E as [E _].
    apply Nat.eqb_eq in E. subst h'. now rewrite clearTimeout_only.
  - subst arm. discriminate.
Qed.

Lemma step_tidy (timeout : Z) (e : event) (st : state) :
  tidy st -> tidy (fst (step timeout e st)).
Proof.
  intros Ht. destruct e as [now | now h].
  - now apply press_tidy.
  - now apply (fire_tidy now h).
Qed.

Lemma reachable_tidy (timeout : Z) (st : state) :
  reachable timeout st -> tidy st.
Proof.
  induction 1 as [|st e _ IH]; [reflexivity | now apply step_tidy].
Qed.

Lemma run_app (timeout : Z) (es1 es2 : list event) (st : state) :
  run timeout (es1 ++ es2) st
  = (fst (run timeout es2 (fst (run timeout es1 st))),
     snd (run timeout es1 st) ++ snd (run timeout es2 (fst (run timeout es1 st)))).
Proof.
  revert st. induction es1 as [|e es1 IH]; intros st; cbn [app run fst snd].
  - now destruct (run timeout es2 st).
  - destruct (step timeout e st) as [st1 l1]. rewrite IH.
    destruct (run timeout es1 st1) as [st2 l2]. cbn [fst snd].
    now rewrite app_assoc.
Qed.

(** Timer events do nothing while no timer has expired. *)
Lemma run_fires_quiet (timeout : Z) (l : list (Z * nat)) (st : state) :
  (forall t h, In (t, h) l -> expired t h (rt st) = false) ->
  run timeout (fires l) st = (st, []).
Proof.
  induction l as [|[t h] l IH]; intros H; cbn [fires map run]; [reflexivity|].
  cbn [step]. unfold fire. rewrite (H t h) by (now left).
  fold (fires l). rewrite IH; [reflexivity|].
  intros t' h' Hin. apply H. now right.
Qed.

Lemma fire_other (t : Z) (h h' : nat) (d : Z) (last : Z) (ref : option nat) (n : nat) :
  h <> h' -> fire t h (mkState last ref (mkRuntime [mkTimer h' d] n)) = None.
Proof.
  intros H. unfold fire, expired. cbn [rt armed existsb handle].
  apply Nat.eqb_neq in H. rewrite Nat.eqb_sym in H. now rewrite H.
Qed.

(** The timer armed by a first press is no longer armed after one more
    press, whichever branch that press takes. *)
Lemma fire_after_press (timeout now now' t : Z) (st : state) :
  tidy st -> timeout <= now - lastPressTime st ->
  fire t (fresh (rt st)) (fst (press timeout now' (fst (press timeout now st)))) = None.
Proof.
  intros Ht Hge. rewrite (press_first timeout now st) by assumption. cbn [fst].
  set (st1 := mkState _ _ _).
  assert (Ht1 : tidy st1) by (simpl; now eexists).
  destruct (Z.lt_ge_cases (now' - lastPressTime st1) timeout).
  - rewrite press_double by assumption. now apply fire_idle.
  - rewrite press_first by assumption. cbn [fst].
    apply fire_other. subst st1. cbn [rt fresh]. lia.
Qed.

(** C2.  A press cancels the pending timer; when
    [now - last_press_time < timeout] it resets [last_press_time] to 0 and
    calls [on_visibility(false)] then [on_double], and no timer is left to
    call [on_single]; otherwise it sets [last_press_time = now], calls
    [on_visibility(true)] and arms a timer due at [now + timeout], which
    runs no earlier than that, is disarmed by one more press, and when it
    runs calls [on_visibility(false)] then [on_single].  With
    [timeout = 800], a first press and a press 300 ms later, at the clock
    readings [T] and [T + 300] (a reading of [Date.now()] is at least 800),
    call [on_visibility(true)], [on_visibility(false)], [on_double] and
    never [on_single], whatever timers the runtime attempts between and
    after them. *)
Theorem press_classifies :
  (forall timeout now st,
     reachable timeout st -> now - lastPressTime st < timeout ->
     press timeout now st
     = (mkState 0 None (mkRuntime [] (fresh (rt st))),
        [OnShowMessage false; OnDoublePress])
     /\ forall l, snd (run timeout (fires l) (fst (press timeout now st))) = [])
  /\ (forall timeout now st,
     reachable timeout st -> timeout <= now - lastPressTime st ->
     press timeout now st
     = (mkState now (Some (fresh (rt st)))
          (mkRuntime [mkTimer (fresh (rt st)) (now + timeout)] (S (fresh (rt st)))),
        [OnShowMessage true])
     /\ (forall t h, t < now + timeout ->
           fire t h (fst (press timeout now st)) = None)
     /\ (forall t now',
           fire t (fresh (rt st))
             (fst (press timeout now' (fst (press timeout now st)))) = None)
     /\ (forall t, now + timeout <= t ->
           fire t (fresh (rt st)) (fst (press timeout now st))
           = Some (mkState now None (mkRuntime [] (S (fresh (rt st)))),
                   [OnShowMessage false; OnSinglePress])))
  /\ (forall T l1 l2,
     800 <= T -> (forall t h, In (t, h) l1 -> t <= T + 300) ->
     snd (run 800 ([Press T] ++ fires l1 ++ [Press (T + 300)] ++ fires l2) init)
     = [OnShowMessage true; OnShowMessage false; OnDoublePress]).
Proof.
  split; [|split].
  - intros timeout now st Hr Hlt. apply reachable_tidy in Hr.
    rewrite press_double by assumption. split; [reflexivity|].
    intros l. cbn [fst]. now rewrite run_fires_quiet.
  - intros timeout now st Hr Hge. apply reachable_tidy in Hr.
    split; [now apply press_first|]. split; [|split].
    + intros t h Hlt. rewrite press_first by assumption. cbn [fst].
      unfold fire. cbn [rt]. now rewrite expired_early.
    + intros t now'. now apply fire_after_press.
    + intros t Hle. rewrite press_first by assumption. cbn [fst].
      now apply fire_due.
  - intros T l1 l2 HT Hl1.
    rewrite !run_app.
    assert (E1 : run 800 [Press T] init
                 = (mkState T (Some O) (mkRuntime [mkTimer O (T + 800)] 1%nat),
                    [OnShowMessage true])).
    { cbn [run step]. rewrite (press_first 800 T init); [reflexivity..|].
      cbn [lastPressTime init]. lia. }
    rewrite E1. cbn [fst snd].
    rewrite (run_fires_quiet 800 l1).
    2:{ intros t h Hin. apply expired_early. apply Hl1 in Hin. lia. }
    cbn [fst snd run step].
    rewrite (press_double 800 (T + 300)); [|simpl; now eexists|cbn [lastPressTime]; lia].
    cbn [fst snd]. now rewrite run_fires_quiet.
Qed.

Lemma press_classifies_witness :
  snd (run 800 ([Press 1700000001000] ++ fires [(1700000001100, O)] ++ [Press (1700000001000 + 300)]
                ++ fires [(1700000005000, O)]) init)
  = [OnShowMessage true; OnShowMessage false; OnDoublePress]
  /\ press 800 1700000001000 init
     = (mkState 1700000001000 (Some O) (mkRuntime [mkTimer O (1700000001000 + 800)] 1%nat),
        [OnShowMessage true])
  /\ press 800 1700000001300 (fst (step 800 (Press 1700000001000) init))
     = (mkState 0 None (mkRuntime [] 1%nat), [OnShowMessage false; OnDoublePress]).
Proof.
  split; [|split].
  - apply (proj2 (proj2 press_classifies) 1700000001000 [(1700000001100, O)] [(1700000005000, O)]); [lia|].
    intros t h [E|[]]. inversion E. lia.
  - apply (proj1 (proj2 press_classifies) 800 1700000001000 init (reach_init 800)).
    simpl. lia.
  - apply (proj1 press_classifies 800 1700000001300 (fst (step 800 (Press 1700000001000) init))).
    + apply reach_step, reach_init.
    + simpl. lia.
Defined.

(** C4.  A double press resets [last_press_time] to 0, and the next
    press, at whatever clock reading [t] it comes (a reading of
    [Date.now()] is at least the timeout), takes the first-press branch: it
    calls [on_visibility(true)], arms the single-press timer and does not
    call [on_double]. *)
Theorem press_after_double (timeout now t : Z) (st : state) :
  reachable timeout st -> now - lastPressTime st < timeout -> timeout <= t ->
  snd (press timeout now st) = [OnShowMessage false; OnDoublePress]
  /\ press timeout t (fst (press timeout now st))
     = (mkState t (Some (fresh (rt st)))
          (mkRuntime [mkTimer (fresh (rt st)) (t + timeout)] (S (fresh (rt st)))),
        [OnShowMessage true])
  /\ ~ In OnDoublePress (snd (press timeout t (fst (press timeout now st)))).
Proof.
  intros Hr Hlt Hge. apply reachable_tidy in Hr.
  rewrite (press_double timeout now st) by assumption. cbn [fst snd].
  split; [reflexivity|].
  rewrite press_first; [|reflexivity|cbn [lastPressTime]; lia].
  cbn [rt fresh snd]. split; [reflexivity|].
  intros [E|[]]. discriminate.
Qed.

Lemma press_after_double_witness :
  press 800 1700000001400 (fst (press 800 1700000001300 (fst (step 800 (Press 1700000001000) init))))
  = (mkState 1700000001400 (Some 1%nat) (mkRuntime [mkTimer 1%nat (1700000001400 + 800)] 2%nat),
     [OnShowMessage true]).
Proof.
  apply (press_after_double 800 1700000001300 1700000001400 (fst (step 800 (Press 1700000001000) init))).
  - apply reach_step, reach_init.
  - simpl. lia.
  - lia.
Defined.

End DoublePressFacts.

(** ** The paste coalescer *)

Module PasteFacts.
Import JS Timers Paste.


(** The buffering branch of [wrappedOnInput] in a tidy state. *)
Lemma wrapped_buffers (now : Z) (input : jsstring) (key : Key.Key) (st : state) :
  tidy st -> signalsBackspace input key = false ->
  looksPasted input (rendered st) = true ->
  wrappedOnInput now input key st
  = (mkState (mkPaste (chunks (paste st) ++ [input])
                      (Some (fresh (rt st)))
                      (sumLengths (chunks (paste st)) + len input))
             (mkRuntime [mkTimer (fresh (rt st)) (now + 50)] (S (fresh (rt st))))
             (rendered st),
     []).
Proof.
  intros Ht Hb Hp. unfold wrappedOnInput. rewrite Hb, Hp.
  destruct st as [[cs tid total] [arm n] rd]. unfold tidy in Ht.
  cbn [paste rt rendered chunks timeoutId armed fresh] in *.
  unfold resetPasteTimeout. destruct tid as [h|].
  - destruct Ht as [[d ->] _].
    now rewrite DoublePressFacts.clearTimeout_only.
  - destruct Ht as [-> _]. reflexivity.
Qed.

Lemma wrapped_forwards (now : Z) (input : jsstring) (key : Key.Key) (st : state) :
  signalsBackspace input key = false ->
  looksPasted input (rendered st) = false ->
  wrappedOnInput now input key st = (st, [OnInput input key]).
Proof.
  intros Hb Hp. unfold wrappedOnInput. now rewrite Hb, Hp.
Qed.

Lemma wrapped_bypasses (now : Z) (input : jsstring) (key : Key.Key) (st : state) :
  signalsBackspace input key = true ->
  wrappedOnInput now input key st = (st, [OnInput input (Key.withBackspace key)]).
Proof.
  intros Hb. unfold wrappedOnInput. now rewrite Hb.
Qed.


Lemma wrapped_tidy (now : Z) (input : jsstring) (key : Key.Key) (st : state) :
  tidy st -> tidy (fst (wrappedOnInput now input key st)).
Proof.
  intros Ht. destruct (signalsBackspace input key) eqn:Hb.
  - now rewrite wrapped_bypasses.
  - destruct (looksPasted input (rendered st)) eqn:Hp.
    + rewrite wrapped_buffers by assumption. unfold tidy. cbn.
      split; [now eexists|]. now destruct (chunks (paste st)).
    + now rewrite wrapped_forwards.
Qed.

Lemma paste_fire_tidy (t : Z) (h : nat) (st : state) :
  tidy st -> tidy (fst (step (Fire t h) st)).
Proof.
  intros Ht. cbn [step]. unfold fire.
  destruct (expired t h (rt st)) eqn:E; [|exact Ht].
  destruct st as [[cs tid total] [arm n] rd]. unfold tidy in *.
  cbn [fst paste rt chunks timeoutId armed] in *.
  destruct tid as [h'|].
  - destruct Ht as [[d ->] _]. unfold expired in E. simpl in E.
    rewrite orb_false_r in E. apply andb_prop in E as [E _].
    apply Nat.eqb_eq in E. subst h'.
    now rewrite DoublePressFacts.clearTimeout_only.
  - destruct Ht as [-> _]. discriminate.
Qed.

Lemma paste_reachable_tidy (st : state) : reachable st -> tidy st.
Proof.
  induction 1 as [|st e _ IH]; [now split|].
  destruct e as [now input key | t h |].
  - now apply wrapped_tidy.
  - now apply paste_fire_tidy.
  - exact IH.
Qed.






End PasteFacts.

(** ** The key dispatcher *)

Module DispatchFacts.
Import JS JSFacts Key Dispatch.

(** Break boolean hypotheses into the value of each flag. *)
Ltac flags :=
  repeat match goal with
         | H : _ && _ = true |- _ => apply andb_prop in H as [? ?]
         | H : negb _ = true |- _ => apply negb_true_iff in H
         | H : _ || _ = false |- _ => apply orb_false_elim in H as [? ?]
         end.

Lemma commit_same (p : props) : commit p (cursor p) = ret tt.
Proof.
  unfold commit. now rewrite CursorFacts.equals_refl.
Qed.

Lemma onInput_backspace (p : props) (input : jsstring) (key : Key) :
  backspace key || delete key || isBackspaceLiteral input = true ->
  onInput p input key = commit p (Cursor.backspace (cursor p)).
Proof.
  intros H. unfold onInput. now rewrite H.
Qed.

Lemma onInput_plainUp (p : props) (input : jsstring) (key : Key) :
  plainUp key = true -> isBackspaceLiteral input = false ->
  Cursor.equals (Cursor.up (cursor p)) (cursor p) = true ->
  onInput p input key = ([OnHistoryUp], tt).
Proof.
  intros Hk Hlit He. apply CursorFacts.equals_eq in He.
  destruct key. unfold plainUp, noModifier in Hk. cbn in Hk. flags. subst.
  unfold onInput, mapKey. cbn [backspace delete return_ escape leftArrow rightArrow
    ctrl meta pageDown pageUp tab upArrow orb andb].
  rewrite Hlit, !andb_false_r. unfold upOrHistoryUp.
  destruct (disableCursorMovementForUpDownKeys p).
  - cbn [bind ret emit app]. now rewrite commit_same.
  - rewrite He, CursorFacts.equals_refl. cbn [bind ret emit app].
    now rewrite commit_same.
Qed.

Lemma onInput_plainDown (p : props) (input : jsstring) (key : Key) :
  plainDown key = true -> isBackspaceLiteral input = false ->
  Cursor.equals (Cursor.down (cursor p)) (cursor p) = true ->
  onInput p input key = ([OnHistoryDown], tt).
Proof.
  intros Hk Hlit He. apply CursorFacts.equals_eq in He.
  destruct key. unfold plainDown, noModifier in Hk. cbn in Hk. flags. subst.
  unfold onInput, mapKey. cbn [backspace delete return_ escape leftArrow rightArrow
    ctrl meta pageDown pageUp tab upArrow downArrow orb andb].
  rewrite Hlit, !andb_false_r. unfold downOrHistoryDown.
  destruct (disableCursorMovementForUpDownKeys p).
  - cbn [bind ret emit app]. now rewrite commit_same.
  - rewrite He, CursorFacts.equals_refl. cbn [bind ret emit app].
    now rewrite commit_same.
Qed.

Example ctrl_a_second_line :
  onInput abc_def_props [97%N] ctrlKey = ([SetOffset 4], tt).
Proof. reflexivity. Qed.

(** C6. [up()] on a cursor within its bounds whose caret is on the first
    line returns that cursor, and [down()] on one whose caret is on the
    last line returns that cursor.  In the dispatcher, a plain up (down)
    arrow whose move returns a cursor equal to the current one calls
    [onHistoryUp] ([onHistoryDown]) and commits nothing: the offset and
    the text are left as they are. *)
Theorem up_down_or_history :
  (forall c, Cursor.inBounds c -> Cursor.onFirstLine c -> Cursor.up c = c)
  /\ (forall c, Cursor.inBounds c -> Cursor.onLastLine c -> Cursor.down c = c)
  /\ (forall p input key,
        plainUp key = true -> isBackspaceLiteral input = false ->
        Cursor.equals (Cursor.up (cursor p)) (cursor p) = true ->
        onInput p input key = ([OnHistoryUp], tt))
  /\ (forall p input key,
        plainDown key = true -> isBackspaceLiteral input = false ->
        Cursor.equals (Cursor.down (cursor p)) (cursor p) = true ->
        onInput p input key = ([OnHistoryDown], tt)).
Proof.
  split; [exact CursorFacts.up_firstLine|].
  split; [exact CursorFacts.down_lastLine|].
  split; [exact onInput_plainUp | exact onInput_plainDown].
Qed.

Lemma up_down_or_history_witness :
  Cursor.up Cursor.hello_at_5 = Cursor.hello_at_5
  /\ Cursor.down Cursor.hello_at_5 = Cursor.hello_at_5
  /\ onInput hello_props [] upKey = ([OnHistoryUp], tt)
  /\ onInput hello_props [] downKey = ([OnHistoryDown], tt).
Proof.
  split; [|split; [|split]].
  - apply (proj1 up_down_or_history Cursor.hello_at_5);
      [unfold Cursor.inBounds; cbn; lia|].
    unfold Cursor.onFirstLine. intros H. cbn in H. unfold LF in H.
    repeat (destruct H as [H|H]; [discriminate H|]). exact H.
  - apply (proj1 (proj2 up_down_or_history) Cursor.hello_at_5);
      [unfold Cursor.inBounds; cbn; lia|].
    unfold Cursor.onLastLine. intros H. cbn in H. unfold LF in H.
    repeat (destruct H as [H|H]; [discriminate H|]). exact H.
  - apply (proj1 (proj2 (proj2 up_down_or_history)) hello_props [] upKey);
      reflexivity.
  - apply (proj2 (proj2 (proj2 up_down_or_history)) hello_props [] downKey);
      reflexivity.
Defined.

(** C7. When the backspace or the delete flag of the key is set, or the
    literal is the one code unit BS or DEL, [onInput] does what committing
    [backspace()] of the current cursor does, whatever the other flags
    are; and [wrappedOnInput] hands the chunk to [onInput] at once, with
    the backspace flag set, and leaves the paste buffer and its timer as
    they are, where [onInput] again commits [backspace()]. *)
Theorem backspace_first (p : props) (now : Z) (st : Paste.state)
    (input : jsstring) (key : Key) :
  backspace key = true \/ delete key = true \/ input = [BS] \/ input = [DEL] ->
  onInput p input key = commit p (Cursor.backspace (cursor p))
  /\ Paste.wrappedOnInput now input key st
     = (st, [Paste.OnInput input (withBackspace key)])
  /\ onInput p input (withBackspace key) = commit p (Cursor.backspace (cursor p)).
Proof.
  intros H.
  assert (Hs : backspace key || delete key || isBackspaceLiteral input = true).
  { unfold isBackspaceLiteral.
    destruct H as [-> | [-> | [-> | ->]]]; cbn;
      repeat rewrite orb_true_r; reflexivity. }
  split; [now apply onInput_backspace|]. split.
  - apply PasteFacts.wrapped_bypasses. unfold Paste.signalsBackspace.
    unfold isBackspaceLiteral in Hs. rewrite <- Hs.
    now rewrite !orb_assoc.
  - apply onInput_backspace. reflexivity.
Qed.

Lemma backspace_first_witness :
  onInput hello_props [DEL] upKey
  = ([SetOffset 4; OnChange [104; 101; 108; 108; 32; 119; 111; 114; 108; 100]%N], tt)
  /\ Paste.wrappedOnInput 0 [DEL] upKey Paste.init
     = (Paste.init, [Paste.OnInput [DEL] (withBackspace upKey)]).
Proof.
  destruct (backspace_first hello_props 0 Paste.init [DEL] upKey) as (H1 & H2 & _).
  - right; right; right; reflexivity.
  - split; [rewrite H1; reflexivity | exact H2].
Defined.

End DispatchFacts.

(** ** Lines and columns *)

Module LineFacts.
Import JS JSFacts Lines Cursor CursorFacts.

Lemma split_nonempty (sep : code_unit) (s : jsstring) : split sep s <> [].
Proof.
  intros E. pose proof (split_length sep s) as H. now rewrite E in H.
Qed.

Lemma joinWith_cons (sep : code_unit) (l : jsstring) (rest : list jsstring) :
  joinWith sep (l :: rest) = l ++ after sep rest.
Proof.
  revert l. induction rest as [|m rest IH]; intros l.
  - cbn. now rewrite app_nil_r.
  - change (joinWith sep (l :: m :: rest)) with (l ++ sep :: joinWith sep (m :: rest)).
    rewrite IH. reflexivity.
Qed.

Lemma after_middle (sep : code_unit) (A : list jsstring) (l : jsstring)
    (B : list jsstring) :
  after sep (A ++ l :: B) = sep :: before sep A ++ l ++ after sep B.
Proof.
  induction A as [|a A IH]; [reflexivity|].
  unfold after, before in *. cbn [app map concat]. rewrite IH.
  cbn [app]. now rewrite <- !app_assoc.
Qed.

Lemma joinWith_middle (sep : code_unit) (A : list jsstring) (l : jsstring)
    (B : list jsstring) :
  joinWith sep (A ++ l :: B) = before sep A ++ l ++ after sep B.
Proof.
  destruct A as [|a A]; cbn [app].
  - apply joinWith_cons.
  - rewrite joinWith_cons, after_middle.
    unfold before. cbn [map concat]. now rewrite <- !app_assoc.
Qed.

(** Joining what [split] returns gives the string back. *)
Lemma join_split (sep : code_unit) (s : jsstring) :
  joinWith sep (split sep s) = s.
Proof.
  induction s as [|c rest IH]; [reflexivity|]. cbn [split].
  destruct (N.eqb_spec c sep) as [->|Hne].
  - rewrite joinWith_cons. cbn [app].
    pose proof (split_nonempty sep rest).
    destruct (split sep rest) as [|l ls] eqn:E; [contradiction|].
    rewrite joinWith_cons in IH. unfold after. cbn. unfold after in IH.
    now rewrite IH.
  - destruct (split sep rest) as [|l ls] eqn:E.
    + now destruct (split_nonempty sep rest).
    + rewrite joinWith_cons in *. cbn. now rewrite IH.
Qed.

Lemma split_no_sep (sep : code_unit) (s : jsstring) :
  Forall (fun l => ~ In sep l) (split sep s).
Proof.
  induction s as [|c rest IH]; cbn [split].
  - constructor; [intros [] | constructor].
  - destruct (N.eqb_spec c sep) as [->|Hne].
    + constructor; [intros [] | exact IH].
    + destruct (split sep rest) as [|l ls]; [repeat constructor; intros [E|[]]; congruence|].
      inversion IH as [|x y Hl Hls]; subst.
      constructor; [|exact Hls]. intros [E|Hin]; [congruence | contradiction].
Qed.

Lemma split_line_then (sep : code_unit) (l rest : jsstring) :
  ~ In sep l -> split sep (l ++ sep :: rest) = l :: split sep rest.
Proof.
  induction l as [|c l IH]; intros H; cbn [app split].
  - now rewrite N.eqb_refl.
  - destruct (N.eqb_spec c sep) as [->|Hne]; [now destruct H; left|].
    rewrite IH by (intros Hin; apply H; now right). reflexivity.
Qed.

(** Splitting what [join] returns gives the lines back, when there is a
    line and no line holds the separator. *)
Lemma split_join (sep : code_unit) (lines : list jsstring) :
  lines <> [] -> Forall (fun l => ~ In sep l) lines ->
  split sep (joinWith sep lines) = lines.
Proof.
  induction lines as [|l rest IH]; intros Hne Hall; [contradiction|].
  inversion Hall as [|x y Hl Hrest]; subst.
  destruct rest as [|m rest].
  - cbn [joinWith]. now apply split_one.
  - change (joinWith sep (l :: m :: rest)) with (l ++ sep :: joinWith sep (m :: rest)).
    rewrite split_line_then by exact Hl.
    now rewrite IH.
Qed.

Lemma last_split (lines : list jsstring) :
  lines <> [] -> exists A x, lines = A ++ [x].
Proof.
  intros H. exists (removelast lines), (last lines []).
  now apply app_removelast_last.
Qed.

(** A text cut in two: the lines of the text are the lines of the first
    part, the last of them continued by the first line of the second part,
    and the other lines of the second part. *)
Lemma split_app (sep : code_unit) (a b : jsstring) :
  exists A x y B,
    split sep a = A ++ [x] /\ split sep b = y :: B
    /\ split sep (a ++ b) = A ++ (x ++ y) :: B.
Proof.
  destruct (last_split (split sep a) (split_nonempty sep a)) as (A & x & Ea).
  pose proof (split_nonempty sep b) as Hb.
  destruct (split sep b) as [|y B] eqn:Eb; [contradiction|].
  exists A, x, y, B. split; [exact Ea|]. split; [reflexivity|].
  pose proof (split_no_sep sep a) as Na. rewrite Ea in Na.
  pose proof (split_no_sep sep b) as Nb. rewrite Eb in Nb.
  apply Forall_app in Na as [NA Nx]. inversion Nx as [|? ? Hx _]; subst.
  inversion Nb as [|? ? Hy NB]; subst.
  rewrite <- (join_split sep a), <- (join_split sep b) at 1.
  rewrite Ea, Eb.
  replace (joinWith sep (A ++ [x]) ++ joinWith sep (y :: B))
    with (joinWith sep (A ++ (x ++ y) :: B)).
  - apply split_join; [now destruct A|].
    apply Forall_app. split; [exact NA|].
    constructor; [|exact NB]. intros Hin. apply in_app_or in Hin. tauto.
  - rewrite !joinWith_middle, joinWith_cons. unfold after at 2. cbn [map concat].
    now rewrite !app_nil_r, <- !app_assoc.
Qed.

Lemma get_or_nth {A : Type} (l : list A) (n : nat) (d : A) :
  get_or l (Z.of_nat n) d = nth n l d.
Proof.
  unfold get_or, get. destruct (Z.ltb_spec (Z.of_nat n) 0); [lia|].
  rewrite Nat2Z.id. revert n H. induction l as [|a l IH]; intros [|n] H; cbn; try reflexivity.
  apply IH. lia.
Qed.

Lemma get_or_middle {A : Type} (l1 : list A) (x : A) (l2 : list A) (d : A) :
  get_or (l1 ++ x :: l2) (len l1) d = x.
Proof.
  unfold len. now rewrite get_or_nth, nth_middle.
Qed.

Lemma len_before_firstn (lines : list jsstring) (i li acc : Z) :
  lineLoop lines i li acc
  = acc + len (before LF (firstn (Z.to_nat (li - i)) lines)).
Proof.
  revert i acc. induction lines as [|line rest IH]; intros i acc; cbn [lineLoop].
  - rewrite firstn_nil. cbn. lia.
  - destruct (Z.ltb_spec i li).
    + rewrite IH. replace (Z.to_nat (li - i)) with (S (Z.to_nat (li - (i + 1)))) by lia.
      cbn [firstn]. unfold before. cbn [map concat].
      rewrite !len_app. change (len [LF]) with 1. lia.
    + replace (Z.to_nat (li - i)) with O by lia. cbn. lia.
Qed.

(** The offset of line [li], column [col], when the text has such a line
    and the line such a column: the lines before it, then [col]. *)
Lemma getOffsetFromLineColumn_at (c : Cursor) (A : list jsstring) (l : jsstring)
    (B : list jsstring) (col : Z) :
  split LF (text c) = A ++ l :: B -> 0 <= col <= len l ->
  getOffsetFromLineColumn c (len A) col = len (before LF A) + col.
Proof.
  intros E Hcol. unfold getOffsetFromLineColumn. rewrite E.
  rewrite len_before_firstn.
  rewrite get_or_middle.
  replace (Z.to_nat (len A - 0)) with (length A) by (unfold len; lia).
  rewrite firstn_app, firstn_all, Nat.sub_diag. cbn [firstn]. rewrite app_nil_r.
  pose proof (join_split LF (text c)) as J. rewrite E, joinWith_middle in J.
  rewrite <- J at 1. rewrite !len_app.
  pose proof (len_nonneg (after LF B)). lia.
Qed.

(** From an offset to its line and column and back. *)
Lemma offset_of_lineColumn (c : Cursor) :
  inBounds c ->
  getOffsetFromLineColumn c (fst (getLineColumn c)) (snd (getLineColumn c))
  = offset c.
Proof.
  intros H. unfold getLineColumn. cbn [fst snd].
  rewrite slice_prefix by exact H.
  destruct (split_app LF (firstn (Z.to_nat (offset c)) (text c))
                         (skipn (Z.to_nat (offset c)) (text c)))
    as (A & x & y & B & Ea & Eb & Et).
  rewrite firstn_skipn in Et. rewrite Ea.
  replace (len (A ++ [x]) - 1) with (len A)
    by (rewrite len_app; change (len [x]) with 1; lia).
  rewrite get_or_middle.
  rewrite (getOffsetFromLineColumn_at c A (x ++ y) B) by
    (try exact Et; rewrite len_app; pose proof (len_nonneg x); pose proof (len_nonneg y); lia).
  pose proof (join_split LF (firstn (Z.to_nat (offset c)) (text c))) as J.
  rewrite Ea, joinWith_middle in J. cbn [after map concat] in J.
  rewrite app_nil_r in J.
  apply (f_equal len) in J. rewrite len_app, len_firstn in J by exact H. exact J.
Qed.

(** The line and column of an offset, read off a cut of the text. *)
Lemma getLineColumn_at (t : jsstring) (w : Z) (A : list jsstring) (l1 l2 : jsstring)
    (B : list jsstring) :
  split LF t = A ++ (l1 ++ l2) :: B ->
  getLineColumn (mk t w (len (before LF A) + len l1)) = (len A, len l1).
Proof.
  intros E. unfold getLineColumn. cbn [text offset].
  pose proof (join_split LF t) as J. rewrite E, joinWith_middle in J.
  pose proof (split_no_sep LF t) as N. rewrite E in N.
  apply Forall_app in N as [NA Nl]. apply Forall_cons_iff in Nl as [Hl NB].
  assert (P : slice t 0 (len (before LF A) + len l1) = joinWith LF (A ++ [l1])).
  { rewrite joinWith_middle. cbn [after map concat]. rewrite app_nil_r.
    rewrite <- J at 1.
    replace (before LF A ++ (l1 ++ l2) ++ after LF B)
      with ((before LF A ++ l1) ++ (l2 ++ after LF B))
      by (now rewrite <- !app_assoc).
    rewrite <- len_app. apply slice_prefix_app. }
  rewrite P, split_join.
  - replace (len (A ++ [l1]) - 1) with (len A)
      by (rewrite len_app; change (len [l1]) with 1; lia).
    now rewrite get_or_middle.
  - now destruct A.
  - apply Forall_app. split; [exact NA|]. constructor; [|constructor].
    intros Hin. apply Hl. apply in_or_app. now left.
Qed.

Lemma cut_at {A : Type} (l : list A) (n : nat) (d : A) :
  (n < length l)%nat -> l = firstn n l ++ nth n l d :: skipn (S n) l.
Proof.
  revert n. induction l as [|a l IH]; intros [|n] H; cbn in *; try lia; [reflexivity|].
  f_equal. apply IH. lia.
Qed.

(** From a line and a column to the offset and back. *)
Lemma lineColumn_of_offset (t : jsstring) (w o li col : Z) :
  0 <= li < len (split LF t) ->
  0 <= col <= len (get_or (split LF t) li []) ->
  getLineColumn (mk t w (getOffsetFromLineColumn (mk t w o) li col)) = (li, col).
Proof.
  intros Hli Hcol.
  rewrite <- (Z2Nat.id li) in * by lia. set (n := Z.to_nat li) in *.
  rewrite get_or_nth in Hcol.
  assert (Hn : (n < length (split LF t))%nat) by (unfold len in Hli; lia).
  pose proof (cut_at (split LF t) n [] Hn) as E.
  set (A := firstn n (split LF t)) in *.
  set (l := nth n (split LF t) []) in *.
  set (B := skipn (S n) (split LF t)) in *.
  assert (HA : len A = Z.of_nat n).
  { subst A. unfold len. rewrite length_firstn. lia. }
  rewrite <- HA.
  rewrite (getOffsetFromLineColumn_at (mk t w o) A l B col) by assumption.
  rewrite <- (firstn_skipn (Z.to_nat col) l) in E.
  replace col with (len (firstn (Z.to_nat col) l)) at 1 2
    by (apply len_firstn; exact Hcol).
  now apply (getLineColumn_at t w A _ (skipn (Z.to_nat col) l) B).
Qed.

(** *** The line the caret is in *)

Lemma locate (c : Cursor) :
  inBounds c -> exists A x y B, located c A x y B.
Proof.
  intros H.
  destruct (split_app LF (firstn (Z.to_nat (offset c)) (text c))
                         (skipn (Z.to_nat (offset c)) (text c)))
    as (A & x & y & B & Ea & Eb & Et).
  rewrite firstn_skipn in Et.
  exists A, x, y, B. unfold located.
  pose proof (join_split LF (text c)) as J. rewrite Et, joinWith_middle in J.
  pose proof (split_no_sep LF (text c)) as N. rewrite Et in N.
  split; [now symmetry|]. split; [|exact N].
  pose proof (join_split LF (firstn (Z.to_nat (offset c)) (text c))) as Ja.
  rewrite Ea, joinWith_middle in Ja. cbn [after map concat] in Ja.
  rewrite app_nil_r in Ja.
  apply (f_equal len) in Ja. rewrite len_app, len_firstn in Ja by exact H. lia.
Qed.

Lemma located_split (c : Cursor) A x y B :
  located c A x y B -> split LF (text c) = A ++ (x ++ y) :: B.
Proof.
  intros (Ht & _ & N). rewrite Ht, <- joinWith_middle.
  apply split_join; [now destruct A | exact N].
Qed.

Lemma located_inBounds (c : Cursor) A x y B :
  located c A x y B -> inBounds c.
Proof.
  intros (Ht & Ho & _). unfold inBounds. rewrite Ht, Ho, !len_app.
  pose proof (len_nonneg (before LF A)). pose proof (len_nonneg x).
  pose proof (len_nonneg y). pose proof (len_nonneg (after LF B)). lia.
Qed.

Lemma located_lineColumn (c : Cursor) A x y B :
  located c A x y B -> getLineColumn c = (len A, len x).
Proof.
  intros L. pose proof (located_split c A x y B L) as E.
  destruct L as (_ & Ho & _). destruct c as [t w o]. cbn [text offset] in *.
  subst o. now apply (getLineColumn_at t w A x y B).
Qed.

Lemma located_offset_at (c : Cursor) A x y B (col : Z) :
  located c A x y B -> 0 <= col <= len (x ++ y) ->
  getOffsetFromLineColumn c (len A) col = len (before LF A) + col.
Proof.
  intros L Hcol. apply (getOffsetFromLineColumn_at c A (x ++ y) B).
  - now apply located_split.
  - exact Hcol.
Qed.

Lemma located_startOfLine (c : Cursor) A x y B :
  located c A x y B ->
  startOfLine c = mk (text c) (columns c) (len (before LF A)).
Proof.
  intros L. unfold startOfLine. rewrite (located_lineColumn c A x y B L).
  rewrite (located_offset_at c A x y B 0 L); [now rewrite Z.add_0_r|].
  pose proof (len_nonneg (x ++ y)). lia.
Qed.

Lemma located_endOfLine (c : Cursor) A x y B :
  located c A x y B ->
  endOfLine c = mk (text c) (columns c) (len (before LF A) + len (x ++ y)).
Proof.
  intros L. unfold endOfLine. rewrite (located_lineColumn c A x y B L).
  rewrite (located_split c A x y B L), get_or_middle.
  rewrite (located_offset_at c A x y B _ L); [reflexivity|].
  pose proof (len_nonneg (x ++ y)). lia.
Qed.

Lemma located_slices (A : list jsstring) (x y : jsstring) (B : list jsstring) :
  let t := before LF A ++ (x ++ y) ++ after LF B in
  slice t 0 (len (before LF A)) = before LF A
  /\ slice t 0 (len (before LF A) + len x) = before LF A ++ x
  /\ slice_from t (len (before LF A) + len x) = y ++ after LF B
  /\ slice_from t (len (before LF A) + len (x ++ y)) = after LF B.
Proof.
  intros t. subst t. repeat split.
  - apply slice_prefix_app.
  - replace (before LF A ++ (x ++ y) ++ after LF B)
      with ((before LF A ++ x) ++ (y ++ after LF B)) by (now rewrite <- !app_assoc).
    rewrite <- len_app. apply slice_prefix_app.
  - replace (before LF A ++ (x ++ y) ++ after LF B)
      with ((before LF A ++ x) ++ (y ++ after LF B)) by (now rewrite <- !app_assoc).
    rewrite <- len_app. apply slice_from_app.
  - replace (before LF A ++ (x ++ y) ++ after LF B)
      with ((before LF A ++ (x ++ y)) ++ after LF B) by (now rewrite <- !app_assoc).
    rewrite <- len_app. apply slice_from_app.
Qed.

Lemma located_deleteToLineStart (c : Cursor) A x y B :
  located c A x y B ->
  deleteToLineStart c
  = mk (before LF A ++ y ++ after LF B) (columns c) (len (before LF A)).
Proof.
  intros L. pose proof (located_startOfLine c A x y B L) as S.
  unfold startOfLine in S. unfold deleteToLineStart.
  destruct (getLineColumn c) as [li col].
  injection S as S. rewrite S.
  destruct L as (Ht & Ho & _). rewrite Ht, Ho.
  destruct (located_slices A x y B) as (E1 & _ & E3 & _).
  now rewrite E1, E3.
Qed.

Lemma located_deleteToLineEnd (c : Cursor) A x y B :
  located c A x y B ->
  deleteToLineEnd c
  = mk (before LF A ++ x ++ after LF B) (columns c) (offset c).
Proof.
  intros L. pose proof (located_endOfLine c A x y B L) as S.
  unfold endOfLine in S. unfold deleteToLineEnd.
  destruct (getLineColumn c) as [li col].
  injection S as S. rewrite S.
  destruct L as (Ht & Ho & _). rewrite Ht, Ho.
  destruct (located_slices A x y B) as (_ & E2 & _ & E4).
  now rewrite E2, E4, <- app_assoc.
Qed.

(** A cursor in the same text, placed by line and column, is located. *)
Lemma located_move (c c' : Cursor) A x y B A2 x2 y2 B2 :
  located c A x y B ->
  A2 ++ (x2 ++ y2) :: B2 = A ++ (x ++ y) :: B ->
  text c' = text c -> offset c' = len (before LF A2) + len x2 ->
  located c' A2 x2 y2 B2.
Proof.
  intros (Ht & _ & N) E Et Eo. unfold located.
  split; [|split; [exact Eo|]].
  - rewrite Et, Ht, <- !joinWith_middle. exact (f_equal (joinWith LF) (eq_sym E)).
  - exact (eq_ind_r (Forall (fun l => ~ In LF l)) N E).
Qed.

Lemma located_up (c : Cursor) A p x y B :
  located c (A ++ [p]) x y B ->
  up c = mk (text c) (columns c) (len (before LF A) + Z.min (len x) (len p)).
Proof.
  intros L. pose proof (located_split c _ x y B L) as E.
  rewrite <- app_assoc in E. cbn [app] in E.
  unfold up. rewrite (located_lineColumn c _ x y B L), E.
  rewrite len_app. change (len [p]) with 1.
  destruct (Z.eqb_spec (len A + 1) 0) as [E0|_];
    [pose proof (len_nonneg A); lia|].
  replace (len A + 1 - 1) with (len A) by lia.
  rewrite get_or_middle.
  rewrite (getOffsetFromLineColumn_at c A p ((x ++ y) :: B)); [reflexivity|exact E|].
  pose proof (len_nonneg x). pose proof (len_nonneg p). lia.
Qed.

Lemma located_down (c : Cursor) A x y n B :
  located c A x y (n :: B) ->
  down c = mk (text c) (columns c)
              (len (before LF (A ++ [x ++ y])) + Z.min (len x) (len n)).
Proof.
  intros L. pose proof (located_split c A x y _ L) as E.
  unfold down. rewrite (located_lineColumn c A x y _ L), E.
  assert (E2 : A ++ (x ++ y) :: n :: B = (A ++ [x ++ y]) ++ n :: B)
    by (now rewrite <- app_assoc).
  rewrite !len_app. cbn [len length]. change (len ((x ++ y) :: n :: B))
    with (Z.of_nat (S (S (length B)))).
  destruct (Z.geb_spec (len A) (len A + Z.of_nat (S (S (length B))) - 1)) as [G|_];
    [lia|].
  replace (len A + 1) with (len (A ++ [x ++ y]))
    by (rewrite len_app; reflexivity).
  rewrite E2, get_or_middle.
  rewrite (getOffsetFromLineColumn_at c (A ++ [x ++ y]) n B);
    [reflexivity | now rewrite E, E2 |].
  pose proof (len_nonneg x). pose proof (len_nonneg n). lia.
Qed.

Lemma located_up_first (c : Cursor) x y B : located c [] x y B -> up c = c.
Proof.
  intros L. unfold up. now rewrite (located_lineColumn c [] x y B L).
Qed.

Lemma located_down_last (c : Cursor) A x y : located c A x y [] -> down c = c.
Proof.
  intros L. unfold down.
  rewrite (located_lineColumn c A x y [] L), (located_split c A x y [] L).
  rewrite len_app. change (len [x ++ y]) with 1.
  destruct (Z.geb_spec (len A) (len A + 1 - 1)); [reflexivity | lia].
Qed.

Lemma located_parts (c : Cursor) A x y B :
  located c A x y B ->
  Forall (fun l => ~ In LF l) A /\ ~ In LF x /\ ~ In LF y
  /\ Forall (fun l => ~ In LF l) B.
Proof.
  intros (_ & _ & N). apply Forall_app in N as [NA N].
  apply Forall_cons_iff in N as [Nxy NB].
  repeat split; try assumption; intros Hin; apply Nxy, in_or_app; tauto.
Qed.

Lemma located_intro (w : Z) A x y B :
  Forall (fun l => ~ In LF l) A -> ~ In LF x -> ~ In LF y ->
  Forall (fun l => ~ In LF l) B ->
  located (mk (before LF A ++ (x ++ y) ++ after LF B) w (len (before LF A) + len x))
          A x y B.
Proof.
  intros NA Nx Ny NB. unfold located. cbn [text offset]. repeat split.
  apply Forall_app. split; [exact NA|]. constructor; [|exact NB].
  intros Hin. apply in_app_or in Hin. tauto.
Qed.

Lemma cursor_eta (c : Cursor) : mk (text c) (columns c) (offset c) = c.
Proof. now destruct c. Qed.

(** The located form of the cursors [up] and [down] return. *)
Lemma located_up_again (c : Cursor) A p x y B :
  located c (A ++ [p]) x y B ->
  located (up c) A (firstn (Z.to_nat (Z.min (len x) (len p))) p)
                   (skipn (Z.to_nat (Z.min (len x) (len p))) p) ((x ++ y) :: B).
Proof.
  intros L. rewrite (located_up c A p x y B L).
  apply (located_move c _ (A ++ [p]) x y B); [exact L | | reflexivity |].
  - now rewrite firstn_skipn, <- app_assoc.
  - cbn [offset]. rewrite len_firstn; [reflexivity|].
    pose proof (len_nonneg x). pose proof (len_nonneg p). lia.
Qed.

Lemma located_down_again (c : Cursor) A x y n B :
  located c A x y (n :: B) ->
  located (down c) (A ++ [x ++ y]) (firstn (Z.to_nat (Z.min (len x) (len n))) n)
                   (skipn (Z.to_nat (Z.min (len x) (len n))) n) B.
Proof.
  intros L. rewrite (located_down c A x y n B L).
  apply (located_move c _ A x y (n :: B)); [exact L | | reflexivity |].
  - now rewrite firstn_skipn, <- app_assoc.
  - cbn [offset]. rewrite len_firstn; [reflexivity|].
    pose proof (len_nonneg x). pose proof (len_nonneg n). lia.
Qed.

Lemma last_split_or_nil {A : Type} (l : list A) :
  l = [] \/ exists l' x, l = l' ++ [x].
Proof.
  destruct l as [|a l]; [now left|right].
  exists (removelast (a :: l)), (last (a :: l) a).
  now apply app_removelast_last.
Qed.

End LineFacts.

(** ** Moving and deleting by lines *)

Module LineTheorems.
Import JS JSFacts Lines Cursor CursorFacts LineFacts.

(** The bounds of a concrete cursor, by computation. *)
Ltac bounds_by_computation := unfold inBounds; vm_compute; split; discriminate.

(** X1. Offsets and line/column pairs correspond: the offset computed
    from the line and column of a cursor within its bounds is the offset of
    the cursor, and the line and column of the offset computed for a line
    of the text and a column within that line are that line and column. *)
Theorem lineColumn_roundtrip :
  (forall c, inBounds c ->
     getOffsetFromLineColumn c (fst (getLineColumn c)) (snd (getLineColumn c))
     = offset c)
  /\ (forall t w o li col,
     0 <= li < len (split LF t) ->
     0 <= col <= len (get_or (split LF t) li []) ->
     getLineColumn (mk t w (getOffsetFromLineColumn (mk t w o) li col))
     = (li, col)).
Proof.
  split; [exact offset_of_lineColumn | exact lineColumn_of_offset].
Qed.

Lemma lineColumn_roundtrip_witness :
  getOffsetFromLineColumn line2_at_3 (fst (getLineColumn line2_at_3))
    (snd (getLineColumn line2_at_3)) = 9
  /\ getLineColumn (mk ascii_line1_line2 80
                       (getOffsetFromLineColumn (mk ascii_line1_line2 80 0) 1 3))
     = (1, 3).
Proof.
  split.
  - apply (proj1 lineColumn_roundtrip line2_at_3). bounds_by_computation.
  - apply (proj2 lineColumn_roundtrip ascii_line1_line2 80 0 1 3);
      vm_compute; split; (discriminate || reflexivity).
Defined.

Lemma get_middle {A : Type} (l1 : list A) (x : A) (l2 : list A) :
  get (l1 ++ x :: l2) (len l1) = Some x.
Proof.
  unfold get, len. destruct (Z.ltb_spec (Z.of_nat (length l1)) 0); [lia|].
  rewrite Nat2Z.id. induction l1 as [|a l1 IH]; [reflexivity|].
  cbn. apply IH. lia.
Qed.

Lemma before_snoc (A : list jsstring) (p : jsstring) :
  before LF (A ++ [p]) = before LF A ++ p ++ [LF].
Proof.
  unfold before. rewrite map_app, concat_app. cbn. now rewrite app_nil_r.
Qed.

Lemma slice_middle (a m b : jsstring) :
  slice (a ++ m ++ b) (len a) (len a + len m) = m.
Proof.
  pose proof (len_nonneg a). pose proof (len_nonneg m). pose proof (len_nonneg b).
  rewrite slice_between by (rewrite ?len_app; lia).
  replace (Z.to_nat (len a)) with (length a) by (unfold len; lia).
  rewrite skipn_app, skipn_all, Nat.sub_diag.
  cbn [skipn app].
  replace (Z.to_nat (len a + len m - len a)) with (length m) by (unfold len; lia).
  rewrite firstn_app, firstn_all, Nat.sub_diag. cbn. apply app_nil_r.
Qed.

(** X2. For a cursor within its bounds, [startOfLine()] and [endOfLine()]
    bracket the caret, no newline lies between the offsets they return,
    the first is 0 or comes right after a newline, and the second is the end
    of the text or the position of a newline. *)
Theorem line_ends (c : Cursor) :
  inBounds c ->
  offset (startOfLine c) <= offset c <= offset (endOfLine c)
  /\ offset (endOfLine c) <= len (text c)
  /\ ~ In LF (slice (text c) (offset (startOfLine c)) (offset (endOfLine c)))
  /\ (offset (startOfLine c) = 0
      \/ get (text c) (offset (startOfLine c) - 1) = Some LF)
  /\ (offset (endOfLine c) = len (text c)
      \/ get (text c) (offset (endOfLine c)) = Some LF).
Proof.
  intros H. destruct (locate c H) as (A & x & y & B & L).
  rewrite (located_startOfLine c A x y B L), (located_endOfLine c A x y B L).
  cbn [offset].
  destruct (located_parts c A x y B L) as (NA & Nx & Ny & NB).
  destruct L as (Ht & Ho & N). rewrite Ht, Ho.
  pose proof (len_nonneg x). pose proof (len_nonneg y).
  pose proof (len_nonneg (after LF B)).
  rewrite !len_app. split; [lia|]. split; [lia|]. split; [|split].
  - rewrite <- len_app, slice_middle.
    intros Hin. apply in_app_or in Hin. tauto.
  - destruct (last_split_or_nil A) as [->|(A' & p & ->)]; [now left|right].
    rewrite before_snoc.
    replace ((before LF A' ++ p ++ [LF]) ++ (x ++ y) ++ after LF B)
      with ((before LF A' ++ p) ++ LF :: ((x ++ y) ++ after LF B))
      by (now rewrite <- !app_assoc).
    replace (len (before LF A' ++ p ++ [LF]) - 1) with (len (before LF A' ++ p))
      by (rewrite !len_app; change (len [LF]) with 1; lia).
    apply get_middle.
  - destruct B as [|n B]; [left; cbn; lia | right].
    unfold after. cbn [map concat app].
    replace (before LF A ++ (x ++ y) ++ LF :: n ++ concat (map (fun l => LF :: l) B))
      with ((before LF A ++ x ++ y) ++ LF :: n ++ concat (map (fun l => LF :: l) B))
      by (now rewrite <- !app_assoc).
    replace (len (before LF A) + (len x + len y)) with (len (before LF A ++ x ++ y))
      by (rewrite !len_app; lia).
    apply get_middle.
Qed.

Lemma line_ends_witness :
  offset (startOfLine line2_at_3) <= offset line2_at_3
    <= offset (endOfLine line2_at_3)
  /\ get (text line2_at_3) (offset (startOfLine line2_at_3) - 1) = Some LF.
Proof.
  destruct (line_ends line2_at_3) as (H1 & _ & _ & [H4|H4] & _).
  - bounds_by_computation.
  - discriminate H4.
  - split; assumption.
Defined.

Lemma located_at_start (c : Cursor) A x y B :
  located c A x y B -> located (startOfLine c) A [] (x ++ y) B.
Proof.
  intros L. rewrite (located_startOfLine c A x y B L).
  apply (located_move c _ A x y B); [exact L|reflexivity|reflexivity|].
  cbn [offset]. change (len (@nil code_unit)) with 0. lia.
Qed.

Lemma located_at_end (c : Cursor) A x y B :
  located c A x y B -> located (endOfLine c) A (x ++ y) [] B.
Proof.
  intros L. rewrite (located_endOfLine c A x y B L).
  apply (located_move c _ A x y B); [exact L| |reflexivity|reflexivity].
  now rewrite app_nil_r.
Qed.

(** X3. On a cursor within its bounds, going to the start (end) of the
    line twice is going there once, and going to the start of the line from
    its end, or to its end from its start, is going there directly. *)
Theorem line_moves_compose (c : Cursor) :
  inBounds c ->
  startOfLine (startOfLine c) = startOfLine c
  /\ endOfLine (endOfLine c) = endOfLine c
  /\ startOfLine (endOfLine c) = startOfLine c
  /\ endOfLine (startOfLine c) = endOfLine c.
Proof.
  intros H. destruct (locate c H) as (A & x & y & B & L).
  pose proof (located_at_start c A x y B L) as Ls.
  pose proof (located_at_end c A x y B L) as Le.
  rewrite (located_startOfLine _ _ _ _ _ Ls), (located_endOfLine _ _ _ _ _ Le),
    (located_startOfLine _ _ _ _ _ Le), (located_endOfLine _ _ _ _ _ Ls).
  rewrite (located_startOfLine c A x y B L), (located_endOfLine c A x y B L).
  cbn [text columns app]. rewrite app_nil_r. repeat split.
Qed.

Lemma line_moves_compose_witness :
  startOfLine (endOfLine line2_at_3) = startOfLine line2_at_3
  /\ endOfLine (startOfLine line2_at_3) = endOfLine line2_at_3.
Proof.
  destruct (line_moves_compose line2_at_3) as (_ & _ & H3 & H4).
  - bounds_by_computation.
  - split; assumption.
Defined.

(** X4. For a cursor within its bounds that is not on the first line,
    [up()] lands on the line above at the column of the caret, or at the
    end of that line when it is shorter; for one not on the last line,
    [down()] does so on the line below. *)
Theorem up_down_lineColumn (c : Cursor) :
  inBounds c ->
  (fst (getLineColumn c) <> 0 ->
     getLineColumn (up c)
     = (fst (getLineColumn c) - 1,
        Z.min (snd (getLineColumn c))
              (len (get_or (split LF (text c)) (fst (getLineColumn c) - 1) []))))
  /\ (fst (getLineColumn c) < len (split LF (text c)) - 1 ->
     getLineColumn (down c)
     = (fst (getLineColumn c) + 1,
        Z.min (snd (getLineColumn c))
              (len (get_or (split LF (text c)) (fst (getLineColumn c) + 1) [])))).
Proof.
  intros H. destruct (locate c H) as (A & x & y & B & L).
  rewrite (located_lineColumn c A x y B L), (located_split c A x y B L).
  cbn [fst snd]. split.
  - intros Hli. destruct (last_split_or_nil A) as [->|(A' & p & ->)];
      [now destruct Hli|].
    rewrite (located_lineColumn _ _ _ _ _ (located_up_again c A' p x y B L)).
    rewrite len_app. change (len [p]) with 1.
    replace (len A' + 1 - 1) with (len A') by lia.
    rewrite <- app_assoc. cbn [app]. rewrite get_or_middle.
    rewrite len_firstn; [reflexivity|].
    pose proof (len_nonneg x). pose proof (len_nonneg p). lia.
  - intros Hli. destruct B as [|n B].
    { rewrite len_app in Hli. change (len [x ++ y]) with 1 in Hli. lia. }
    rewrite (located_lineColumn _ _ _ _ _ (located_down_again c A x y n B L)).
    rewrite len_app. change (len [x ++ y]) with 1.
    replace (A ++ (x ++ y) :: n :: B) with ((A ++ [x ++ y]) ++ n :: B)
      by (now rewrite <- app_assoc).
    replace (len A + 1) with (len (A ++ [x ++ y]))
      by (rewrite len_app; reflexivity).
    rewrite get_or_middle.
    rewrite len_firstn; [reflexivity|].
    pose proof (len_nonneg x). pose proof (len_nonneg n). lia.
Qed.

Lemma up_down_lineColumn_witness :
  getLineColumn (up line2_at_3) = (0, 3)
  /\ getLineColumn (down line1_at_3) = (1, 3).
Proof.
  split.
  - apply (proj1 (up_down_lineColumn line2_at_3 ltac:(bounds_by_computation))).
    discriminate.
  - apply (proj2 (up_down_lineColumn line1_at_3 ltac:(bounds_by_computation))).
    reflexivity.
Defined.

(** X5. For a cursor within its bounds, [up()] then [down()] gives the
    cursor back when the line above is at least as long as the column of
    the caret, and [down()] then [up()] does when the line below is. *)
Theorem up_then_down (c : Cursor) :
  inBounds c ->
  (fst (getLineColumn c) <> 0 ->
   snd (getLineColumn c)
     <= len (get_or (split LF (text c)) (fst (getLineColumn c) - 1) []) ->
   down (up c) = c)
  /\ (fst (getLineColumn c) < len (split LF (text c)) - 1 ->
   snd (getLineColumn c)
     <= len (get_or (split LF (text c)) (fst (getLineColumn c) + 1) []) ->
   up (down c) = c).
Proof.
  intros H. destruct (locate c H) as (A & x & y & B & L).
  rewrite (located_lineColumn c A x y B L), (located_split c A x y B L).
  cbn [fst snd]. pose proof (len_nonneg x) as Hx.
  pose proof (len_nonneg y) as Hy. split.
  - intros Hli. destruct (last_split_or_nil A) as [->|(A' & p & ->)];
      [now destruct Hli|].
    rewrite len_app. change (len [p]) with 1.
    replace (len A' + 1 - 1) with (len A') by lia.
    rewrite <- app_assoc. cbn [app]. rewrite get_or_middle. intros Hcol.
    rewrite (located_down _ _ _ _ _ _ (located_up_again c A' p x y B L)).
    rewrite firstn_skipn, len_firstn by lia.
    rewrite (located_up c A' p x y B L). cbn [text columns].
    destruct L as (_ & Ho & _). rewrite <- (cursor_eta c) at 3. f_equal.
    rewrite Ho, len_app. unfold jsstring, code_unit in *. lia.
  - intros Hli. destruct B as [|n B].
    { rewrite len_app in Hli. change (len [x ++ y]) with 1 in Hli. lia. }
    replace (A ++ (x ++ y) :: n :: B) with ((A ++ [x ++ y]) ++ n :: B)
      by (now rewrite <- app_assoc).
    replace (len A + 1) with (len (A ++ [x ++ y]))
      by (rewrite len_app; reflexivity).
    rewrite get_or_middle. intros Hcol.
    rewrite (located_up _ _ _ _ _ _ (located_down_again c A x y n B L)).
    rewrite len_firstn by lia.
    rewrite (located_down c A x y n B L). cbn [text columns].
    destruct L as (_ & Ho & _). rewrite <- (cursor_eta c) at 3. f_equal.
    rewrite Ho, len_app. unfold jsstring, code_unit in *. lia.
Qed.

Lemma up_then_down_witness :
  down (up line2_at_3) = line2_at_3 /\ up (down line1_at_3) = line1_at_3.
Proof.
  split.
  - apply (proj1 (up_then_down line2_at_3 ltac:(bounds_by_computation)));
      [discriminate | vm_compute; discriminate].
  - apply (proj2 (up_then_down line1_at_3 ltac:(bounds_by_computation)));
      [reflexivity | vm_compute; discriminate].
Defined.

Lemma located_killed_start (c : Cursor) A x y B :
  located c A x y B -> located (deleteToLineStart c) A [] y B.
Proof.
  intros L. rewrite (located_deleteToLineStart c A x y B L).
  destruct (located_parts c A x y B L) as (NA & Nx & Ny & NB).
  pose proof (located_intro (columns c) A [] y B NA (fun f => f) Ny NB) as L'.
  cbn [app] in L'. change (len (@nil code_unit)) with 0 in L'.
  now rewrite Z.add_0_r in L'.
Qed.

Lemma located_killed_end (c : Cursor) A x y B :
  located c A x y B -> located (deleteToLineEnd c) A x [] B.
Proof.
  intros L. rewrite (located_deleteToLineEnd c A x y B L).
  destruct (located_parts c A x y B L) as (NA & Nx & Ny & NB).
  pose proof (located_intro (columns c) A x [] B NA Nx (fun f => f) NB) as L'.
  rewrite app_nil_r in L'. destruct L as (_ & -> & _). exact L'.
Qed.

(** X6. On a cursor within its bounds, deleting to the start of the line
    and deleting to the end of the line commute, either order leaves the
    text with as many lines as before, and each deletion done twice is the
    deletion done once. *)
Theorem kill_line (c : Cursor) :
  inBounds c ->
  deleteToLineEnd (deleteToLineStart c) = deleteToLineStart (deleteToLineEnd c)
  /\ len (split LF (text (deleteToLineEnd (deleteToLineStart c))))
     = len (split LF (text c))
  /\ deleteToLineStart (deleteToLineStart c) = deleteToLineStart c
  /\ deleteToLineEnd (deleteToLineEnd c) = deleteToLineEnd c.
Proof.
  intros H. destruct (locate c H) as (A & x & y & B & L).
  pose proof (located_killed_start c A x y B L) as Ls.
  pose proof (located_killed_end c A x y B L) as Le.
  assert (Lse : located (deleteToLineEnd (deleteToLineStart c)) A [] [] B)
    by (exact (located_killed_end _ A [] y B Ls)).
  rewrite (located_split _ _ _ _ _ Lse), (located_split c A x y B L).
  rewrite (located_deleteToLineEnd _ _ _ _ _ Ls),
    (located_deleteToLineStart _ _ _ _ _ Le),
    (located_deleteToLineStart _ _ _ _ _ Ls),
    (located_deleteToLineEnd _ _ _ _ _ Le).
  rewrite (located_deleteToLineStart c A x y B L),
    (located_deleteToLineEnd c A x y B L).
  cbn [text columns offset app]. rewrite !len_app.
  repeat split.
Qed.

Lemma kill_line_witness :
  deleteToLineEnd (deleteToLineStart line2_at_3)
  = deleteToLineStart (deleteToLineEnd line2_at_3)
  /\ len (split LF (text (deleteToLineEnd (deleteToLineStart line2_at_3)))) = 2.
Proof.
  destruct (kill_line line2_at_3) as (H1 & H2 & _).
  - bounds_by_computation.
  - split; [exact H1 | exact H2].
Defined.

End LineTheorems.

(** ** Edits and moves composed *)

Module EditTheorems.
Import JS JSFacts Lines Cursor CursorFacts LineFacts.

Ltac bounds_by_computation := unfold inBounds; vm_compute; split; discriminate.

Lemma get_at {A : Type} (l1 : list A) (x : A) (l2 : list A) :
  get (l1 ++ x :: l2) (len l1) = Some x.
Proof.
  unfold get, len. destruct (Z.ltb_spec (Z.of_nat (length l1)) 0); [lia|].
  rewrite Nat2Z.id. induction l1 as [|a l1 IH]; [reflexivity|].
  cbn. apply IH. lia.
Qed.

(** X7. On a cursor within its bounds, [left()] then [right()] gives the
    cursor back unless the offset is 0, and [right()] then [left()] does
    unless the offset is the length of the text. *)
Theorem left_right_inverse (c : Cursor) :
  inBounds c ->
  (0 < offset c -> right (left c) = c)
  /\ (offset c < len (text c) -> left (right c) = c).
Proof.
  unfold inBounds, left, right. destruct c as [t w o]. cbn [text offset columns].
  intros H. split; intros H1; f_equal; lia.
Qed.

Lemma left_right_inverse_witness :
  right (left hello_at_5) = hello_at_5 /\ left (right hello_at_5) = hello_at_5.
Proof.
  destruct (left_right_inverse hello_at_5) as (H1 & H2).
  - bounds_by_computation.
  - split; [apply H1 | apply H2]; reflexivity.
Defined.

(** [n] backspaces on a cursor with at least [n] code units before the
    caret remove those [n] code units. *)
Lemma backspaces_remove (n : nat) (c : Cursor) :
  inBounds c -> Z.of_nat n <= offset c ->
  backspaces n c
  = mk (firstn (Z.to_nat (offset c - Z.of_nat n)) (text c)
        ++ skipn (Z.to_nat (offset c)) (text c))
       (columns c) (offset c - Z.of_nat n).
Proof.
  unfold backspaces. induction n as [|n IH]; intros H Hn.
  - cbn. rewrite Z.sub_0_r, firstn_skipn. symmetry. apply cursor_eta.
  - rewrite Nat.iter_succ, IH by (try exact H; lia). clear IH.
    unfold inBounds in H. unfold backspace. cbn [text offset columns].
    destruct (Z.eqb_spec (offset c - Z.of_nat n) 0); [lia|].
    set (k := offset c - Z.of_nat n) in *.
    assert (Hk : len (firstn (Z.to_nat k) (text c)) = k)
      by (apply len_firstn; lia).
    f_equal; [|lia]. f_equal.
    + rewrite slice_prefix
        by (rewrite len_app, Hk; pose proof (len_nonneg (skipn (Z.to_nat (offset c)) (text c))); lia).
      rewrite firstn_app, firstn_firstn.
      replace (Z.to_nat (k - 1) - length (firstn (Z.to_nat k) (text c)))%nat with O
        by (unfold len in Hk; lia).
      cbn [firstn]. rewrite app_nil_r. f_equal; lia.
    + pose proof (slice_from_app (firstn (Z.to_nat k) (text c))
                  (skipn (Z.to_nat (offset c)) (text c))) as S.
      now rewrite Hk in S.
Qed.

(** X8. On a cursor within its bounds, deleting the word before the caret
    is pressing backspace once for each code unit between the offset of
    [prevWord()] and the caret, and deleting to the start of the line is
    pressing backspace once for each column of the caret. *)
Theorem deletions_are_backspaces (c : Cursor) :
  inBounds c ->
  deleteWordBefore c
  = backspaces (Z.to_nat (offset c - offset (prevWord c))) c
  /\ deleteToLineStart c = backspaces (Z.to_nat (snd (getLineColumn c))) c.
Proof.
  intros H. pose proof (prevWord_le c) as Hp. pose proof H as Hb.
  unfold inBounds in Hb. split.
  - rewrite backspaces_remove by (try exact H; lia).
    unfold deleteWordBefore.
    rewrite slice_prefix, slice_from_suffix by lia.
    f_equal; [f_equal; f_equal; lia | lia].
  - destruct (locate c H) as (A & x & y & B & L).
    rewrite (located_lineColumn c A x y B L). cbn [snd].
    pose proof (len_nonneg x). pose proof (len_nonneg (before LF A)).
    pose proof L as (Ht & Ho & _).
    rewrite backspaces_remove by (try exact H; lia).
    rewrite (located_deleteToLineStart c A x y B L).
    rewrite Z2Nat.id by lia.
    replace (offset c - len x) with (len (before LF A)) by lia.
    f_equal. rewrite Ho, Ht.
    destruct (located_slices A x y B) as (E1 & _ & E3 & _). cbn zeta in E1, E3.
    rewrite <- slice_prefix, <- slice_from_suffix, E1, E3; [reflexivity| |];
      rewrite !len_app; pose proof (len_nonneg y);
      pose proof (len_nonneg (after LF B)); lia.
Qed.

Lemma deletions_are_backspaces_witness :
  deleteWordBefore hello_at_11 = backspaces 5 hello_at_11
  /\ deleteToLineStart line2_at_3 = backspaces 3 line2_at_3.
Proof.
  split.
  - apply (proj1 (deletions_are_backspaces hello_at_11 ltac:(bounds_by_computation))).
  - apply (proj2 (deletions_are_backspaces line2_at_3 ltac:(bounds_by_computation))).
Defined.

(** X9. On a cursor within its bounds: two insertions in a row are the
    insertion of the two strings joined; before the end of the text,
    [del()] is [right()] then [backspace()]; after the start of the text,
    inserting back the code unit that [backspace()] removed gives the
    cursor back; and at the end of the text [del()] changes nothing and
    [right()] then [backspace()] is [backspace()], which changes the cursor
    unless the text is empty. *)
Theorem edits_compose (c : Cursor) :
  inBounds c ->
  (forall a b, insert (insert c a) b = insert c (a ++ b))
  /\ (offset c < len (text c) -> del c = backspace (right c))
  /\ (0 < offset c ->
      exists x, get (text c) (offset c - 1) = Some x
                /\ insert (backspace c) [x] = c)
  /\ (offset c = len (text c) ->
      del c = c
      /\ backspace (right c) = backspace c
      /\ (0 < len (text c) -> backspace (right c) <> c)
      /\ (len (text c) = 0 -> backspace (right c) = c)).
Proof.
  intros H. unfold inBounds in H. split; [|split; [|split]]; cycle 3.
  { intros He.
    assert (Er : right c = c).
    { unfold right. replace (Z.min (len (text c)) (offset c + 1)) with (offset c) by lia.
      apply cursor_eta. }
    rewrite Er. split; [|split; [reflexivity|split]].
    - unfold del. destruct (Z.geb_spec (offset c) (len (text c))); [reflexivity | lia].
    - intros Hpos E. unfold backspace in E.
      destruct (Z.eqb_spec (offset c) 0) as [E0|_]; [lia|].
      apply (f_equal offset) in E. cbn [offset] in E. lia.
    - intros Hz. unfold backspace.
      destruct (Z.eqb_spec (offset c) 0) as [_|N]; [reflexivity | lia]. }
  - intros a b. unfold insert. cbn [text offset columns].
    set (pre := slice (text c) 0 (offset c)).
    set (post := slice_from (text c) (offset c)).
    assert (Hpre : len pre = offset c) by (apply len_slice_prefix; exact H).
    f_equal; [|rewrite len_app; lia].
    replace (offset c + len a) with (len (pre ++ a)) by (rewrite len_app; lia).
    replace (pre ++ a ++ post) with ((pre ++ a) ++ post) by (now rewrite <- app_assoc).
    rewrite slice_prefix_app, slice_from_app. now rewrite <- !app_assoc.
  - intros Hlt. unfold del, backspace, right. cbn [text offset columns].
    destruct (Z.geb_spec (offset c) (len (text c))) as [G|_]; [lia|].
    replace (Z.min (len (text c)) (offset c + 1)) with (offset c + 1) by lia.
    destruct (Z.eqb_spec (offset c + 1) 0) as [E|_]; [lia|].
    replace (offset c + 1 - 1) with (offset c) by lia. reflexivity.
  - intros Hpos.
    pose proof (three_parts (text c) (offset c - 1) (offset c)) as P.
    rewrite slice_between in P by lia.
    replace (Z.to_nat (offset c - (offset c - 1))) with 1%nat in P by lia.
    destruct (skipn (Z.to_nat (offset c - 1)) (text c)) as [|x rest] eqn:E.
    { apply (f_equal (@length _)) in E. rewrite length_skipn in E.
      unfold len in H. cbn in E. lia. }
    cbn [firstn] in P. exists x.
    set (pre := firstn (Z.to_nat (offset c - 1)) (text c)) in *.
    set (post := skipn (Z.to_nat (offset c)) (text c)) in *.
    assert (Hpre : len pre = offset c - 1) by (apply len_firstn; lia).
    specialize (P ltac:(lia) ltac:(lia)).
    split.
    + rewrite P, <- Hpre. apply get_at.
    + unfold backspace. destruct (Z.eqb_spec (offset c) 0); [lia|].
      unfold insert. cbn [text offset columns].
      rewrite (slice_prefix (text c) (offset c - 1)), slice_from_suffix by lia.
      fold pre post. rewrite <- Hpre.
      rewrite slice_prefix_app, slice_from_app.
      transitivity (mk (text c) (columns c) (offset c)); [|apply cursor_eta].
      f_equal.
      * symmetry. exact P.
      * change (len [x]) with 1. lia.
Qed.

Lemma edits_compose_witness :
  del hello_at_5 = backspace (right hello_at_5)
  /\ (exists x, get (text hello_at_5) (offset hello_at_5 - 1) = Some x
                /\ insert (backspace hello_at_5) [x] = hello_at_5)
  /\ del hello_at_11 = hello_at_11
  /\ backspace (right hello_at_11) <> hello_at_11.
Proof.
  destruct (edits_compose hello_at_5) as (_ & H2 & H3 & _);
    [bounds_by_computation|].
  destruct (edits_compose hello_at_11) as (_ & _ & _ & H4);
    [bounds_by_computation|].
  destruct (H4 eq_refl) as (D & _ & N & _).
  split; [apply H2; reflexivity|]. split; [apply H3; reflexivity|].
  split; [exact D | apply N; reflexivity].
Defined.

End EditTheorems.

(** ** Words *)

Module WordTheorems.
Import JS JSFacts Lines Cursor CursorFacts.

Ltac bounds_by_computation := unfold inBounds; vm_compute; split; discriminate.

Section Scans.

Variable guard : Z -> bool.

(** Every value a loop went through satisfied its guard. *)
Lemma while_back_all (fuel : nat) (n x : Z) :
  while fuel guard Z.pred n < x <= n -> guard x = true.
Proof.
  revert n. induction fuel as [|f IH]; intros n H; cbn [while] in H; [lia|].
  destruct (guard n) eqn:E; [|lia].
  destruct (Z.eq_dec x n) as [->|Hne]; [exact E|].
  apply (IH (Z.pred n)). lia.
Qed.

Lemma while_fwd_all (fuel : nat) (n x : Z) :
  n <= x < while fuel guard Z.succ n -> guard x = true.
Proof.
  revert n. induction fuel as [|f IH]; intros n H; cbn [while] in H; [lia|].
  destruct (guard n) eqn:E; [|lia].
  destruct (Z.eq_dec x n) as [->|Hne]; [exact E|].
  apply (IH (Z.succ n)). lia.
Qed.

End Scans.

(** Where a scan stops is determined by the text: the first position,
    going back (forward), at which the guard fails. *)
Lemma scanBack_unique (t : jsstring) (b : bool) (n r : Z) :
  r <= n -> (forall x, r < x <= n -> backCond t b x = true) ->
  backCond t b r = false -> scanBack t b n = r.
Proof.
  intros Hr Hall Hexit.
  pose proof (scanBack_exit t b n) as Hexit'.
  pose proof (scanBack_range t b n) as Hrange.
  destruct (Z.lt_trichotomy (scanBack t b n) r) as [Hlt|[E|Hgt]]; [|exact E|].
  - pose proof (while_back_all (backCond t b) (Z.to_nat n) n r) as G.
    fold (scanBack t b n) in G. rewrite G in Hexit by lia. discriminate.
  - rewrite Hall in Hexit' by lia. discriminate.
Qed.

Lemma scanFwd_unique (t : jsstring) (b : bool) (n r : Z) :
  n <= r -> (forall x, n <= x < r -> fwdCond t b x = true) ->
  fwdCond t b r = false -> scanFwd t b n = r.
Proof.
  intros Hr Hall Hexit.
  pose proof (scanFwd_exit t b n) as Hexit'.
  pose proof (scanFwd_range t b n) as Hrange.
  destruct (Z.lt_trichotomy (scanFwd t b n) r) as [Hlt|[E|Hgt]]; [|exact E|].
  - rewrite Hall in Hexit' by lia. discriminate.
  - pose proof (while_fwd_all (fwdCond t b) (Z.to_nat (len t - n)) n r) as G.
    fold (scanFwd t b n) in G. rewrite G in Hexit by lia. discriminate.
Qed.

Lemma backCond_true (t : jsstring) (b : bool) (x : Z) :
  backCond t b x = true <-> 0 < x /\ test_space t (x - 1) = b.
Proof.
  unfold backCond. rewrite andb_true_iff, Z.ltb_lt, eqb_true_iff. tauto.
Qed.

Lemma backCond_false (t : jsstring) (b : bool) (x : Z) :
  backCond t b x = false <-> x <= 0 \/ test_space t (x - 1) = negb b.
Proof.
  unfold backCond. rewrite andb_false_iff, Z.ltb_ge, eqb_false_iff.
  destruct (test_space t (x - 1)), b; cbn; intuition congruence.
Qed.

Lemma fwdCond_true (t : jsstring) (b : bool) (x : Z) :
  fwdCond t b x = true <-> x < len t /\ test_space t x = b.
Proof.
  unfold fwdCond. rewrite andb_true_iff, Z.ltb_lt, eqb_true_iff. tauto.
Qed.

Lemma fwdCond_false (t : jsstring) (b : bool) (x : Z) :
  fwdCond t b x = false <-> len t <= x \/ test_space t x = negb b.
Proof.
  unfold fwdCond. rewrite andb_false_iff, Z.ltb_ge, eqb_false_iff.
  destruct (test_space t x), b; cbn; intuition congruence.
Qed.

Lemma scanBack_all (t : jsstring) (b : bool) (n i : Z) :
  scanBack t b n <= i < n -> 0 <= i /\ test_space t i = b.
Proof.
  intros Hi.
  pose proof (while_back_all (backCond t b) (Z.to_nat n) n (i + 1)) as G.
  fold (scanBack t b n) in G. apply backCond_true in G; [|lia].
  replace (i + 1 - 1) with i in G by lia. split; [lia | tauto].
Qed.

Lemma scanFwd_all (t : jsstring) (b : bool) (n i : Z) :
  n <= i < scanFwd t b n -> i < len t /\ test_space t i = b.
Proof.
  intros Hi.
  pose proof (while_fwd_all (fwdCond t b) (Z.to_nat (len t - n)) n i) as G.
  fold (scanFwd t b n) in G. now apply fwdCond_true in G.
Qed.

(** X10. What [prevWord()] skips, on a cursor within its bounds: going
    back from the caret, the whole run of whitespace there, down to an
    offset [m] that is 0 or comes right after a code unit that is not
    whitespace; then the whole run of code units that are not whitespace,
    down to the offset returned, which is 0 or comes right after
    whitespace.  No other offset has these properties.  [nextWord()] skips,
    going forward, the whole run that is not whitespace, up to an offset
    [m] that is the end of the text or holds whitespace, and then the whole
    run of whitespace, and stops at the end of the text or at a code unit
    that is not whitespace; no other offset has these properties. *)
Theorem word_scans (c : Cursor) :
  inBounds c ->
  (exists m,
     offset (prevWord c) <= m <= offset c
     /\ (forall i, m <= i < offset c -> test_space (text c) i = true)
     /\ (m = 0 \/ test_space (text c) (m - 1) = false)
     /\ (forall i, offset (prevWord c) <= i < m -> test_space (text c) i = false)
     /\ (offset (prevWord c) = 0
         \/ test_space (text c) (offset (prevWord c) - 1) = true))
  /\ (forall r m,
     0 <= r <= m -> m <= offset c ->
     (forall i, m <= i < offset c -> test_space (text c) i = true) ->
     m = 0 \/ test_space (text c) (m - 1) = false ->
     (forall i, r <= i < m -> test_space (text c) i = false) ->
     r = 0 \/ test_space (text c) (r - 1) = true ->
     offset (prevWord c) = r)
  /\ (exists m,
     offset c <= m <= offset (nextWord c)
     /\ (forall i, offset c <= i < m -> test_space (text c) i = false)
     /\ (m = len (text c) \/ test_space (text c) m = true)
     /\ (forall i, m <= i < offset (nextWord c) -> test_space (text c) i = true)
     /\ (offset (nextWord c) = len (text c)
         \/ test_space (text c) (offset (nextWord c)) = false))
  /\ (forall r m,
     offset c <= m -> m <= r <= len (text c) ->
     (forall i, offset c <= i < m -> test_space (text c) i = false) ->
     m = len (text c) \/ test_space (text c) m = true ->
     (forall i, m <= i < r -> test_space (text c) i = true) ->
     r = len (text c) \/ test_space (text c) r = false ->
     offset (nextWord c) = r).
Proof.
  intros H. unfold inBounds in H. split; [|split; [|split]].
  - exists (scanBack (text c) true (offset c)).
    unfold prevWord. cbn [offset text].
    set (m := scanBack (text c) true (offset c)).
    set (p := scanBack (text c) false m).
    pose proof (scanBack_range (text c) true (offset c)) as R1.
    pose proof (scanBack_range (text c) false m) as R2.
    fold m in R1. fold p in R2.
    split; [lia|]. split; [|split; [|split]].
    + intros i Hi. apply (scanBack_all (text c) true (offset c) i). fold m. lia.
    + pose proof (scanBack_exit (text c) true (offset c)) as E. fold m in E.
      apply backCond_false in E. cbn [negb] in E. destruct E; [left; lia | now right].
    + intros i Hi. apply (scanBack_all (text c) false m i). fold p. lia.
    + pose proof (scanBack_exit (text c) false m) as E. fold p in E.
      apply backCond_false in E. cbn [negb] in E. destruct E; [left; lia | now right].
  - intros r m Hr Hm Hws Hmax Hword Hstop.
    unfold prevWord. cbn [offset].
    assert (E1 : scanBack (text c) true (offset c) = m).
    { apply scanBack_unique; [lia| |].
      - intros x Hx. apply backCond_true. split; [lia|]. apply Hws. lia.
      - apply backCond_false. cbn [negb]. destruct Hmax; [left; lia | now right]. }
    rewrite E1. apply scanBack_unique; [lia| |].
    + intros x Hx. apply backCond_true. split; [lia|]. apply Hword. lia.
    + apply backCond_false. cbn [negb]. destruct Hstop; [left; lia | now right].
  - exists (scanFwd (text c) false (offset c)).
    unfold nextWord. cbn [offset text].
    set (m := scanFwd (text c) false (offset c)).
    set (e := scanFwd (text c) true m).
    pose proof (scanFwd_range (text c) false (offset c)) as R1.
    pose proof (scanFwd_range (text c) true m) as R2.
    fold m in R1. fold e in R2.
    split; [lia|]. split; [|split; [|split]].
    + intros i Hi. apply (scanFwd_all (text c) false (offset c) i). fold m. lia.
    + pose proof (scanFwd_exit (text c) false (offset c)) as E. fold m in E.
      apply fwdCond_false in E. cbn [negb] in E. destruct E; [left; lia | now right].
    + intros i Hi. apply (scanFwd_all (text c) true m i). fold e. lia.
    + pose proof (scanFwd_exit (text c) true m) as E. fold e in E.
      apply fwdCond_false in E. cbn [negb] in E. destruct E; [left; lia | now right].
  - intros r m Hm Hr Hword Hmax Hws Hstop.
    unfold nextWord. cbn [offset].
    assert (E1 : scanFwd (text c) false (offset c) = m).
    { apply scanFwd_unique; [lia| |].
      - intros x Hx. apply fwdCond_true. split; [lia|]. apply Hword. lia.
      - apply fwdCond_false. cbn [negb]. destruct Hmax; [left; lia | now right]. }
    rewrite E1. apply scanFwd_unique; [lia| |].
    + intros x Hx. apply fwdCond_true. split; [lia|]. apply Hws. lia.
    + apply fwdCond_false. cbn [negb]. destruct Hstop; [left; lia | now right].
Qed.

(** In "hello world": back from offset 6 to offset 0, over the space and
    "hello"; forward from offset 0 to offset 6, over "hello" and the
    space. *)
Lemma word_scans_witness :
  offset (prevWord (mk ascii_hello_world 80 6)) = 0
  /\ offset (nextWord (mk ascii_hello_world 80 0)) = 6.
Proof.
  split.
  - apply (proj1 (proj2 (word_scans (mk ascii_hello_world 80 6)
                           ltac:(bounds_by_computation))) 0 5);
      cbn [offset text]; try lia.
    + intros i Hi. replace i with 5 by lia. reflexivity.
    + right. reflexivity.
    + intros i Hi.
      assert (Ei : i = 0 \/ i = 1 \/ i = 2 \/ i = 3 \/ i = 4) by lia.
      destruct Ei as [-> | [-> | [-> | [-> | ->]]]]; reflexivity.
  - apply (proj2 (proj2 (proj2 (word_scans (mk ascii_hello_world 80 0)
                                  ltac:(bounds_by_computation)))) 6 5);
      cbn [offset text]; try lia.
    + change (len ascii_hello_world) with 11. lia.
    + intros i Hi.
      assert (Ei : i = 0 \/ i = 1 \/ i = 2 \/ i = 3 \/ i = 4) by lia.
      destruct Ei as [-> | [-> | [-> | [-> | ->]]]]; reflexivity.
    + right. reflexivity.
    + intros i Hi. replace i with 5 by lia. reflexivity.
    + right. reflexivity.
Defined.

(** X11. [prevWord()] and [nextWord()] undo each other at word starts.  On
    a cursor within its bounds whose caret is before a code unit that is
    not whitespace, and at offset 0 or after whitespace, [nextWord()] then
    [prevWord()] gives the cursor back; on one whose caret is after
    whitespace, and at the end of the text or before a code unit that is not
    whitespace, [prevWord()] then [nextWord()] does. *)
Theorem word_moves_inverse (c : Cursor) :
  inBounds c ->
  (offset c < len (text c) -> test_space (text c) (offset c) = false ->
   offset c = 0 \/ test_space (text c) (offset c - 1) = true ->
   prevWord (nextWord c) = c)
  /\ (0 < offset c -> test_space (text c) (offset c - 1) = true ->
   offset c = len (text c) \/ test_space (text c) (offset c) = false ->
   nextWord (prevWord c) = c).
Proof.
  intros H. unfold inBounds in H. split.
  - intros Hlt Hword Hstart.
    set (m := scanFwd (text c) false (offset c)).
    set (e := scanFwd (text c) true m).
    pose proof (scanFwd_range (text c) false (offset c)) as R1. fold m in R1.
    pose proof (scanFwd_range (text c) true m) as R2. fold e in R2.
    assert (Hm : offset c < m).
    { pose proof (scanFwd_exit (text c) false (offset c)) as E. fold m in E.
      destruct (Z.eq_dec m (offset c)) as [Em|]; [|lia].
      rewrite Em in E. apply fwdCond_false in E. cbn [negb] in E.
      destruct E; [lia | congruence]. }
    assert (B1 : scanBack (text c) true e = m).
    { apply scanBack_unique; [lia| |].
      - intros x Hx. apply backCond_true. split; [lia|].
        apply (scanFwd_all (text c) true m (x - 1)). fold e. lia.
      - apply backCond_false. right. cbn [negb].
        apply (scanFwd_all (text c) false (offset c) (m - 1)). fold m. lia. }
    assert (B2 : scanBack (text c) false m = offset c).
    { apply scanBack_unique; [lia| |].
      - intros x Hx. apply backCond_true. split; [lia|].
        apply (scanFwd_all (text c) false (offset c) (x - 1)). fold m. lia.
      - apply backCond_false. cbn [negb]. destruct Hstart; [left; lia | now right]. }
    unfold prevWord, nextWord. cbn [text offset columns]. fold m. fold e.
    rewrite B1, B2. apply LineFacts.cursor_eta.
  - intros Hpos Hsp Hend.
    set (m := scanBack (text c) true (offset c)).
    set (p := scanBack (text c) false m).
    pose proof (scanBack_range (text c) true (offset c)) as R1. fold m in R1.
    pose proof (scanBack_range (text c) false m) as R2. fold p in R2.
    assert (Hm : m < offset c).
    { pose proof (scanBack_exit (text c) true (offset c)) as E. fold m in E.
      destruct (Z.eq_dec m (offset c)) as [Em|]; [|lia].
      rewrite Em in E. apply backCond_false in E. cbn [negb] in E.
      destruct E; [lia | congruence]. }
    assert (F1 : scanFwd (text c) false p = m).
    { apply scanFwd_unique; [lia| |].
      - intros x Hx. apply fwdCond_true. split; [lia|].
        apply (scanBack_all (text c) false m x). fold p. lia.
      - apply fwdCond_false. right. cbn [negb].
        apply (scanBack_all (text c) true (offset c) m). fold m. lia. }
    assert (F2 : scanFwd (text c) true m = offset c).
    { apply scanFwd_unique; [lia| |].
      - intros x Hx. apply fwdCond_true. split; [lia|].
        apply (scanBack_all (text c) true (offset c) x). fold m. lia.
      - apply fwdCond_false. cbn [negb]. destruct Hend; [left; lia | now right]. }
    unfold prevWord, nextWord. cbn [text offset columns]. fold m. fold p.
    rewrite F1, F2. apply LineFacts.cursor_eta.
Qed.

Lemma word_moves_inverse_witness :
  prevWord (nextWord (mk ascii_hello_world 80 0)) = mk ascii_hello_world 80 0
  /\ nextWord (prevWord (mk ascii_hello_world 80 6)) = mk ascii_hello_world 80 6.
Proof.
  split.
  - apply (proj1 (word_moves_inverse (mk ascii_hello_world 80 0)
                    ltac:(bounds_by_computation)));
      [reflexivity | reflexivity | now left].
  - apply (proj2 (word_moves_inverse (mk ascii_hello_world 80 6)
                    ltac:(bounds_by_computation)));
      [reflexivity | reflexivity | now right].
Defined.

End WordTheorems.

(** ** Rendering *)

Module RenderTheorems.
Import JS JSFacts Cursor CursorFacts.

Ltac bounds_by_computation := unfold inBounds; vm_compute; split; discriminate.

Lemma repeat_nat_length (s : jsstring) (n : nat) :
  length (repeat_nat s n) = (n * length s)%nat.
Proof.
  induction n as [|n IH]; [reflexivity|]. cbn. rewrite length_app, IH. lia.
Qed.

Lemma repeat_nat_add (s : jsstring) (a b : nat) :
  repeat_nat s (a + b) = repeat_nat s a ++ repeat_nat s b.
Proof.
  induction a as [|a IH]; [reflexivity|]. cbn. now rewrite IH, app_assoc.
Qed.

(** X12. A non-empty mask hides the text: two cursors with texts of the
    same length and the same offset render to the same string. *)
Theorem render_mask_hides (chalk_inverse : jsstring -> jsstring)
    (t1 t2 : jsstring) (w1 w2 off : Z) (cursorChar mask : jsstring)
    (invert : option (jsstring -> jsstring)) :
  len t1 = len t2 -> mask <> [] ->
  render chalk_inverse (mk t1 w1 off) cursorChar (Some mask) invert
  = render chalk_inverse (mk t2 w2 off) cursorChar (Some mask) invert.
Proof.
  intros Hlen Hm. unfold render. cbn [text offset].
  destruct mask as [|m mask]; [contradiction|]. cbn [truthy].
  now rewrite Hlen.
Qed.

Lemma render_mask_hides_witness :
  render (fun s => s) (mk [97; 98; 99]%N 80 1) [124%N] (Some [42%N]) None
  = render (fun s => s) (mk [120; 121; 122]%N 40 1) [124%N] (Some [42%N]) None.
Proof.
  apply render_mask_hides; [reflexivity | discriminate].
Defined.

(** X13. The layout of a rendering, for a cursor within its bounds and a
    non-empty cursor glyph.  Without a mask it is the text with the
    inverted glyph spliced in at the offset; with a mask of one code unit
    it is one mask unit for each code unit before the caret, the inverted
    glyph, and one mask unit for each code unit after it.  With an empty
    glyph and no mask it is the text. *)
Theorem render_layout (chalk_inverse : jsstring -> jsstring) (c : Cursor)
    (cursorChar : jsstring) (invert : jsstring -> jsstring) :
  inBounds c ->
  (cursorChar <> [] ->
   render chalk_inverse c cursorChar None (Some invert)
   = firstn (Z.to_nat (offset c)) (text c) ++ invert cursorChar
     ++ skipn (Z.to_nat (offset c)) (text c))
  /\ (cursorChar <> [] -> forall m,
   render chalk_inverse c cursorChar (Some [m]) (Some invert)
   = repeat_nat [m] (Z.to_nat (offset c)) ++ invert cursorChar
     ++ repeat_nat [m] (Z.to_nat (len (text c) - offset c)))
  /\ render chalk_inverse c [] None (Some invert) = text c.
Proof.
  intros H. unfold inBounds in H. split; [|split].
  - intros Hc. unfold render. destruct cursorChar as [|g gs]; [contradiction|].
    cbn [truthy andb]. destruct (Z.leb_spec (offset c) (len (text c))); [|lia].
    now rewrite slice_prefix, slice_from_suffix by lia.
  - intros Hc m. unfold render. destruct cursorChar as [|g gs]; [contradiction|].
    cbn [truthy andb]. unfold repeat.
    set (n := Z.to_nat (len (text c))).
    assert (Hn : len (repeat_nat [m] n) = len (text c)).
    { unfold len. rewrite repeat_nat_length. cbn [length]. subst n. unfold len. lia. }
    rewrite Hn. destruct (Z.leb_spec (offset c) (len (text c))); [|lia].
    replace n with (Z.to_nat (offset c) + Z.to_nat (len (text c) - offset c))%nat
      by (subst n; lia).
    rewrite repeat_nat_add.
    assert (Hk : len (repeat_nat [m] (Z.to_nat (offset c))) = offset c).
    { unfold len. rewrite repeat_nat_length. cbn [length]. lia. }
    pose proof (slice_prefix_app (repeat_nat [m] (Z.to_nat (offset c)))
                  (repeat_nat [m] (Z.to_nat (len (text c) - offset c)))) as S1.
    pose proof (slice_from_app (repeat_nat [m] (Z.to_nat (offset c)))
                  (repeat_nat [m] (Z.to_nat (len (text c) - offset c)))) as S2.
    rewrite Hk in S1, S2. now rewrite S1, S2.
  - reflexivity.
Qed.

Lemma render_layout_witness :
  render (fun s => s) hello_at_5 [124%N] (Some [42%N]) (Some (fun s => s))
  = repeat_nat [42%N] 5 ++ [124%N] ++ repeat_nat [42%N] 6.
Proof.
  apply (proj1 (proj2 (render_layout (fun s => s) hello_at_5 [124%N] (fun s => s)
                         ltac:(bounds_by_computation)))).
  discriminate.
Defined.

End RenderTheorems.

(** ** The dispatcher and its host *)

Module HostTheorems.
Import JS JSFacts Key Dispatch Host CursorFacts DispatchFacts.

Lemma cursor_inBounds (p : props) : Cursor.inBounds (cursor p).
Proof. apply fromText_inBounds. Qed.

Lemma nav_inBounds (p : props) (n : Cursor.nav) :
  Cursor.inBounds (Cursor.applyNav n (cursor p)).
Proof. apply applyNav_inBounds, cursor_inBounds. Qed.

Lemma edit_inBounds (p : props) (e : Cursor.edit) :
  Cursor.inBounds (Cursor.applyEdit e (cursor p)).
Proof. apply applyEdit_inBounds, cursor_inBounds. Qed.

Lemma maybeClear_silent (p : props) :
  silent (fst (maybeClearImagePasteErrorTimeout p)).
Proof.
  unfold maybeClearImagePasteErrorTimeout.
  destruct (imagePasteErrorTimeout p); cbn; repeat constructor.
Qed.

(** A handler that makes silent calls and returns a cursor in bounds. *)
Lemma ok_silent (p : props) (l : list effect) (nc : Cursor.Cursor) :
  silent l -> Cursor.inBounds nc -> handlerOk p (l, Some nc).
Proof. intros Hl Hnc. split; [exact Hnc | now left]. Qed.

Lemma ok_after_clear (p : props) (nc : Cursor.Cursor) :
  Cursor.inBounds nc ->
  handlerOk p (maybeClearImagePasteErrorTimeout p ;;; ret (Some nc)).
Proof.
  intros Hnc. pose proof (maybeClear_silent p) as S.
  destruct (maybeClearImagePasteErrorTimeout p) as [l []]. cbn [fst] in S.
  cbn [bind ret]. rewrite app_nil_r. now apply ok_silent.
Qed.

Lemma ok_ret (p : props) (nc : Cursor.Cursor) :
  Cursor.inBounds nc -> handlerOk p (ret (Some nc)).
Proof. intros H. apply ok_silent; [constructor | exact H]. Qed.

Lemma upOrHistoryUp_ok (p : props) (i : jsstring) : handlerOk p (upOrHistoryUp p i).
Proof.
  unfold upOrHistoryUp. destruct (disableCursorMovementForUpDownKeys p).
  - cbn. apply ok_silent; [repeat constructor | apply cursor_inBounds].
  - destruct (Cursor.equals _ _); cbn [bind ret emit app];
      (apply ok_silent; [repeat constructor | apply (nav_inBounds p Cursor.Up)]).
Qed.

Lemma downOrHistoryDown_ok (p : props) (i : jsstring) :
  handlerOk p (downOrHistoryDown p i).
Proof.
  unfold downOrHistoryDown. destruct (disableCursorMovementForUpDownKeys p).
  - cbn. apply ok_silent; [repeat constructor | apply cursor_inBounds].
  - destruct (Cursor.equals _ _); cbn [bind ret emit app];
      (apply ok_silent; [repeat constructor | apply (nav_inBounds p Cursor.Down)]).
Qed.

Lemma handleCtrlD_ok (p : props) (i : jsstring) : handlerOk p (handleCtrlD p i).
Proof.
  unfold handleCtrlD. pose proof (maybeClear_silent p) as S.
  destruct (maybeClearImagePasteErrorTimeout p) as [l []]. cbn [fst] in S.
  destruct (eqb (Cursor.text (cursor p)) []); cbn [bind ret emit app].
  - apply ok_silent; [|apply cursor_inBounds].
    apply Forall_app. split; [exact S | repeat constructor].
  - rewrite app_nil_r. apply ok_silent; [exact S | apply (edit_inBounds p Cursor.Del)].
Qed.

Lemma tryImagePaste_ok (p : props) (i : jsstring) : handlerOk p (tryImagePaste p i).
Proof.
  unfold tryImagePaste. pose proof (maybeClear_silent p) as S.
  destruct (clipboardImage p).
  - cbn. apply ok_silent; [repeat constructor | apply cursor_inBounds].
  - destruct (platformDarwin p); cbn [negb].
    + destruct (maybeClearImagePasteErrorTimeout p) as [l []]. cbn [fst] in S.
      cbn [bind ret emit app]. apply ok_silent; [|apply cursor_inBounds].
      constructor; [reflexivity|]. apply Forall_app. split; [exact S|repeat constructor].
    + apply ok_ret, cursor_inBounds.
Qed.

Lemma clear_ok (p : props) :
  handlerOk p (c <- clear p ;; ret (Some c)).
Proof.
  cbn. split; [apply fromText_inBounds | right; now split].
Qed.

(** What [mapGet] finds is an entry of the table. *)
Lemma mapGet_In {V : Type} (table : list (jsstring * V)) (k : jsstring) (v : V) :
  mapGet table k = Some v -> In (k, v) table.
Proof.
  induction table as [|[k' v'] rest IH]; cbn [mapGet]; [discriminate|].
  destruct (mapGet rest k) as [v''|].
  - intros E. right. apply IH. exact E.
  - destruct (eqb k' k) eqn:Ek; [|discriminate].
    intros E. injection E as ->. apply eqb_eq in Ek. subst. now left.
Qed.

Lemma mapGet_missing {V : Type} (table : list (jsstring * V)) (k : jsstring) :
  ~ In k (map fst table) -> mapGet table k = None.
Proof.
  induction table as [|[k' v'] rest IH]; cbn [mapGet map fst In]; [reflexivity|].
  intros H. rewrite IH by tauto.
  destruct (eqb k' k) eqn:Ek; [|reflexivity].
  apply eqb_eq in Ek. tauto.
Qed.

Lemma mapInput_ok (p : props) (table : list (jsstring * InputHandler)) :
  (forall k h, In (k, h) table -> forall i, handlerOk p (h i)) ->
  forall i, handlerOk p (mapInput table i).
Proof.
  intros H i. unfold mapInput. destruct (mapGet table i) as [h|] eqn:E.
  - apply (H i h). now apply mapGet_In.
  - cbn. constructor.
Qed.

Lemma handleCtrl_ok (p : props) (i : jsstring) : handlerOk p (handleCtrl p i).
Proof.
  unfold handleCtrl. apply mapInput_ok. intros k h Hin j.
  cbn [In] in Hin.
  repeat (destruct Hin as [E|Hin]; [injection E as _ <-|]); try contradiction.
  - apply ok_ret, (nav_inBounds p Cursor.StartOfLine).
  - apply ok_ret, (nav_inBounds p Cursor.Left).
  - cbn. apply ok_silent; [repeat constructor | apply cursor_inBounds].
  - apply handleCtrlD_ok.
  - apply ok_ret, (nav_inBounds p Cursor.EndOfLine).
  - apply ok_ret, (nav_inBounds p Cursor.Right).
  - apply ok_after_clear, (edit_inBounds p Cursor.Backspace).
  - apply ok_ret, (edit_inBounds p Cursor.DeleteToLineEnd).
  - apply clear_ok.
  - apply downOrHistoryDown_ok.
  - apply upOrHistoryUp_ok.
  - apply ok_ret, (edit_inBounds p Cursor.DeleteToLineStart).
  - apply tryImagePaste_ok.
  - apply ok_ret, (edit_inBounds p Cursor.DeleteWordBefore).
Qed.

Lemma handleMeta_ok (p : props) (i : jsstring) : handlerOk p (handleMeta p i).
Proof.
  unfold handleMeta. apply mapInput_ok. intros k h Hin j.
  cbn [In] in Hin.
  repeat (destruct Hin as [E|Hin]; [injection E as _ <-|]); try contradiction.
  - apply ok_ret, (nav_inBounds p Cursor.PrevWord).
  - apply ok_ret, (nav_inBounds p Cursor.NextWord).
  - apply ok_ret, (edit_inBounds p Cursor.DeleteWordAfter).
Qed.

Lemma handleEnter_ok (p : props) (key : Key) : handlerOk p (handleEnter p key).
Proof.
  unfold handleEnter.
  destruct (_ && _ && _).
  - apply ok_ret.
    apply (applyEdit_inBounds (Cursor.Insert [LF])), (edit_inBounds p Cursor.Backspace).
  - destruct (meta key).
    + apply ok_ret, (edit_inBounds p (Cursor.Insert [LF])).
    + cbn. repeat constructor.
Qed.

Lemma fallback_ok (p : props) (i : jsstring) : handlerOk p (fallback p i).
Proof.
  unfold fallback.
  destruct (_ || _); [apply ok_ret, (nav_inBounds p Cursor.StartOfLine)|].
  destruct (_ || _); [apply ok_ret, (nav_inBounds p Cursor.EndOfLine)|].
  destruct (isBackspaceLiteral i).
  - apply ok_after_clear, (edit_inBounds p Cursor.Backspace).
  - apply ok_ret, (edit_inBounds p (Cursor.Insert (replace_cr i))).
Qed.

Lemma mapKey_ok (p : props) (key : Key) :
  silent (fst (mapKey p key))
  /\ forall i, handlerOk p (snd (mapKey p key) i).
Proof.
  unfold mapKey.
  destruct (backspace key || delete key).
  { pose proof (maybeClear_silent p) as S.
    destruct (maybeClearImagePasteErrorTimeout p) as [l []]. cbn [fst] in S.
    cbn [bind ret fst snd]. rewrite app_nil_r. split; [exact S|].
    intros i. apply ok_ret, (edit_inBounds p Cursor.Backspace). }
  destruct (return_ key);
    [split; [constructor | intros i; apply handleEnter_ok]|].
  destruct (escape key);
    [split; [constructor | intros i; cbn;
       apply ok_silent; [repeat constructor | apply cursor_inBounds]]|].
  destruct (leftArrow key && (ctrl key || meta key));
    [split; [constructor | intros i; apply ok_ret, (nav_inBounds p Cursor.PrevWord)]|].
  destruct (rightArrow key && (ctrl key || meta key));
    [split; [constructor | intros i; apply ok_ret, (nav_inBounds p Cursor.NextWord)]|].
  destruct (ctrl key); [split; [constructor | apply handleCtrl_ok]|].
  destruct (pageDown key);
    [split; [constructor | intros i; apply ok_ret, (nav_inBounds p Cursor.EndOfLine)]|].
  destruct (pageUp key);
    [split; [constructor | intros i; apply ok_ret, (nav_inBounds p Cursor.StartOfLine)]|].
  destruct (meta key); [split; [constructor | apply handleMeta_ok]|].
  destruct (tab key); [split; [constructor | intros i; cbn; constructor]|].
  destruct (upArrow key); [split; [constructor | apply upOrHistoryUp_ok]|].
  destruct (downArrow key); [split; [constructor | apply downOrHistoryDown_ok]|].
  destruct (leftArrow key);
    [split; [constructor | intros i; apply ok_ret, (nav_inBounds p Cursor.Left)]|].
  destruct (rightArrow key);
    [split; [constructor | intros i; apply ok_ret, (nav_inBounds p Cursor.Right)]|].
  split; [constructor | apply fallback_ok].
Qed.

Lemma commit_effects (p : props) (nc : Cursor.Cursor) :
  fst (commit p nc)
  = if Cursor.equals (cursor p) nc then []
    else SetOffset (Cursor.offset nc)
         :: (if eqb (value p) (Cursor.text nc) then []
             else [OnChange (Cursor.text nc)]).
Proof.
  unfold commit. destruct (Cursor.equals (cursor p) nc); [reflexivity|].
  cbn [negb]. change (Cursor.text (cursor p)) with (value p).
  destruct (eqb (value p) (Cursor.text nc)); reflexivity.
Qed.

Lemma commit_effects_full (p : props) (nc : Cursor.Cursor) :
  commit p nc
  = (if Cursor.equals (cursor p) nc then []
     else SetOffset (Cursor.offset nc)
          :: (if eqb (value p) (Cursor.text nc) then []
              else [OnChange (Cursor.text nc)]), tt).
Proof.
  rewrite <- commit_effects. now destruct (commit p nc) as [l []].
Qed.

(** The shape of what [onInput] does: silent calls, then at most the
    [setOffset(0)] of [clear], then the commit of a cursor in bounds. *)
Lemma onInput_shape (p : props) (input : jsstring) (key : Key) :
  exists s w nc,
    fst (onInput p input key) = s ++ w ++ fst (commit p nc)
    /\ silent s /\ Cursor.inBounds nc
    /\ (w = [] \/ (w = [SetOffset 0] /\ nc = Cursor.fromText [] (columns p) 0)).
Proof.
  unfold onInput.
  destruct (backspace key || delete key || isBackspaceLiteral input).
  - exists [], [], (Cursor.backspace (cursor p)). cbn [app].
    split; [reflexivity|]. split; [constructor|].
    split; [apply (edit_inBounds p Cursor.Backspace) | now left].
  - destruct (mapKey_ok p key) as [S0 Hh].
    destruct (mapKey p key) as [l0 h]. cbn [fst snd] in S0, Hh.
    cbn [bind]. specialize (Hh input). destruct (h input) as [l1 [nc|]]; cbn [bind].
    + destruct (commit p nc) as [l2 []] eqn:Ec. cbn [fst].
      destruct Hh as [Hnc [S1 | [-> ->]]].
      * exists (l0 ++ l1), [], nc. rewrite Ec. cbn [fst app].
        rewrite <- app_assoc. split; [reflexivity|].
        split; [apply Forall_app; now split|]. split; [exact Hnc | now left].
      * exists l0, [SetOffset 0], (Cursor.fromText [] (columns p) 0).
        rewrite Ec. cbn [fst]. split; [reflexivity|]. split; [exact S0|].
        split; [exact Hnc | now right].
    + exists (l0 ++ l1), [], (cursor p). rewrite commit_same. cbn [ret fst app].
      rewrite !app_nil_r. split; [reflexivity|].
      split; [apply Forall_app; now split|].
      split; [apply cursor_inBounds | now left].
Qed.





























Lemma silent_no_change (l : list effect) : silent l -> filter isOnChange l = [].
Proof.
  induction l as [|e l IH]; intros H; [reflexivity|].
  apply Forall_cons_iff in H as [He Hl]. cbn [filter]. rewrite (IH Hl).
  destruct e; cbn in He |- *; try reflexivity; discriminate.
Qed.

(** X15. For any input and any key, [onInput] calls [onChange] at most
    once, and only with a text that differs from the current value. *)
Theorem onChange_only_on_change (p : props) (input : jsstring) (key : Key) :
  (length (filter isOnChange (fst (onInput p input key))) <= 1)%nat
  /\ forall t, In (OnChange t) (fst (onInput p input key)) -> t <> value p.
Proof.
  destruct (onInput_shape p input key) as (s & w & nc & E & Ss & Hnc & Hw).
  rewrite E, commit_effects.
  assert (Fw : filter isOnChange w = [])
    by (destruct Hw as [->|[-> _]]; reflexivity).
  split.
  - rewrite !filter_app, (silent_no_change s Ss), Fw. cbn [app].
    destruct (Cursor.equals (cursor p) nc); [cbn; lia|].
    destruct (eqb (value p) (Cursor.text nc)); cbn; lia.
  - intros t Hin. apply in_app_or in Hin as [Hin|Hin].
    { apply (proj1 (Forall_forall _ _) Ss) in Hin. discriminate. }
    apply in_app_or in Hin as [Hin|Hin].
    { destruct Hw as [->|[-> _]]; [contradiction|].
      destruct Hin as [Hin|[]]. discriminate. }
    destruct (Cursor.equals (cursor p) nc); [contradiction|].
    destruct Hin as [Hin|Hin]; [discriminate|].
    destruct (eqb (value p) (Cursor.text nc)) eqn:Et; [contradiction|].
    destruct Hin as [Hin|[]]. injection Hin as <-.
    intros Eq. rewrite Eq, eqb_refl in Et. discriminate.
Qed.

(** X16. A control chord whose letter is not in the table does nothing:
    [onInput] makes no call at all. *)
Theorem ctrl_unmapped_noop (p : props) (input : jsstring) (key : Key) :
  reachesCtrlTable key = true -> isBackspaceLiteral input = false ->
  ~ In input ctrlLetters ->
  onInput p input key = ([], tt).
Proof.
  intros Hk Hlit Hin. unfold reachesCtrlTable in Hk. flags.
  unfold onInput, mapKey.
  repeat match goal with H : _ = _ :> bool |- _ => rewrite H end.
  cbn [orb andb bind ret fst snd app].
  unfold handleCtrl, mapInput. rewrite mapGet_missing by exact Hin.
  reflexivity.
Qed.

Lemma ctrl_unmapped_noop_witness :
  onInput hello_props [122%N] ctrlKey = ([], tt).
Proof.
  apply ctrl_unmapped_noop; [reflexivity | reflexivity |].
  cbn. intuition discriminate.
Defined.

Lemma cursor_of_host (p : props) :
  0 <= externalOffset p <= len (value p) ->
  cursor p = Cursor.mk (value p) (columns p) (externalOffset p).
Proof.
  intros H. unfold cursor, Cursor.fromText. f_equal. lia.
Qed.

Lemma eqb_neq (a b : jsstring) : a <> b -> eqb a b = false.
Proof.
  intros H. destruct (eqb a b) eqn:E; [|reflexivity].
  apply eqb_eq in E. contradiction.
Qed.

Lemma eqb_len (a b : jsstring) : len a <> len b -> eqb a b = false.
Proof.
  intros H. destruct (eqb a b) eqn:E; [|reflexivity].
  apply eqb_eq in E. now subst.
Qed.

Lemma replace_cr_spec (s : jsstring) :
  len (replace_cr s) = len s /\ ~ In CR (replace_cr s).
Proof.
  unfold replace_cr. split.
  - unfold len. now rewrite length_map.
  - rewrite in_map_iff. intros (c & E & _).
    destruct (N.eqb_spec c CR); [discriminate | congruence].
Qed.

(** X17. Typing: for a key without flags and a non-empty literal that is
    neither a Home or End sequence nor a backspace code unit, with the host
    pair within bounds, [onInput] moves the offset forward by the length
    of the literal and reports the text with the literal spliced in at
    the offset, each carriage return in it replaced by a newline. *)
Theorem typed_text_is_inserted (p : props) (input : jsstring) (key : Key) :
  noFlag key = true -> isBackspaceLiteral input = false ->
  ~ In input [HOME1; HOME2; END1; END2] -> input <> [] ->
  0 <= externalOffset p <= len (value p) ->
  onInput p input key
  = ([SetOffset (externalOffset p + len input);
      OnChange (firstn (Z.to_nat (externalOffset p)) (value p)
                ++ replace_cr input
                ++ skipn (Z.to_nat (externalOffset p)) (value p))], tt)
  /\ ~ In CR (replace_cr input).
Proof.
  intros Hk Hlit Hseq Hne Hb. split; [|apply replace_cr_spec].
  destruct key. unfold noFlag, noModifier in Hk. cbn in Hk. flags. subst.
  unfold onInput, mapKey. cbn [backspace delete return_ escape leftArrow rightArrow
    ctrl meta pageDown pageUp tab upArrow downArrow orb andb bind ret fst snd app].
  rewrite Hlit. cbn [bind ret app]. unfold fallback. rewrite Hlit.
  rewrite !(eqb_neq input) by (intros ->; apply Hseq; cbn [In]; auto).
  cbn [orb bind ret app].
  rewrite commit_effects_full.
  rewrite (cursor_of_host p Hb). unfold Cursor.insert. cbn [Cursor.text Cursor.offset Cursor.columns].
  rewrite slice_prefix, slice_from_suffix by exact Hb.
  destruct (replace_cr_spec input) as [Hl _]. rewrite Hl.
  assert (Hpos : 0 < len input).
  { destruct input; [contradiction|]. unfold len. cbn. lia. }
  unfold Cursor.equals. cbn [Cursor.text Cursor.offset Cursor.columns].
  replace (externalOffset p =? externalOffset p + len input) with false
    by (symmetry; apply Z.eqb_neq; lia).
  rewrite andb_false_r.
  rewrite eqb_len; [reflexivity|].
  rewrite !len_app, Hl, len_firstn, len_skipn by exact Hb. lia.
Qed.

Lemma typed_text_is_inserted_witness :
  onInput hello_props [120; 13]%N Key.none
  = ([SetOffset 7;
      OnChange [104; 101; 108; 108; 111; 120; 10; 32; 119; 111; 114; 108; 100]%N], tt).
Proof.
  apply (typed_text_is_inserted hello_props [120; 13]%N Key.none);
    try reflexivity; try discriminate.
  - cbn. intuition discriminate.
  - vm_compute. split; discriminate.
Defined.

Lemma handleEnter_cases (p : props) (key : Key) :
  handleEnter p key
  = if continuesLine p
    then ret (Some (Cursor.insert (Cursor.backspace (cursor p)) [LF]))
    else if meta key then ret (Some (Cursor.insert (cursor p) [LF]))
    else emit (OnSubmit (value p)) ;;; ret None.
Proof. reflexivity. Qed.

Lemma onInput_enter (p : props) (input : jsstring) (key : Key) :
  isEnter key = true -> isBackspaceLiteral input = false ->
  onInput p input key
  = (nextCursor <- handleEnter p key ;;
     match nextCursor with
     | Some nc => commit p nc
     | None => ret tt
     end).
Proof.
  intros Hk Hlit. unfold isEnter in Hk. flags.
  unfold onInput, mapKey.
  repeat match goal with H : _ = _ :> bool |- _ => rewrite H end.
  cbn [orb bind ret app].
  destruct (handleEnter p key) as [l r]. cbn [bind].
  now destruct (match r with Some nc => commit p nc | None => ret tt end).
Qed.

(** X18. Enter.  When the test for a line continuation fails and meta is
    not held, [onInput] calls [onSubmit] with the current value and
    nothing else: it changes neither the text nor the offset.  When the
    test succeeds, with the host pair within bounds, the backslash before
    the caret is replaced by a newline and the offset stays where it is. *)
Theorem enter_submits_or_continues (p : props) (input : jsstring) (key : Key) :
  isEnter key = true -> isBackspaceLiteral input = false ->
  (continuesLine p = false -> meta key = false ->
   onInput p input key = ([OnSubmit (value p)], tt))
  /\ (continuesLine p = true -> 0 <= externalOffset p <= len (value p) ->
      value p = firstn (Z.to_nat (externalOffset p - 1)) (value p)
                ++ [BACKSLASH] ++ skipn (Z.to_nat (externalOffset p)) (value p)
      /\ onInput p input key
         = ([SetOffset (externalOffset p);
             OnChange (firstn (Z.to_nat (externalOffset p - 1)) (value p)
                       ++ [LF] ++ skipn (Z.to_nat (externalOffset p)) (value p))],
            tt)).
Proof.
  intros Hk Hlit. rewrite (onInput_enter p input key Hk Hlit), handleEnter_cases.
  split.
  - intros Hc Hm. now rewrite Hc, Hm.
  - intros Hc Hb. rewrite Hc. cbn [bind ret app].
    unfold continuesLine in Hc. rewrite (cursor_of_host p Hb) in *.
    cbn [Cursor.text Cursor.offset] in Hc.
    apply andb_prop in Hc as [Hc Hget]. apply andb_prop in Hc as [_ Hpos].
    apply Z.ltb_lt in Hpos.
    set (off := externalOffset p) in *. set (v := value p) in *.
    set (pre := firstn (Z.to_nat (off - 1)) v).
    set (post := skipn (Z.to_nat off) v).
    assert (Hpre : len pre = off - 1) by (apply len_firstn; lia).
    assert (Hv : v = pre ++ [BACKSLASH] ++ post).
    { pose proof (three_parts v (off - 1) off ltac:(lia) ltac:(lia)) as P.
      rewrite slice_between in P by lia.
      replace (Z.to_nat (off - (off - 1))) with 1%nat in P by lia.
      unfold get in Hget. destruct (Z.ltb_spec (off - 1) 0); [lia|].
      destruct (nth_error v (Z.to_nat (off - 1))) as [x|] eqn:En; [|discriminate].
      apply N.eqb_eq in Hget. subst x.
      apply nth_error_split in En as (l1 & l2 & Ev & El).
      assert (Es : skipn (Z.to_nat (off - 1)) v = BACKSLASH :: l2).
      { rewrite Ev, <- El, skipn_app, skipn_all, Nat.sub_diag. reflexivity. }
      rewrite Es in P. exact P. }
    split; [exact Hv|].
    assert (Enc : Cursor.insert (Cursor.backspace (Cursor.mk v (columns p) off)) [LF]
                  = Cursor.mk (pre ++ [LF] ++ post) (columns p) off).
    { unfold Cursor.backspace. cbn [Cursor.offset Cursor.text Cursor.columns].
      destruct (Z.eqb_spec off 0); [lia|].
      unfold Cursor.insert. cbn [Cursor.offset Cursor.text Cursor.columns].
      rewrite (slice_prefix v (off - 1)), (slice_from_suffix v off) by lia.
      fold pre post. rewrite <- Hpre.
      rewrite CursorFacts.slice_prefix_app, CursorFacts.slice_from_app.
      f_equal. change (len [LF]) with 1. lia. }
    rewrite Enc, commit_effects_full, (cursor_of_host p Hb).
    fold off v. cbn [Cursor.text Cursor.offset].
    assert (Hne : eqb v (pre ++ [LF] ++ post) = false).
    { apply eqb_neq. rewrite Hv at 1. intros E.
      apply app_inv_head in E. discriminate E. }
    unfold Cursor.equals. cbn [Cursor.text Cursor.offset Cursor.columns].
    now rewrite Hne.
Qed.

Lemma enter_submits_or_continues_witness :
  onInput hello_props_ml [13%N] returnKey
  = ([OnSubmit Cursor.ascii_hello_world], tt)
  /\ onInput continued_props [13%N] returnKey
     = ([SetOffset 3; OnChange [97; 98; 10]%N], tt).
Proof.
  split.
  - apply (proj1 (enter_submits_or_continues hello_props_ml [13%N] returnKey
                    eq_refl eq_refl)); reflexivity.
  - apply (proj2 (enter_submits_or_continues continued_props [13%N] returnKey
                    eq_refl eq_refl)); [reflexivity | vm_compute; split; discriminate].
Defined.

Lemma onChange_only_on_change_witness :
  [104; 101; 108; 108; 111; 120; 32; 119; 111; 114; 108; 100]%N
  <> value hello_props.
Proof.
  apply (proj2 (onChange_only_on_change hello_props [120%N] Key.none)).
  vm_compute. right. now left.
Defined.

(** X27. Ctrl-D.  On a buffer that holds text it deletes the code unit
    after the caret and does not press the exit gesture; on an empty buffer
    it presses the exit gesture and writes nothing to the host. *)
Theorem ctrl_d_deletes_or_exits (p : props) (key : Key) :
  reachesCtrlTable key = true ->
  (value p <> [] ->
   onInput p [100%N] key
   = (fst (maybeClearImagePasteErrorTimeout p)
      ++ fst (commit p (Cursor.del (cursor p))), tt)
   /\ ~ In HandleEmptyCtrlD (fst (onInput p [100%N] key)))
  /\ (value p = [] ->
   onInput p [100%N] key
   = (fst (maybeClearImagePasteErrorTimeout p) ++ [HandleEmptyCtrlD], tt)).
Proof.
  intros Hk. unfold reachesCtrlTable in Hk. flags.
  assert (E : onInput p [100%N] key
              = (nextCursor <- handleCtrlD p [100%N] ;;
                 match nextCursor with
                 | Some nc => commit p nc
                 | None => ret tt
                 end)).
  { unfold onInput, mapKey.
    repeat match goal with H : _ = _ :> bool |- _ => rewrite H end.
    cbn [orb andb bind ret app]. change (isBackspaceLiteral [100%N]) with false.
    cbn [bind ret app].
    destruct (handleCtrl p [100%N]) as [l r] eqn:Eh.
    change (handleCtrl p [100%N]) with (handleCtrlD p [100%N]) in Eh.
    rewrite Eh. cbn [bind].
    now destruct (match r with Some nc => commit p nc | None => ret tt end). }
  rewrite E. unfold handleCtrlD. change (Cursor.text (cursor p)) with (value p).
  split.
  - intros Hv. rewrite eqb_neq by exact Hv.
    unfold maybeClearImagePasteErrorTimeout.
    destruct (imagePasteErrorTimeout p); cbn [bind ret emit app fst];
      rewrite (commit_effects_full p (Cursor.del (cursor p)));
      cbn [fst app]; (split; [reflexivity|]);
      destruct (Cursor.equals _ _); try destruct (eqb _ _); cbn [In app];
      intuition discriminate.
  - intros Hv. rewrite Hv. change (eqb [] []) with true.
    destruct (maybeClearImagePasteErrorTimeout p) as [l []].
    cbn [bind ret emit app fst]. rewrite commit_same. cbn [ret].
    now rewrite !app_nil_r.
Qed.

Lemma ctrl_d_deletes_or_exits_witness :
  onInput hello_props [100%N] ctrlKey
  = ([SetOffset 5; OnChange [104; 101; 108; 108; 111; 119; 111; 114; 108; 100]%N], tt).
Proof.
  rewrite (proj1 (proj1 (ctrl_d_deletes_or_exits hello_props ctrlKey eq_refl)
                    ltac:(discriminate))).
  reflexivity.
Defined.

End HostTheorems.

(** ** Invariants of the two timer-driven components *)

Module TimerTheorems.
Import JS JSFacts Timers.

Section Debouncer.
Import DoublePress DoublePressFacts DoublePressLog.

Lemma timed_tidy (timeout : Z) (st : state) : timed timeout st -> tidy st.
Proof.
  unfold timed, tidy. destruct (timeoutRef st); [intros E; eexists; exact E | trivial].
Qed.

Lemma step_timed (timeout : Z) (e : event) (st : state) :
  timed timeout st -> timed timeout (fst (step timeout e st)).
Proof.
  intros Ht. pose proof (timed_tidy timeout st Ht) as Hty.
  destruct e as [now | now h]; cbn [step].
  - destruct (Z.lt_ge_cases (now - lastPressTime st) timeout).
    + rewrite press_double by assumption. reflexivity.
    + rewrite press_first by assumption. reflexivity.
  - unfold fire. destruct (expired now h (rt st)) eqn:E; [|exact Ht].
    destruct st as [last ref [arm n]]. unfold timed in *.
    cbn [fst timeoutRef rt armed lastPressTime] in *.
    destruct ref as [h'|].
    + subst arm. unfold expired in E. cbn in E.
      rewrite orb_false_r in E. apply andb_prop in E as [E _].
      apply Nat.eqb_eq in E. subst h'. now rewrite clearTimeout_only.
    + subst arm. discriminate.
Qed.

Lemma reachable_timed (timeout : Z) (st : state) :
  reachable timeout st -> timed timeout st.
Proof.
  induction 1 as [|st e _ IH]; [reflexivity | now apply step_timed].
Qed.

(** X19. In every state the hook can reach, at most one timer is armed: the
    one held in [timeoutRef], due [timeout] after the last press.  So the
    single-press callback runs only for that timer and no earlier than
    [timeout] after the last press; it calls [on_visibility(false)] then
    [on_single] and leaves no timer armed. *)
Theorem single_press_timing (timeout : Z) (st : state) :
  reachable timeout st ->
  (length (armed (rt st)) <= 1)%nat
  /\ (timeoutRef st = None <-> armed (rt st) = [])
  /\ forall t h st' calls,
       fire t h st = Some (st', calls) ->
       timeoutRef st = Some h
       /\ lastPressTime st + timeout <= t
       /\ calls = [OnShowMessage false; OnSinglePress]
       /\ timeoutRef st' = None /\ armed (rt st') = [].
Proof.
  intros Hr. apply reachable_timed in Hr. unfold timed in Hr.
  destruct st as [last ref [arm n]]. cbn [timeoutRef rt armed lastPressTime] in *.
  destruct ref as [h0|]; subst arm.
  - split; [cbn; lia|]. split; [split; discriminate|].
    intros t h st' calls. unfold fire, expired. cbn [rt armed existsb handle due].
    rewrite orb_false_r.
    destruct (Nat.eqb_spec h0 h) as [->|]; [|discriminate].
    destruct (Z.leb_spec (last + timeout) t); [|discriminate].
    cbn [andb]. intros E. injection E as <- <-.
    rewrite clearTimeout_only. cbn. repeat split; assumption.
  - split; [cbn; lia|]. split; [tauto|].
    intros t h st' calls. unfold fire, expired. cbn. discriminate.
Qed.

Lemma single_press_timing_witness :
  timeoutRef (fst (step 800 (Press 1000) init)) = Some O
  /\ lastPressTime (fst (step 800 (Press 1000) init)) + 800 <= 1800
  /\ [OnShowMessage false; OnSinglePress] = [OnShowMessage false; OnSinglePress]
  /\ timeoutRef (mkState 1000 None (mkRuntime [] 1%nat)) = None
  /\ armed (rt (mkState 1000 None (mkRuntime [] 1%nat))) = [].
Proof.
  apply (proj2 (proj2 (single_press_timing 800 (fst (step 800 (Press 1000) init))
                         (reach_step 800 init (Press 1000) (reach_init 800))))
           1800 O (mkState 1000 None (mkRuntime [] 1%nat))
           [OnShowMessage false; OnSinglePress]).
  reflexivity.
Defined.

End Debouncer.

Section Coalescer.
Import Paste PasteFacts PasteLog.

Lemma sumLengths_from (cs : list jsstring) (acc : Z) :
  fold_left (fun sum chunk => sum + len chunk) cs acc = acc + len (join cs).
Proof.
  revert acc. induction cs as [|c cs IH]; intros acc; cbn [fold_left join concat].
  - change (len (@nil code_unit)) with 0. lia.
  - rewrite IH. unfold join. rewrite len_app. lia.
Qed.

Lemma sumLengths_join (cs : list jsstring) : sumLengths cs = len (join cs).
Proof. unfold sumLengths. now rewrite sumLengths_from. Qed.

Lemma join_snoc (cs : list jsstring) (c : jsstring) :
  join (cs ++ [c]) = join cs ++ c.
Proof. unfold join. rewrite concat_app. cbn. now rewrite app_nil_r. Qed.

Lemma step_total (e : event) (st : state) :
  tidy st -> totalLength (paste st) = len (join (chunks (paste st))) ->
  totalLength (paste (fst (step e st)))
  = len (join (chunks (paste (fst (step e st))))).
Proof.
  intros Ht Hl. destruct e as [now input key | t h |]; cbn [step].
  - destruct (signalsBackspace input key) eqn:Hb.
    + now rewrite wrapped_bypasses.
    + destruct (looksPasted input (rendered st)) eqn:Hp.
      * rewrite wrapped_buffers by assumption. cbn [fst paste totalLength chunks].
        rewrite join_snoc, len_app, sumLengths_join. reflexivity.
      * now rewrite wrapped_forwards.
  - unfold fire. destruct (expired t h (rt st)); [reflexivity | exact Hl].
  - exact Hl.
Qed.

(** X20. In every state the component can reach: [totalLength] is the
    length of the buffered chunks joined; at most one timer is armed; and a
    timer is armed exactly when [timeoutId] is set, which is exactly when
    chunks are buffered. *)
Theorem paste_invariant (st : state) :
  reachable st ->
  totalLength (paste st) = len (join (chunks (paste st)))
  /\ (length (armed (rt st)) <= 1)%nat
  /\ (timeoutId (paste st) = None <-> armed (rt st) = [])
  /\ (timeoutId (paste st) = None <-> chunks (paste st) = []).
Proof.
  intros Hr. split.
  - induction Hr as [|st e Hr IH]; [reflexivity|].
    apply step_total; [now apply paste_reachable_tidy | exact IH].
  - apply paste_reachable_tidy in Hr. unfold tidy in Hr.
    destruct (timeoutId (paste st)).
    + destruct Hr as [[d ->] Hc]. split; [cbn; lia|].
      split; split; (discriminate || contradiction || intros E; now rewrite E in Hc).
    + destruct Hr as [-> ->]. split; [cbn; lia|]. split; tauto.
Qed.

Lemma paste_invariant_witness :
  totalLength (paste (fst (step (Input 0 chunk25 Key.none) init))) = 25.
Proof.
  rewrite (proj1 (paste_invariant (fst (step (Input 0 chunk25 Key.none) init))
                    (reach_step init _ reach_init))).
  reflexivity.
Defined.

Lemma paste_step_tidy (e : event) (st : state) : tidy st -> tidy (fst (step e st)).
Proof.
  intros Ht. destruct e as [now input key | t h |].
  - now apply wrapped_tidy.
  - now apply paste_fire_tidy.
  - exact Ht.
Qed.

(** One event hands on, or keeps, the chunk it brings. *)
Lemma step_keeps (e : event) (st : state) :
  tidy st -> quietEvent e ->
  Permutation
    (join (map delivered (snd (step e st))) ++ join (chunks (paste (fst (step e st)))))
    (join (chunks (paste st)) ++ join (inputsOf [e])).
Proof.
  intros Ht Hq. destruct e as [now input key | t h |]; cbn [step inputsOf flat_map app].
  - cbn [quietEvent] in Hq.
    destruct (looksPasted input (rendered st)) eqn:Hp.
    + rewrite wrapped_buffers by assumption. cbn [fst snd paste chunks map].
      rewrite join_snoc. unfold join. cbn. now rewrite app_nil_r.
    + rewrite wrapped_forwards by assumption. cbn [fst snd map].
      unfold join. cbn [concat]. rewrite !app_nil_r. apply Permutation_app_comm.
  - unfold fire. destruct (expired t h (rt st)).
    + cbn [fst snd paste chunks map]. unfold join. cbn. now rewrite !app_nil_r.
    + cbn. unfold join. cbn. now rewrite app_nil_r.
  - cbn. unfold join. cbn. now rewrite app_nil_r.
Qed.

(** At a handler that knows of the open buffer, in the order of
    arrival. *)
Lemma step_conserves (e : event) (st : state) :
  tidy st -> quietEvent e -> awareRun [e] st ->
  join (map delivered (snd (step e st))) ++ join (chunks (paste (fst (step e st))))
  = join (chunks (paste st)) ++ join (inputsOf [e]).
Proof.
  intros Ht Hq [Ha _].
  destruct e as [now input key | t h |]; cbn [step inputsOf flat_map app].
  - cbn [quietEvent] in Hq.
    destruct (looksPasted input (rendered st)) eqn:Hp.
    + rewrite wrapped_buffers by assumption. cbn [fst snd paste chunks map].
      rewrite join_snoc. unfold join. cbn. now rewrite app_nil_r.
    + rewrite wrapped_forwards by assumption. cbn [fst snd map].
      assert (Hc : chunks (paste st) = []).
      { unfold tidy in Ht. unfold looksPasted in Hp. unfold aware in Ha.
        destruct (timeoutId (paste st)); [|tauto].
        destruct (timeoutId (rendered st)).
        - now rewrite orb_true_r in Hp.
        - exfalso. now apply Ha. }
      rewrite Hc. unfold join. cbn. now rewrite !app_nil_r.
  - unfold fire. destruct (expired t h (rt st)).
    + cbn [fst snd paste chunks map]. unfold join. cbn. now rewrite !app_nil_r.
    + cbn. unfold join. cbn. now rewrite app_nil_r.
  - cbn. unfold join. cbn. now rewrite app_nil_r.
Qed.

Lemma inputsOf_cons (e : event) (es : list event) :
  inputsOf (e :: es) = inputsOf [e] ++ inputsOf es.
Proof. unfold inputsOf. cbn [flat_map]. now rewrite app_nil_r. Qed.

(** X21. Over any run of events none of which signals backspace, from a
    state the component can reach, nothing is lost and nothing is made up:
    the texts handed on (each forwarded chunk and each paste) followed by
    what is still buffered hold the code units of what was buffered at the
    start and of the chunks that arrived.  When every chunk arrives at a
    handler that knows of the open buffer, as after a render, nothing is
    reordered either: the two texts are equal. *)
Theorem paste_conserves (es : list event) (st : state) :
  reachable st -> Forall quietEvent es ->
  Permutation
    (join (map delivered (snd (run es st))) ++ join (chunks (paste (fst (run es st)))))
    (join (chunks (paste st)) ++ join (inputsOf es))
  /\ (awareRun es st ->
      join (map delivered (snd (run es st))) ++ join (chunks (paste (fst (run es st))))
      = join (chunks (paste st)) ++ join (inputsOf es)).
Proof.
  intros Hr. apply paste_reachable_tidy in Hr. revert st Hr.
  induction es as [|e es IH]; intros st Ht Hq.
  - cbn. unfold join. cbn. rewrite app_nil_r. split; [apply Permutation_refl | reflexivity].
  - apply Forall_cons_iff in Hq as [He Hes].
    pose proof (step_keeps e st Ht He) as K.
    pose proof (step_conserves e st Ht He) as S.
    pose proof (paste_step_tidy e st Ht) as Ht1.
    cbn [run awareRun]. cbn [awareRun] in S.
    destruct (step e st) as [st1 l1]. cbn [fst snd] in *.
    destruct (IH st1 Ht1 Hes) as [IHp IHe].
    destruct (run es st1) as [st2 l2]. cbn [fst snd] in *.
    rewrite inputsOf_cons.
    unfold join in *. rewrite map_app, !concat_app, <- app_assoc. split.
    + rewrite IHp, !app_assoc. now apply Permutation_app_tail.
    + intros [Ha Hrest]. rewrite (IHe Hrest), !app_assoc. f_equal.
      apply S. now split.
Qed.

Lemma paste_conserves_witness :
  join (map delivered (snd (run burst init)))
    ++ join (chunks (paste (fst (run burst init))))
  = join (chunks (paste init)) ++ join (inputsOf burst)
  /\ Permutation
       (join (map delivered (snd (run staleBurst init)))
          ++ join (chunks (paste (fst (run staleBurst init)))))
       (join (chunks (paste init)) ++ join (inputsOf staleBurst))
  /\ join (map delivered (snd (run staleBurst init)))
       ++ join (chunks (paste (fst (run staleBurst init))))
     <> join (chunks (paste init)) ++ join (inputsOf staleBurst).
Proof.
  split; [|split].
  - apply (proj2 (paste_conserves burst init reach_init ltac:(repeat constructor))).
    vm_compute. repeat split; congruence.
  - apply (proj1 (paste_conserves staleBurst init reach_init
                    ltac:(repeat constructor))).
  - vm_compute. discriminate.
Defined.

End Coalescer.

End TimerTheorems.

(** ** The text kept for a paste *)

Module AppTheorems.
Import JS JSFacts App.

Example processedText_example :
  processedText pasted_example = [97; 32; 98; 92; 110; 99]%N.
Proof. reflexivity. Qed.

(** *** Trimming *)

Lemma trimStart_tight (s : jsstring) : startsTight (trimStart s) = true.
Proof.
  induction s as [|c s IH]; [reflexivity|]. cbn [trimStart].
  destruct (is_whitespace c) eqn:E; [exact IH|]. cbn. now rewrite E.
Qed.

Lemma trimStart_id (s : jsstring) : startsTight s = true -> trimStart s = s.
Proof.
  destruct s as [|c s]; [reflexivity|]. cbn. intros H.
  apply negb_true_iff in H. now rewrite H.
Qed.

Lemma trimStart_snoc (a : jsstring) (c : code_unit) :
  is_whitespace c = false -> trimStart (a ++ [c]) = trimStart a ++ [c].
Proof.
  intros Hc. induction a as [|x a IH]; cbn [app trimStart].
  - now rewrite Hc.
  - destruct (is_whitespace x); [exact IH | reflexivity].
Qed.

Lemma trimEnd_tight (s : jsstring) : endsTight (trimEnd s) = true.
Proof.
  unfold endsTight, trimEnd. rewrite rev_involutive. apply trimStart_tight.
Qed.

Lemma trimEnd_id (s : jsstring) : endsTight s = true -> trimEnd s = s.
Proof.
  unfold endsTight, trimEnd. intros H. rewrite trimStart_id by exact H.
  apply rev_involutive.
Qed.

Lemma trimEnd_keeps_start (s : jsstring) :
  startsTight s = true -> startsTight (trimEnd s) = true.
Proof.
  destruct s as [|c s]; [reflexivity|]. cbn [startsTight]. intros H.
  apply negb_true_iff in H. unfold trimEnd. cbn [rev].
  rewrite trimStart_snoc by exact H. rewrite rev_app_distr. cbn. now rewrite H.
Qed.

Lemma trim_tight (s : jsstring) :
  startsTight (trim s) = true /\ endsTight (trim s) = true.
Proof.
  unfold trim. split; [|apply trimEnd_tight].
  apply trimEnd_keeps_start, trimStart_tight.
Qed.

Lemma trim_id (s : jsstring) :
  startsTight s = true -> endsTight s = true -> trim s = s.
Proof.
  intros Hs He. unfold trim. rewrite trimStart_id by exact Hs.
  now apply trimEnd_id.
Qed.

Lemma trimStart_blank (s : jsstring) :
  Forall (fun c => is_whitespace c = true) s -> trimStart s = [].
Proof.
  induction 1 as [|c s Hc _ IH]; [reflexivity|]. cbn. now rewrite Hc.
Qed.

(** *** Collapsing *)

Lemma collapseFrom_onlySpaces (b : bool) (s : jsstring) :
  onlySpaces (collapseFrom b s).
Proof.
  unfold onlySpaces. revert b. induction s as [|c s IH]; intros b; cbn [collapseFrom].
  - constructor.
  - destruct (is_whitespace c) eqn:E.
    + destruct b; [apply IH|]. constructor; [reflexivity | apply IH].
    + constructor; [intros H; congruence | apply IH].
Qed.

Lemma collapseFrom_idem (b : bool) (s : jsstring) :
  collapseFrom b (collapseFrom b s) = collapseFrom b s.
Proof.
  revert b. induction s as [|c s IH]; intros b; cbn [collapseFrom]; [reflexivity|].
  destruct (is_whitespace c) eqn:E.
  - destruct b; [apply IH|]. cbn [collapseFrom].
    change (is_whitespace SPACE) with true. cbn. now rewrite IH.
  - cbn [collapseFrom]. rewrite E. now rewrite IH.
Qed.

Lemma collapseFrom_past (b : bool) (a : jsstring) (c : code_unit) (x : jsstring) :
  is_whitespace c = false ->
  collapseFrom b (a ++ c :: x) = collapseFrom b a ++ c :: collapseFrom false x.
Proof.
  intros Hc. revert b. induction a as [|y a IH]; intros b; cbn [app collapseFrom].
  - now rewrite Hc.
  - destruct (is_whitespace y).
    + destruct b; [apply IH|]. cbn [app]. now rewrite IH.
    + cbn [app]. now rewrite IH.
Qed.

(** A non-empty string that ends tight is a string and a code unit that
    is not whitespace. *)
Lemma endsTight_snoc (s : jsstring) :
  s <> [] -> endsTight s = true ->
  exists a c, s = a ++ [c] /\ is_whitespace c = false.
Proof.
  intros Hne H. unfold endsTight in H.
  destruct (rev s) as [|c r] eqn:E.
  - apply (f_equal (@rev _)) in E. rewrite rev_involutive in E. contradiction.
  - exists (rev r), c. split.
    + apply (f_equal (@rev _)) in E. rewrite rev_involutive in E. exact E.
    + cbn in H. now apply negb_true_iff.
Qed.

Lemma collapse_keeps_tight (s : jsstring) :
  s <> [] -> startsTight s = true -> endsTight s = true ->
  collapseSpaces s <> [] /\ tight (collapseSpaces s).
Proof.
  intros Hne Hs He. unfold tight, collapseSpaces.
  destruct (endsTight_snoc s Hne He) as (a & c & -> & Hc).
  rewrite collapseFrom_idem.
  rewrite (collapseFrom_past false a c []) by exact Hc. cbn [collapseFrom].
  split; [now destruct (collapseFrom false a)|].
  split; [|split; [|reflexivity]].
  - destruct a as [|y a]; cbn [app collapseFrom startsTight] in *.
    + now rewrite Hc.
    + apply negb_true_iff in Hs. rewrite Hs. cbn. now rewrite Hs.
  - unfold endsTight. rewrite rev_app_distr. cbn. now rewrite Hc.
Qed.

(** *** Joining *)

Lemma startsTight_app (a b : jsstring) :
  a <> [] -> startsTight (a ++ b) = startsTight a.
Proof. destruct a; [contradiction | reflexivity]. Qed.

Lemma endsTight_app (a b : jsstring) :
  b <> [] -> endsTight (a ++ b) = endsTight b.
Proof.
  intros H. unfold endsTight. rewrite rev_app_distr.
  apply startsTight_app. intros E. apply (f_equal (@rev _)) in E.
  rewrite rev_involutive in E. contradiction.
Qed.

Lemma collapse_past_tight (p y : jsstring) :
  p <> [] -> tight p ->
  collapseSpaces (p ++ ESCAPED_NEWLINE ++ y) = p ++ ESCAPED_NEWLINE ++ collapseSpaces y.
Proof.
  intros Hne (Hs & He & Hc). unfold collapseSpaces in *.
  destruct (endsTight_snoc p Hne He) as (a & c & -> & Hw).
  rewrite (collapseFrom_past false a c []) in Hc by exact Hw. cbn [collapseFrom] in Hc.
  rewrite <- app_assoc. cbn [app].
  rewrite collapseFrom_past by exact Hw.
  unfold ESCAPED_NEWLINE. cbn [app collapseFrom].
  change (is_whitespace BACKSLASH) with false.
  change (is_whitespace 110%N) with false. cbn iota.
  apply app_inj_tail in Hc as [Ha _]. rewrite Ha, <- app_assoc. reflexivity.
Qed.

Lemma joinStr_cons (sep l : jsstring) (rest : list jsstring) :
  rest <> [] -> joinStr sep (l :: rest) = l ++ sep ++ joinStr sep rest.
Proof. destruct rest; [contradiction | reflexivity]. Qed.

Lemma joinStr_nonempty (sep : jsstring) (pieces : list jsstring) :
  pieces <> [] -> Forall (fun p => p <> []) pieces -> joinStr sep pieces <> [].
Proof.
  intros Hne H. destruct pieces as [|p rest]; [contradiction|].
  apply Forall_cons_iff in H as [Hp _].
  destruct rest; cbn [joinStr]; [exact Hp|].
  destruct p; [contradiction | discriminate].
Qed.

Lemma joinStr_tight (pieces : list jsstring) :
  Forall (fun p => p <> [] /\ tight p) pieces ->
  tight (joinStr ESCAPED_NEWLINE pieces).
Proof.
  induction 1 as [|p rest [Hne Hp] Hrest IH]; [now repeat split|].
  destruct rest as [|q rest]; [exact Hp|].
  rewrite joinStr_cons by discriminate.
  set (r := joinStr ESCAPED_NEWLINE (q :: rest)) in *.
  assert (Hr : r <> []).
  { apply joinStr_nonempty; [discriminate|].
    eapply Forall_impl; [|exact Hrest]. now intros x [Hx _]. }
  destruct IH as (_ & IHe & IHc). pose proof Hp as (Hs & He & Hc).
  split; [|split].
  - now rewrite startsTight_app.
  - rewrite !endsTight_app; try assumption. now destruct r.
  - rewrite collapse_past_tight by assumption. now rewrite IHc.
Qed.

Lemma onlySpaces_app (a b : jsstring) :
  onlySpaces a -> onlySpaces b -> onlySpaces (a ++ b).
Proof. intros Ha Hb. apply Forall_app. now split. Qed.

Lemma joinStr_onlySpaces (pieces : list jsstring) :
  Forall onlySpaces pieces -> onlySpaces (joinStr ESCAPED_NEWLINE pieces).
Proof.
  induction 1 as [|p rest Hp Hrest IH]; [constructor|].
  destruct rest as [|q rest]; [exact Hp|].
  rewrite joinStr_cons by discriminate.
  apply onlySpaces_app; [exact Hp|]. apply onlySpaces_app; [|exact IH].
  repeat constructor; discriminate.
Qed.

(** *** Lines *)

Lemma splitLines_one (s : jsstring) : ~ In LF s -> splitLines s = [s].
Proof.
  induction s as [|c s IH]; intros H; [reflexivity|].
  assert (Hc : N.eqb c LF = false) by (apply N.eqb_neq; intros ->; apply H; now left).
  assert (Hs : ~ In LF s) by (intros Hin; apply H; now right).
  cbn [splitLines]. rewrite Hc, (IH Hs).
  destruct s as [|d s]; [reflexivity|].
  assert (Hd : N.eqb d LF = false)
    by (apply N.eqb_neq; intros ->; apply Hs; now left).
  now rewrite Hd, andb_false_r.
Qed.

(** The pieces [processedText] joins. *)
Lemma pieces_tight (lines : list jsstring) :
  Forall (fun p => p <> [] /\ tight p)
         (map collapseSpaces (filter nonEmpty (map trim lines))).
Proof.
  induction lines as [|l lines IH]; [constructor|].
  cbn [map filter]. destruct (trim l) as [|c t] eqn:E; cbn [nonEmpty]; [exact IH|].
  cbn [map]. constructor; [|exact IH].
  pose proof (trim_tight l) as [Hs He]. rewrite E in Hs, He.
  apply collapse_keeps_tight; [discriminate | exact Hs | exact He].
Qed.

Lemma processedText_tight (text : jsstring) :
  onlySpaces (processedText text) /\ tight (processedText text).
Proof.
  unfold processedText. split.
  - apply joinStr_onlySpaces. apply Forall_map.
    apply Forall_forall. intros l _. apply collapseFrom_onlySpaces.
  - apply joinStr_tight, pieces_tight.
Qed.

Lemma onlySpaces_no (s : jsstring) (c : code_unit) :
  onlySpaces s -> is_whitespace c = true -> c <> SPACE -> ~ In c s.
Proof.
  intros H Hw Hne Hin. apply Hne.
  exact (proj1 (Forall_forall _ _) H c Hin Hw).
Qed.

(** The processing leaves a clean, tight string as it is. *)
Lemma processedText_fix (r : jsstring) :
  onlySpaces r -> tight r -> processedText r = r.
Proof.
  intros Ho (Hs & He & Hc). unfold processedText.
  rewrite (trim_id r Hs He).
  rewrite splitLines_one by (apply (onlySpaces_no r LF Ho); [reflexivity | discriminate]).
  cbn [map]. rewrite (trim_id r Hs He).
  destruct r as [|c r]; [reflexivity|]. cbn [nonEmpty filter map joinStr].
  exact Hc.
Qed.

(** X22. The text kept for a paste holds no whitespace but plain spaces
    (so no newline, carriage return or tab), does not start or end with
    one, and holds no two in a row. *)
Theorem paste_text_clean (text : jsstring) :
  (forall c, In c (processedText text) -> is_whitespace c = true -> c = SPACE)
  /\ ~ In LF (processedText text) /\ ~ In CR (processedText text)
  /\ startsTight (processedText text) = true
  /\ endsTight (processedText text) = true
  /\ collapseSpaces (processedText text) = processedText text.
Proof.
  destruct (processedText_tight text) as [Ho (Hs & He & Hc)].
  split; [exact (proj1 (Forall_forall _ _) Ho)|].
  split; [apply (onlySpaces_no _ LF Ho); [reflexivity | discriminate]|].
  split; [apply (onlySpaces_no _ CR Ho); [reflexivity | discriminate]|].
  now repeat split.
Qed.

Lemma paste_text_clean_witness : 32%N = SPACE.
Proof.
  apply (proj1 (paste_text_clean pasted_example) 32%N); [|reflexivity].
  vm_compute. right. now left.
Defined.

(** X23. Processing the text kept for a paste once more changes
    nothing. *)
Theorem paste_text_idempotent (text : jsstring) :
  processedText (processedText text) = processedText text.
Proof.
  destruct (processedText_tight text) as [Ho Ht].
  now apply processedText_fix.
Qed.

(** X24. A paste of nothing but whitespace is kept as the empty
    string. *)
Theorem paste_text_blank (text : jsstring) :
  Forall (fun c => is_whitespace c = true) text -> processedText text = [].
Proof.
  intros H. unfold processedText, trim.
  now rewrite (trimStart_blank text H).
Qed.

Lemma paste_text_blank_witness :
  processedText [32; 10; 9; 13; 10]%N = [].
Proof.
  apply paste_text_blank. repeat constructor.
Defined.

End AppTheorems.

(** ** The three gestures *)

Module GestureTheorems.
Import JS JSFacts Timers Dispatch Gestures.

Lemma machine_tidy (s : site) (st : state) :
  reachable s st ->
  DoublePress.tidy (machine st)
  /\ (held st = None -> armed (DoublePress.rt (machine st)) = []).
Proof.
  induction 1 as [|st e _ [IH1 IH2]]; [split; reflexivity|].
  destruct e as [now p | now h]; cbn [step].
  - unfold press.
    pose proof (DoublePressFacts.press_tidy TIMEOUT now (machine st) IH1) as T.
    destruct (Z.lt_ge_cases (now - DoublePress.lastPressTime (machine st)) TIMEOUT).
    + rewrite DoublePressFacts.press_double in * by assumption.
      cbn [fst machine held]. split; [exact T | reflexivity].
    + rewrite DoublePressFacts.press_first in * by assumption.
      cbn [fst machine held DoublePress.timeoutRef]. split; [exact T | discriminate].
  - unfold fire. destruct (held st) as [p|] eqn:Eh;
      [|cbn [fst]; split; [exact IH1 | intros _; now apply IH2]].
    pose proof (DoublePressFacts.fire_tidy now h (machine st) IH1) as T.
    cbn [DoublePress.step] in T.
    destruct (DoublePress.fire now h (machine st)) as [[m calls]|] eqn:E.
    + cbn [fst machine held] in *. split; [exact T|]. intros _.
      unfold DoublePress.fire in E.
      destruct (expired now h (DoublePress.rt (machine st))); [|discriminate].
      injection E as <- _. unfold DoublePress.tidy in T. cbn in T. exact T.
    + cbn [fst]. split; [exact IH1 | rewrite Eh; discriminate].
Qed.

Lemma press_double_branch (s : site) (now : Z) (p : props) (st : state) :
  reachable s st ->
  now - DoublePress.lastPressTime (machine st) < TIMEOUT ->
  press s now p st
  = (mkState (DoublePress.mkState 0 None
                (mkRuntime [] (fresh (DoublePress.rt (machine st))))) None,
     onShowMessage s p false ++ onDoublePress s p).
Proof.
  intros Hr Hlt. apply machine_tidy in Hr as [Ht _]. unfold press.
  rewrite DoublePressFacts.press_double by assumption.
  cbn [DoublePress.timeoutRef flat_map callback]. now rewrite app_nil_r.
Qed.

Lemma press_first_branch (s : site) (now : Z) (p : props) (st : state) :
  reachable s st ->
  TIMEOUT <= now - DoublePress.lastPressTime (machine st) ->
  press s now p st
  = (mkState (DoublePress.mkState now (Some (fresh (DoublePress.rt (machine st))))
                (mkRuntime [mkTimer (fresh (DoublePress.rt (machine st)))
                                    (now + TIMEOUT)]
                           (S (fresh (DoublePress.rt (machine st))))))
             (Some p),
     onShowMessage s p true).
Proof.
  intros Hr Hge. apply machine_tidy in Hr as [Ht _]. unfold press.
  rewrite DoublePressFacts.press_first by assumption.
  cbn [DoublePress.timeoutRef flat_map callback]. now rewrite app_nil_r.
Qed.

Lemma onShowMessage_quiet (s : site) (p : props) (show : bool) :
  filter isExit (onShowMessage s p show) = []
  /\ filter changesText (onShowMessage s p show) = [].
Proof.
  unfold onShowMessage, plain, maybeClearImagePasteErrorTimeout.
  destruct s, (imagePasteErrorTimeout p); cbn; split; reflexivity.
Qed.

(** X25. What a gesture does, in any state its hook can reach.  The
    hook compares the clock with [lastPressTime], the time of the last
    press that showed the message, or 0 at the start and after a double
    press.  A press less than the timeout after [lastPressTime] hides the
    message and runs the double-press action: exit at the Ctrl-C and Ctrl-D
    sites, where the text is not touched; at the Escape site, clearing a
    non-empty buffer with no exit.  No timer is left.  Any other press
    shows the message and arms a timer that runs no earlier than the
    timeout after the press; it then hides the message and, at the Ctrl-C
    site when the buffer was not empty at the press, clears the buffer and
    resets the history; at the other sites it does nothing more.  So a
    press less than the timeout after a press that showed the message is
    a double press, and the press that follows a double press, at any
    clock reading of at least the timeout, shows the message again,
    however soon it comes. *)
Theorem gesture_outcomes (s : site) (now : Z) (p : props) (st : state) :
  reachable s st ->
  (now - DoublePress.lastPressTime (machine st) < TIMEOUT ->
     snd (press s now p st) = onShowMessage s p false ++ onDoublePress s p
     /\ (forall t h, fire s t h (fst (press s now p st)) = None)
     /\ (s <> Escape ->
         filter isExit (snd (press s now p st)) = [OnExit]
         /\ filter changesText (snd (press s now p st)) = [])
     /\ (s = Escape ->
         filter isExit (snd (press s now p st)) = []
         /\ filter changesText (snd (press s now p st))
            = if hasValue p then [Plain (OnChange [])] else []))
  /\ (TIMEOUT <= now - DoublePress.lastPressTime (machine st) ->
     snd (press s now p st) = onShowMessage s p true
     /\ (forall t h, t < now + TIMEOUT -> fire s t h (fst (press s now p st)) = None)
     /\ exists h, forall t, now + TIMEOUT <= t ->
          exists st2,
            fire s t h (fst (press s now p st))
            = Some (st2, onShowMessage s p false ++ onSinglePress s p)
            /\ held st2 = None
            /\ filter isExit (onShowMessage s p false ++ onSinglePress s p) = []
            /\ filter changesText (onShowMessage s p false ++ onSinglePress s p)
               = match s with
                 | CtrlC => if hasValue p then [Plain (OnChange [])] else []
                 | _ => []
                 end)
  /\ (TIMEOUT <= now - DoublePress.lastPressTime (machine st) ->
     forall now' p', now <= now' < now + TIMEOUT ->
       snd (press s now' p' (fst (press s now p st)))
       = onShowMessage s p' false ++ onDoublePress s p')
  /\ (now - DoublePress.lastPressTime (machine st) < TIMEOUT ->
     forall t p', TIMEOUT <= t ->
       snd (press s t p' (fst (press s now p st))) = onShowMessage s p' true).
Proof.
  intros Hr.
  assert (Hr1 : reachable s (fst (press s now p st)))
    by exact (reach_step s st (Press now p) Hr).
  split; [|split; [|split]].
  - intros Hlt. rewrite (press_double_branch s now p st Hr Hlt). cbn [fst snd].
    destruct (onShowMessage_quiet s p false) as [Qe Qc].
    split; [reflexivity|]. split; [intros t h; reflexivity|].
    rewrite !filter_app, Qe, Qc. cbn [app]. split.
    + intros Hs. destruct s; try contradiction; split; reflexivity.
    + intros ->. cbn. destruct (hasValue p); split; reflexivity.
  - intros Hge. rewrite (press_first_branch s now p st Hr Hge). cbn [fst snd].
    split; [reflexivity|]. split.
    + intros t h Hlt. unfold fire. cbn [held machine].
      unfold DoublePress.fire. cbn [DoublePress.rt].
      now rewrite DoublePressFacts.expired_early.
    + exists (fresh (DoublePress.rt (machine st))). intros t Hle.
      eexists. unfold fire. cbn [held machine].
      rewrite DoublePressFacts.fire_due by exact Hle.
      cbn [flat_map callback]. rewrite app_nil_r.
      split; [reflexivity|]. split; [reflexivity|].
      destruct (onShowMessage_quiet s p false) as [Qe Qc].
      rewrite !filter_app, Qe, Qc. cbn [app].
      destruct s; cbn; destruct (hasValue p); split; reflexivity.
  - intros Hge now' p' Hn.
    rewrite (press_double_branch s now' p' _ Hr1); [reflexivity|].
    rewrite (press_first_branch s now p st Hr Hge).
    cbn [fst machine DoublePress.lastPressTime]. lia.
  - intros Hlt t p' Ht.
    rewrite (press_first_branch s t p' _ Hr1); [reflexivity|].
    rewrite (press_double_branch s now p st Hr Hlt).
    cbn [fst machine DoublePress.lastPressTime]. lia.
Qed.

(** A press, a press 300 ms later, and a press 100 ms after that: the
    message, the double-press action, and the message again. *)
Lemma gesture_outcomes_witness :
  snd (press CtrlC 1700000001000 hello_props init)
  = onShowMessage CtrlC hello_props true
  /\ snd (press CtrlC 1700000001300 hello_props
            (fst (press CtrlC 1700000001000 hello_props init)))
     = onShowMessage CtrlC hello_props false ++ onDoublePress CtrlC hello_props
  /\ snd (press CtrlC 1700000001400 hello_props
            (fst (press CtrlC 1700000001300 hello_props
                    (fst (step CtrlC (Press 1700000001000 hello_props) init)))))
     = onShowMessage CtrlC hello_props true.
Proof.
  split; [|split].
  - apply (proj1 (proj2 (gesture_outcomes CtrlC 1700000001000 hello_props init
                           (reach_init CtrlC)))).
    vm_compute. discriminate.
  - apply (proj1 (proj2 (proj2 (gesture_outcomes CtrlC 1700000001000 hello_props init
                                  (reach_init CtrlC))))).
    + vm_compute. discriminate.
    + unfold TIMEOUT. lia.
  - apply (proj2 (proj2 (proj2 (gesture_outcomes CtrlC 1700000001300 hello_props
                                  (fst (step CtrlC (Press 1700000001000 hello_props) init))
                                  (reach_step CtrlC init _ (reach_init CtrlC)))))).
    + vm_compute. reflexivity.
    + unfold TIMEOUT. lia.
Defined.

(** X26. Only a double press exits: in any state a gesture's hook can
    reach, an event that calls [onExit] is a press at the Ctrl-C or the
    Ctrl-D site less than the timeout after the last press.  No timer and no
    press at the Escape site exits. *)
Theorem exit_only_by_double_press (s : site) (e : event) (st : state) :
  reachable s st -> In OnExit (snd (step s e st)) ->
  s <> Escape
  /\ exists now p,
       e = Press now p
       /\ now - DoublePress.lastPressTime (machine st) < TIMEOUT.
Proof.
  intros Hr Hin.
  assert (Hf : filter isExit (snd (step s e st)) <> []).
  { intros E. assert (Hi : In OnExit (filter isExit (snd (step s e st))))
      by (apply filter_In; now split).
    now rewrite E in Hi. }
  destruct e as [now p | t h]; cbn [step] in Hf.
  - destruct (Z.lt_ge_cases (now - DoublePress.lastPressTime (machine st)) TIMEOUT)
      as [Hlt|Hge].
    + split; [|now exists now, p].
      intros ->. apply Hf.
      rewrite (press_double_branch Escape now p st Hr Hlt). cbn [snd].
      destruct (onShowMessage_quiet Escape p false) as [Qe _].
      rewrite filter_app, Qe. cbn. now destruct (hasValue p).
    + exfalso. apply Hf.
      rewrite (press_first_branch s now p st Hr Hge). cbn [snd].
      now destruct (onShowMessage_quiet s p true) as [Qe _].
  - exfalso. apply Hf. unfold fire.
    destruct (held st) as [p|]; [|reflexivity].
    unfold DoublePress.fire.
    destruct (expired t h (DoublePress.rt (machine st))); [|reflexivity].
    cbn [snd flat_map callback]. rewrite app_nil_r.
    destruct (onShowMessage_quiet s p false) as [Qe _].
    rewrite filter_app, Qe. destruct s; cbn; destruct (hasValue p); reflexivity.
Qed.

Lemma exit_only_by_double_press_witness :
  CtrlC <> Escape
  /\ exists now p,
       Press 1300 hello_props = Press now p
       /\ now - DoublePress.lastPressTime
                  (machine (fst (step CtrlC (Press 1000 hello_props) init)))
          < TIMEOUT.
Proof.
  apply (exit_only_by_double_press CtrlC (Press 1300 hello_props)
           (fst (step CtrlC (Press 1000 hello_props) init))).
  - apply reach_step, reach_init.
  - vm_compute. right. now left.
Defined.

End GestureTheorems.

(** ** The command line of the client *)

Module CliTheorems.
Import JS JSFacts Cli.

Example parseInt10_examples :
  parseInt10 ascii_8080 = Some 8080
  /\ parseInt10 ascii_abc = None
  /\ parseInt10 ([32; 45]%N ++ ascii_8080 ++ ascii_abc) = Some (-8080).
Proof. repeat split. Qed.

Lemma validPort_range (x : option Z) (n : Z) :
  validPort x = Some n -> x = Some n /\ 1 <= n <= 65535.
Proof.
  unfold validPort. destruct x as [m|]; [|discriminate].
  destruct (Z.ltb_spec 0 m); [|discriminate].
  destruct (Z.leb_spec m 65535); [|discriminate].
  cbn. intros E. injection E as <-. split; [reflexivity | lia].
Qed.

Lemma argsLoop_range (args : list jsstring) (port : option Z) (n : Z) :
  (forall m, port = Some m -> 1 <= m <= 65535) ->
  argsLoop args port = Some n -> 1 <= n <= 65535.
Proof.
  revert port. induction args as [|arg rest IH]; intros port Hp; cbn [argsLoop].
  - apply Hp.
  - apply IH. destruct rest as [|next rest']; [exact Hp|].
    destruct (eqb arg PORT_FLAG); [|exact Hp].
    destruct (validPort (parseInt10 next)) as [q|] eqn:E; [|exact Hp].
    intros m Em. injection Em as <-. now apply validPort_range in E.
Qed.

(** The last usable [--port] of the arguments decides. *)
Lemma argsLoop_last (before : list jsstring) (value : jsstring)
    (port : option Z) (n : Z) :
  validPort (parseInt10 value) = Some n ->
  argsLoop (before ++ [PORT_FLAG; value]) port = Some n.
Proof.
  intros Hv. revert port. induction before as [|arg rest IH]; intros port.
  - cbn [app argsLoop]. now rewrite eqb_refl, Hv.
  - cbn [app argsLoop]. apply IH.
Qed.

(** A [--port] that ends the arguments has no value to read. *)
Lemma argsLoop_dangling (args : list jsstring) (port : option Z) :
  argsLoop (args ++ [PORT_FLAG]) port = argsLoop args port.
Proof.
  revert port. induction args as [|arg rest IH]; intros port; [reflexivity|].
  cbn [app argsLoop]. rewrite IH. f_equal.
  destruct rest as [|next rest']; cbn [app]; [|reflexivity].
  destruct (eqb arg PORT_FLAG); reflexivity.
Qed.

(** X28. [parseArgs] returns no port or a port between 1 and 65535,
    whatever the arguments and the port file hold.  When the arguments end
    in [--port] and a value that reads as a port in that range, that port
    is returned, whatever comes before and whatever the file holds; a
    [--port] that is the last argument, after any arguments, is ignored. *)
Theorem parseArgs_port (args : list jsstring) (portFile : option jsstring) :
  (forall n, parseArgs args portFile = Some n -> 1 <= n <= 65535)
  /\ (forall value n,
        validPort (parseInt10 value) = Some n ->
        parseArgs (args ++ [PORT_FLAG; value]) portFile = Some n)
  /\ parseArgs (args ++ [PORT_FLAG]) portFile = parseArgs args portFile.
Proof.
  split; [|split].
  - intros n. unfold parseArgs.
    destruct (argsLoop args None) as [p|] eqn:E.
    + intros Ep. injection Ep as <-.
      apply (argsLoop_range args None p); [discriminate | exact E].
    + destruct portFile as [content|]; [|discriminate].
      intros Ev. now apply validPort_range in Ev.
  - intros value n Hv. unfold parseArgs.
    now rewrite (argsLoop_last args value None n Hv).
  - unfold parseArgs. now rewrite argsLoop_dangling.
Qed.

Lemma parseArgs_port_witness :
  1 <= 8080 <= 65535
  /\ parseArgs ([PORT_FLAG; ascii_70000] ++ [PORT_FLAG; ascii_8080]) (Some ascii_abc)
     = Some 8080.
Proof.
  split.
  - apply (proj1 (parseArgs_port [PORT_FLAG; ascii_8080] None) 8080). reflexivity.
  - apply (proj1 (proj2 (parseArgs_port [PORT_FLAG; ascii_70000] (Some ascii_abc)))
             ascii_8080 8080).
    reflexivity.
Defined.

End CliTheorems.
